(** * YouTube music player: sequencing, persistence and link parsing

    A shallow embedding of [src/app/components/youtubeMusicPlayer.tsx].

    The component keeps its data in React state cells ([playlist],
    [currentTrackIndex], [isPlaying], [playMode]) and in one mutable ref
    ([playedIndicesRef]).  Every event handler is modelled as a function from
    the state seen by the handler to the state after all the updates it
    queued have been applied.  JavaScript numbers that hold indices and ids
    are integers, modelled by [Z]; [number | null] is [option Z].  Strings
    are [string]s whose characters stand for code units below 256.  The
    value of [Math.random()] is an argument of the handler that may call
    it, [Date.now()] is an argument of [addVideo], and the built-in [JSON]
    object is an interface with the two functions the component calls.
    [JSON.parse] returns a JavaScript value of any shape; the mount effect
    puts it into the playlist cell unchecked, so the cells it writes are
    modelled with a playlist cell that holds a value. *)

From Stdlib Require Import ZArith QArith List String Ascii Bool Lia.
Import ListNotations.

Local Open Scope string_scope.
Local Open Scope list_scope.
Local Open Scope Z_scope.

(** ** JavaScript built-ins used by the component *)

Module JS.

(** [Array.prototype.includes] on an array of numbers. *)
Definition includes (l : list Z) (x : Z) : bool := existsb (Z.eqb x) l.

(** [Array.prototype.findIndex]: the first index whose element satisfies
    the predicate, [-1] when there is none. *)
Fixpoint findIndex_from {A} (p : A -> bool) (l : list A) (i : Z) : Z :=
  match l with
  | [] => -1
  | x :: l' => if p x then i else findIndex_from p l' (i + 1)
  end.

Definition findIndex {A} (p : A -> bool) (l : list A) : Z :=
  findIndex_from p l 0.

(** [array.length] as a number. *)
Definition len {A} (l : list A) : Z := Z.of_nat (List.length l).

(** The indices of an array, [array.map((_, i) => i)]. *)
Definition indices {A} (l : list A) : list Z :=
  map Z.of_nat (seq 0 (List.length l)).

(** The remainder operator [%] on integers: the sign follows the
    dividend. *)
Definition rem (a b : Z) : Z := Z.rem a b.

(** A value returned by [Math.random()]: a rational [num / (num + gap + 1)],
    hence in the interval [0, 1). *)
Record draw := mkDraw { num : nat; gap : nat }.

(** [Math.floor(Math.random() * n)] for the draw [u]. *)
Definition random_floor (u : draw) (n : nat) : nat :=
  ((num u * n) / (num u + gap u + 1))%nat.

(** White space and line terminators, as far as they are code units below
    256: TAB, LF, VT, FF, CR, SP, NBSP. *)
Definition is_white_space (c : ascii) : bool :=
  let n := nat_of_ascii c in
  ((n =? 9) || (n =? 10) || (n =? 11) || (n =? 12) || (n =? 13)
   || (n =? 32) || (n =? 160))%nat.

Fixpoint trimStart (s : string) : string :=
  match s with
  | String c s' => if is_white_space c then trimStart s' else s
  | EmptyString => EmptyString
  end.

Fixpoint trimEnd (s : string) : string :=
  match s with
  | String c s' =>
      match trimEnd s' with
      | EmptyString => if is_white_space c then EmptyString
                       else String c EmptyString
      | t => String c t
      end
  | EmptyString => EmptyString
  end.

(** [String.prototype.trim]. *)
Definition trim (s : string) : string := trimEnd (trimStart s).

(** Truthiness of a string: every string but the empty one. *)
Definition truthy (s : string) : bool :=
  match s with EmptyString => false | _ => true end.

(** *** Decimal numerals *)

Definition digit_value (c : ascii) : option Z :=
  let n := nat_of_ascii c in
  if ((48 <=? n) && (n <=? 57))%nat then Some (Z.of_nat n - 48) else None.

Definition is_digit (c : ascii) : bool :=
  match digit_value c with Some _ => true | None => false end.

Definition digit_char (d : Z) : ascii := ascii_of_nat (Z.to_nat (d + 48)).

(** The value of the longest prefix of decimal digits, continuing from
    [acc]. *)
Fixpoint digits_value (acc : Z) (s : string) : Z :=
  match s with
  | String c s' =>
      match digit_value c with
      | Some d => digits_value (10 * acc + d) s'
      | None => acc
      end
  | EmptyString => acc
  end.

(** [Number.parseInt(s, 10)]: leading white space is skipped, one sign is
    accepted, then the longest prefix of digits is read; [None] is [NaN].
    The value is kept exact; JavaScript rounds it beyond 2^53. *)
Definition parseInt (s : string) : option Z :=
  let s1 := trimStart s in
  let '(sign, s2) :=
    match s1 with
    | String "-" r => (-1, r)
    | String "+" r => (1, r)
    | _ => (1, s1)
    end in
  match s2 with
  | String c _ => if is_digit c then Some (sign * digits_value 0 s2) else None
  | EmptyString => None
  end.

(** The decimal digits of a non-negative integer, most significant first;
    [fuel] bounds the number of digits after the first. *)
Fixpoint decimal (fuel : nat) (n : Z) : string :=
  match fuel with
  | O => String (digit_char n) EmptyString
  | S f =>
      if n <? 10 then String (digit_char n) EmptyString
      else decimal f (n / 10) ++ String (digit_char (n mod 10)) EmptyString
  end.

(** [String(n)] for an integer [n]: decimal notation, which JavaScript
    uses for every integer below 10^21. *)
Definition toString (n : Z) : string :=
  if n <? 0 then String "-" (decimal (Z.to_nat (Z.log2 (- n))) (- n))
  else decimal (Z.to_nat (Z.log2 n)) n.

(** *** Values

    The values [JSON.parse] can return, and [undefined], which is what
    reading a property that is not there gives.  Numbers are kept exact,
    as rationals, with the two infinities and [NaN].  The keys of an
    object are distinct. *)

Inductive number :=
| NaN
| Finite (q : Q)
| Infinity (negative : bool).

#[local] Unset Elimination Schemes.

Inductive value :=
| Undefined
| Null
| Boolean (b : bool)
| Number (n : number)
| Str (s : string)
| Array (elements : list value)
| Object (properties : list (string * value)).

#[local] Set Elimination Schemes.

(** An own property of an object. *)
Definition property (name : string) (properties : list (string * value))
  : option value :=
  match find (fun p => String.eqb (fst p) name) properties with
  | Some p => Some (snd p)
  | None => None
  end.

(** [v.length].  [None] is the [TypeError] that reading a property of
    [null] or [undefined] throws.  Booleans and numbers have no such
    property, a string and an array have their length, an object has it
    if it has a property of that name. *)
Definition get_length (v : value) : option value :=
  match v with
  | Undefined | Null => None
  | Boolean _ | Number _ => Some Undefined
  | Str s => Some (Number (Finite (inject_Z (Z.of_nat (String.length s)))))
  | Array elements => Some (Number (Finite (inject_Z (len elements))))
  | Object properties =>
      Some match property "length" properties with
           | Some w => w
           | None => Undefined
           end
  end.

(** *** StringToNumber

    The number a string converts to: white space around it is dropped,
    the empty string is 0, then come [Infinity] and decimal literals with
    an optional sign, and binary, octal and hexadecimal integers without
    one; every other string is [NaN]. *)

Definition radix_digit_value (c : ascii) : option Z :=
  let n := nat_of_ascii c in
  if ((48 <=? n) && (n <=? 57))%nat then Some (Z.of_nat n - 48)
  else if ((97 <=? n) && (n <=? 102))%nat then Some (Z.of_nat n - 87)
  else if ((65 <=? n) && (n <=? 70))%nat then Some (Z.of_nat n - 55)
  else None.

(** The value of a text made of digits below [radix], continuing from
    [acc]; [None] if another character occurs. *)
Fixpoint radix_value (radix acc : Z) (s : string) : option Z :=
  match s with
  | String c s' =>
      match radix_digit_value c with
      | Some d =>
          if d <? radix then radix_value radix (radix * acc + d) s'
          else None
      | None => None
      end
  | EmptyString => Some acc
  end.

(** The longest prefix of decimal digits, and the rest. *)
Fixpoint span_digits (s : string) : string * string :=
  match s with
  | String c s' =>
      if is_digit c
      then let '(d, r) := span_digits s' in (String c d, r)
      else (EmptyString, s)
  | EmptyString => (EmptyString, EmptyString)
  end.

(** An exponent part that ends the text, or no exponent part; [None] for
    anything else. *)
Definition exponent (s : string) : option Z :=
  match s with
  | EmptyString => Some 0
  | String c r =>
      if Ascii.eqb c "e" || Ascii.eqb c "E" then
        let '(sign, digits) :=
          match r with
          | String "-" r' => (-1, r')
          | String "+" r' => (1, r')
          | _ => (1, r)
          end in
        match span_digits digits with
        | (String _ _, EmptyString) => Some (sign * digits_value 0 digits)
        | _ => None
        end
      else None
  end.

(** [m] times 10 to the power [k]. *)
Definition scale (m k : Z) : Q :=
  if 0 <=? k then inject_Z (m * 10 ^ k)
  else Qmake m (Z.to_pos (10 ^ (- k))).

(** A decimal literal without sign: digits, then an optional point with
    optional digits, or a point with digits; then an optional exponent. *)
Definition unsigned_decimal (s : string) : number :=
  if String.eqb s "Infinity" then Infinity false
  else
    let '(int, r1) := span_digits s in
    let '(frac, r2) :=
      match r1 with
      | String "." r => span_digits r
      | _ => (EmptyString, r1)
      end in
    match (int ++ frac)%string with
    | EmptyString => NaN
    | mantissa =>
        match exponent r2 with
        | Some e =>
            Finite (scale (digits_value 0 mantissa)
                          (e - Z.of_nat (String.length frac)))
        | None => NaN
        end
    end.

Definition negate (n : number) : number :=
  match n with
  | NaN => NaN
  | Finite q => Finite (Qopp q)
  | Infinity negative => Infinity (negb negative)
  end.

(** A binary, octal or hexadecimal integer of at least one digit. *)
Definition radix_literal (radix : Z) (digits : string) : number :=
  match digits with
  | EmptyString => NaN
  | _ =>
      match radix_value radix 0 digits with
      | Some n => Finite (inject_Z n)
      | None => NaN
      end
  end.

Definition StringToNumber (s : string) : number :=
  match trim s with
  | EmptyString => Finite 0
  | String "+" r => unsigned_decimal r
  | String "-" r => negate (unsigned_decimal r)
  | String "0" (String "x" r) | String "0" (String "X" r) =>
      radix_literal 16 r
  | String "0" (String "o" r) | String "0" (String "O" r) =>
      radix_literal 8 r
  | String "0" (String "b" r) | String "0" (String "B" r) =>
      radix_literal 2 r
  | t => unsigned_decimal t
  end.

(** *** ToNumber

    Arrays and objects are first turned into a primitive.  An array
    becomes the texts of its elements joined by commas, [null] and
    [undefined] giving the empty text; an object becomes
    ["[object Object]"].  An object with a property named [toString]
    cannot be turned into a text, since a parsed value is no function:
    that is a [TypeError], also when the object is met inside an array. *)

Fixpoint ToString_throws (v : value) : bool :=
  match v with
  | Object properties =>
      match property "toString" properties with
      | Some _ => true
      | None => false
      end
  | Array elements => existsb ToString_throws elements
  | _ => false
  end.

(** [None] is the [TypeError].  An array of two or more elements gives a
    text with a comma, which is no number; for an array of one element
    the text is that of the element, and the text of a number converts
    back to the number. *)
Fixpoint ToNumber (v : value) : option number :=
  match v with
  | Undefined => Some NaN
  | Null => Some (Finite 0)
  | Boolean b => Some (Finite (if b then 1 else 0))
  | Number n => Some n
  | Str s => Some (StringToNumber s)
  | Object _ => if ToString_throws v then None else Some NaN
  | Array elements =>
      if ToString_throws v then None
      else
        match elements with
        | [] => Some (Finite 0)
        | [e] =>
            match e with
            | Undefined | Null => Some (Finite 0)
            | Boolean _ | Object _ => Some NaN
            | Number n => Some n
            | Str s => Some (StringToNumber s)
            | Array _ => ToNumber e
            end
        | _ => Some NaN
        end
  end.

(** [w > index] for an integer [index]; [None] is the [TypeError]. *)
Definition greater (w : value) (index : Z) : option bool :=
  match ToNumber w with
  | Some NaN => Some false
  | Some (Finite q) => Some (negb (Qle_bool q (inject_Z index)))
  | Some (Infinity negative) => Some (negb negative)
  | None => None
  end.

End JS.

(** ** Data model *)

Record PlaylistItem := mkItem {
  id : Z;
  youtubeId : string;
  title : string;
  originalUrl : string
}.

(** [type PlayMode = "none" | "repeat-all" | "shuffle"] *)
Inductive PlayMode := none | repeat_all | shuffle.

Definition PlayMode_eqb (a b : PlayMode) : bool :=
  match a, b with
  | none, none | repeat_all, repeat_all | shuffle, shuffle => true
  | _, _ => false
  end.

(** The two messages [addVideo] can put into the [error] cell. *)
Inductive ErrorMessage := MissingTitleOrUrl | InvalidYouTubeUrl.

(** The cells of the component: four state cells of the sequencer, the
    [error] cell, and the contents of [playedIndicesRef.current]. *)
Record State := mkState {
  playlist : list PlaylistItem;
  currentTrackIndex : option Z;
  isPlaying : bool;
  playMode : PlayMode;
  error : option ErrorMessage;
  playedIndices : list Z
}.

Definition initialState : State :=
  mkState [] None false none None [].

Definition setPlaylist (v : list PlaylistItem) (s : State) : State :=
  mkState v (currentTrackIndex s) (isPlaying s) (playMode s) (error s)
          (playedIndices s).

Definition setCurrentTrackIndex (v : option Z) (s : State) : State :=
  mkState (playlist s) v (isPlaying s) (playMode s) (error s)
          (playedIndices s).

Definition setIsPlaying (v : bool) (s : State) : State :=
  mkState (playlist s) (currentTrackIndex s) v (playMode s) (error s)
          (playedIndices s).

Definition setPlayMode (v : PlayMode) (s : State) : State :=
  mkState (playlist s) (currentTrackIndex s) (isPlaying s) v (error s)
          (playedIndices s).

Definition setError (v : option ErrorMessage) (s : State) : State :=
  mkState (playlist s) (currentTrackIndex s) (isPlaying s) (playMode s) v
          (playedIndices s).

Definition setPlayedIndices (v : list Z) (s : State) : State :=
  mkState (playlist s) (currentTrackIndex s) (isPlaying s) (playMode s)
          (error s) v.

(** ** Regular expressions

    A backtracking matcher for the operators that occur in the pattern of
    [extractVideoId]: the start anchor, single characters, the wildcard, a
    negated class, greedy repetition of a character set, sequence, ordered
    choice and one capturing group.  Matching is written in continuation
    style: the continuation is the rest of the pattern, and a [None] from it
    makes the matcher try its next alternative, in the order ECMAScript
    prescribes. *)

Module Regex.

Inductive charset :=
| Lit (c : ascii)            (* a literal character *)
| Dot                        (* [.]: anything but a line terminator *)
| NoneOf (l : list ascii).   (* [[^...]] *)

Definition is_line_terminator (c : ascii) : bool :=
  let n := nat_of_ascii c in ((n =? 10) || (n =? 13))%nat.

Definition accepts (cs : charset) (c : ascii) : bool :=
  match cs with
  | Lit a => Ascii.eqb a c
  | Dot => negb (is_line_terminator c)
  | NoneOf l => negb (existsb (Ascii.eqb c) l)
  end.

Inductive regex :=
| Bol                          (* [^] *)
| Eps
| Chr (cs : charset)
| Star (cs : charset)          (* greedy [cs*] *)
| Seq (r1 r2 : regex)
| Alt (r1 r2 : regex)          (* [r1|r2], [r1] first *)
| Group (r : regex).           (* capturing group 1 *)

(** A literal string as a pattern. *)
Fixpoint lit (s : string) : regex :=
  match s with
  | String c s' => Seq (Chr (Lit c)) (lit s')
  | EmptyString => Eps
  end.

Section Matcher.
Context {A : Type}.

(** Greedy repetition: take the longest run first and give characters
    back one at a time while the continuation fails. *)
Fixpoint star (cs : charset) (s : string) (k : string -> option A)
  : option A :=
  match s with
  | String c s' =>
      if accepts cs c then
        match star cs s' k with
        | Some r => Some r
        | None => k s
        end
      else k s
  | EmptyString => k s
  end.

(** [run input r s cap k] matches [r] at the suffix [s] of [input],
    with [cap] the current value of group 1, and hands the remaining
    suffix and the group to [k]. *)
Fixpoint run (input : string) (r : regex) (s : string)
         (cap : option string)
         (k : string -> option string -> option A) : option A :=
  match r with
  | Bol => if (String.length s =? String.length input)%nat
           then k s cap else None
  | Eps => k s cap
  | Chr cs =>
      match s with
      | String c s' => if accepts cs c then k s' cap else None
      | EmptyString => None
      end
  | Star cs => star cs s (fun s' => k s' cap)
  | Seq r1 r2 => run input r1 s cap (fun s' cap' => run input r2 s' cap' k)
  | Alt r1 r2 =>
      match run input r1 s cap k with
      | Some x => Some x
      | None => run input r2 s cap k
      end
  | Group r1 =>
      run input r1 s cap
          (fun s' _ =>
             k s' (Some (substring 0 (String.length s - String.length s') s)))
  end.
End Matcher.

(** The match attempts of [RegExp.prototype.exec] without the global
    flag: every start position from the left, first success wins.  The
    result is the value of group 1, [None] inside for [undefined]. *)
Fixpoint exec_from (input : string) (r : regex) (s : string)
  : option (option string) :=
  match run input r s None (fun _ cap => Some cap) with
  | Some cap => Some cap
  | None =>
      match s with
      | String _ s' => exec_from input r s'
      | EmptyString => None
      end
  end.

(** [input.match(r)], reduced to group 1 of the match. *)
Definition exec (r : regex) (input : string) : option (option string) :=
  exec_from input r input.

End Regex.

(** ** The link parser *)

Import Regex.

(** The alternatives of the non-capturing group, in source order.  The
    dot of [youtu.be] is not escaped in the source: it is the wildcard. *)
Definition linkForms : list regex :=
  [ Seq (lit "youtu") (Seq (Chr Dot) (lit "be/"));
    lit "v/";
    lit "e/";
    lit "embed/";
    lit "watch?v=";
    lit "watch?feature=player_embedded&v=" ].

(** Ordered choice between the patterns of a list. *)
Fixpoint alternation (l : list regex) : regex :=
  match l with
  | [] => Eps
  | [r] => r
  | r :: l' => Alt r (alternation l')
  end.

(** The pattern of [extractVideoId]: the start anchor, a greedy run of
    wildcards, one of the link forms, group 1 holding a greedy run of
    characters other than [#], [&] and [?], and a last greedy run of
    wildcards. *)
Definition regExp : regex :=
  Seq Bol
   (Seq (Star Dot)
    (Seq (alternation linkForms)
     (Seq (Group (Star (NoneOf ["#"; "&"; "?"]%char)))
          (Star Dot)))).

(** [extractVideoId]: group 1 when the pattern matches and the group has
    11 characters, [None] for [null].  Reading [.length] of an undefined
    group would throw; the group of [regExp] takes part in every match, so
    that case only appears here to make the definition total. *)
Definition extractVideoId (url : string) : option string :=
  match exec regExp url with
  | Some (Some g) => if (String.length g =? 11)%nat then Some g else None
  | Some None => None
  | None => None
  end.

(** ** The playlist store and the sequencer *)

(** [addVideo], with the two input fields and the value of [Date.now()] as
    arguments. *)
Definition addVideo (newVideoTitle newVideoUrl : string) (now : Z) (s : State)
  : State :=
  let s0 := setError None s in
  if negb (JS.truthy (JS.trim newVideoUrl))
     || negb (JS.truthy (JS.trim newVideoTitle))
  then setError (Some MissingTitleOrUrl) s0
  else
    match extractVideoId newVideoUrl with
    | None => setError (Some InvalidYouTubeUrl) s0
    | Some youtubeId =>
        let newPlaylistItem :=
          mkItem now youtubeId (JS.trim newVideoTitle) (JS.trim newVideoUrl) in
        let prev := playlist s0 in
        let s1 :=
          if (JS.len prev =? 0)
             && match currentTrackIndex s0 with None => true | Some _ => false end
          then setIsPlaying true (setCurrentTrackIndex (Some 0) s0)
          else s0 in
        setPlaylist (prev ++ [newPlaylistItem]) s1
    end.

(** [selectVideo] *)
Definition selectVideo (index : Z) (s : State) : State :=
  if (index >=? 0) && (index <? JS.len (playlist s)) then
    let s1 := setIsPlaying true (setCurrentTrackIndex (Some index) s) in
    if PlayMode_eqb (playMode s) shuffle
    then setPlayedIndices [index] s1
    else s1
  else s.

(** The indices [playNext] may still pick in shuffle mode. *)
Definition availableIndices (s : State) : list Z :=
  filter (fun i => negb (JS.includes (playedIndices s) i))
         (JS.indices (playlist s)).

(** [playNext]; [u] is the value [Math.random()] returns if it is called.
    An element read from [availableIndices] is read inside the array (see
    [random_floor_lt]), so the default of [nth] is never used. *)
Definition playNext (u : JS.draw) (s : State) : State :=
  if JS.len (playlist s) =? 0 then s
  else
    match playMode s with
    | shuffle =>
        let available := availableIndices s in
        if (JS.len available =? 0) then
          let nextIndex :=
            Z.of_nat (JS.random_floor u (List.length (playlist s))) in
          selectVideo nextIndex (setPlayedIndices ([] ++ [nextIndex]) s)
        else
          let nextIndex :=
            nth (JS.random_floor u (List.length available)) available 0 in
          selectVideo nextIndex
                      (setPlayedIndices (playedIndices s ++ [nextIndex]) s)
    | mode =>
        let nextIndex :=
          JS.rem (match currentTrackIndex s with
                  | None => 0
                  | Some c => c + 1
                  end)
                 (JS.len (playlist s)) in
        if PlayMode_eqb mode none
           && (nextIndex =? 0)
           && match currentTrackIndex s with None => false | Some _ => true end
           && (JS.len (playlist s) >? 1)
        then setCurrentTrackIndex None (setIsPlaying false s)
        else selectVideo nextIndex s
    end.

(** [playPrevious] *)
Definition playPrevious (s : State) : State :=
  if JS.len (playlist s) =? 0 then s
  else
    let prevIndex :=
      match currentTrackIndex s with
      | None => 0
      | Some c => JS.rem (c - 1 + JS.len (playlist s)) (JS.len (playlist s))
      end in
    selectVideo prevIndex s.

(** [togglePlayMode] *)
Definition togglePlayMode (s : State) : State :=
  match playMode s with
  | none => setPlayMode repeat_all s
  | repeat_all => setPlayMode shuffle (setPlayedIndices [] s)
  | shuffle => setPlayMode none s
  end.

(** [removeVideo].  The call [playerRef.current.stopVideo()] acts on the
    embedded player only and leaves the cells alone. *)
Definition removeVideo (idToRemove : Z) (s : State) : State :=
  let indexToRemove :=
    JS.findIndex (fun video => id video =? idToRemove) (playlist s) in
  if indexToRemove =? -1 then s
  else
    let newPlaylist :=
      filter (fun video => negb (id video =? idToRemove)) (playlist s) in
    let s1 := setPlaylist newPlaylist s in
    let s2 :=
      match currentTrackIndex s with
      | Some c =>
          if c =? indexToRemove then
            if JS.len newPlaylist =? 0 then
              setIsPlaying false (setCurrentTrackIndex None s1)
            else if indexToRemove <? JS.len newPlaylist then
              setIsPlaying true (setCurrentTrackIndex (Some indexToRemove) s1)
            else
              setIsPlaying true
                (setCurrentTrackIndex (Some (JS.len newPlaylist - 1)) s1)
          else if indexToRemove <? c then
            setCurrentTrackIndex (Some (c - 1)) s1
          else s1
      | None => s1
      end in
    setPlayedIndices
      (map (fun idx => if idx >? indexToRemove then idx - 1 else idx)
           (filter (fun idx => negb (idx =? indexToRemove)) (playedIndices s)))
      s2.

(** [onPlayerPlay] and [onPlayerPause] *)
Definition onPlayerPlay (s : State) : State := setIsPlaying true s.
Definition onPlayerPause (s : State) : State := setIsPlaying false s.

(** [onPlayerEnd]; the "ended" branch of [onPlayerStateChange] and the
    periodic check do the same. *)
Definition onPlayerEnd (u : JS.draw) (s : State) : State :=
  match playMode s with
  | repeat_all | shuffle => playNext u s
  | none =>
      let nextIndex :=
        match currentTrackIndex s with Some c => c + 1 | None => 0 end in
      if nextIndex <? JS.len (playlist s) then playNext u s
      else setIsPlaying false s
  end.

(** Consecutive calls of [playNext], one draw for each call. *)
Fixpoint playNextMany (us : list JS.draw) (s : State) : State :=
  match us with
  | [] => s
  | u :: us' => playNextMany us' (playNext u s)
  end.

(** The positions selected by consecutive calls of [playNext], in order. *)
Fixpoint visited (us : list JS.draw) (s : State) : list (option Z) :=
  match us with
  | [] => []
  | u :: us' =>
      currentTrackIndex (playNext u s) :: visited us' (playNext u s)
  end.

(** ** Persistence *)

(** The three entries of [localStorage] the component uses; [None] is a
    missing entry, for which [getItem] returns [null]. *)
Record Storage := mkStorage {
  youtube_music_playlist : option string;
  youtube_music_current_index : option string;
  youtube_music_play_mode : option string
}.

(** The value a track is at run time, with the properties in the order
    in which [addVideo] writes them, which is also the order in which
    [JSON.stringify] writes and [JSON.parse] reads them; and the value of
    a playlist. *)
Definition itemValue (v : PlaylistItem) : JS.value :=
  JS.Object
    [("id", JS.Number (JS.Finite (inject_Z (id v))));
     ("youtubeId", JS.Str (youtubeId v));
     ("title", JS.Str (title v));
     ("originalUrl", JS.Str (originalUrl v))].

Definition playlistValue (l : list PlaylistItem) : JS.value :=
  JS.Array (map itemValue l).

(** The track a value is, if it is one as the component makes them. *)
Definition valueItem (v : JS.value) : option PlaylistItem :=
  match v with
  | JS.Object [(k1, JS.Number (JS.Finite q)); (k2, JS.Str y);
               (k3, JS.Str t); (k4, JS.Str o)] =>
      if String.eqb k1 "id" && String.eqb k2 "youtubeId"
         && String.eqb k3 "title" && String.eqb k4 "originalUrl"
         && Pos.eqb (Qden q) 1
      then Some (mkItem (Qnum q) y t o)
      else None
  | _ => None
  end.

Fixpoint valueItems (elements : list JS.value) : option (list PlaylistItem) :=
  match elements with
  | [] => Some []
  | e :: elements' =>
      match valueItem e, valueItems elements' with
      | Some v, Some l => Some (v :: l)
      | _, _ => None
      end
  end.

(** The playlist a value is, if it is an array of tracks. *)
Definition valuePlaylist (v : JS.value) : option (list PlaylistItem) :=
  match v with
  | JS.Array elements => valueItems elements
  | _ => None
  end.

(** The built-in [JSON] object.  [JSON_stringify] is used on playlists
    only; [JSON_parse] returns [None] where [JSON.parse] throws. *)
Class JSON := {
  JSON_stringify : list PlaylistItem -> string;
  JSON_parse : string -> option JS.value
}.

(** The string a [PlayMode] is at run time. *)
Definition PlayMode_string (m : PlayMode) : string :=
  match m with
  | none => "none"
  | repeat_all => "repeat-all"
  | shuffle => "shuffle"
  end.

(** [["none", "repeat-all", "shuffle"].includes(s)], with the mode that
    [s] is then cast to. *)
Definition PlayMode_of_string (s : string) : option PlayMode :=
  if String.eqb s "none" then Some none
  else if String.eqb s "repeat-all" then Some repeat_all
  else if String.eqb s "shuffle" then Some shuffle
  else None.

(** The cells the mount effect writes, as they are at run time.  The
    playlist cell is declared as [PlaylistItem[]], which is not checked
    when the program runs: [setPlaylist(JSON.parse(savedPlaylist))] puts
    whatever value the text denotes into the cell. *)
Record Cells := mkCells {
  playlistCell : JS.value;
  currentTrackIndexCell : option Z;
  playModeCell : PlayMode
}.

(** The three cells of a state. *)
Definition cells (s : State) : Cells :=
  mkCells (playlistValue (playlist s)) (currentTrackIndex s) (playMode s).

Definition initialCells : Cells := cells initialState.

(** How far a [try] block got: to its end, or to a [throw]; both carry the
    cells as updated so far. *)
Inductive outcome :=
| Completed (c : Cells)
| Thrown (c : Cells).

Definition andThen (o : outcome) (f : Cells -> outcome) : outcome :=
  match o with
  | Completed c => f c
  | Thrown c => Thrown c
  end.

Notation "o >>= f" := (andThen o f) (at level 50, left associativity).

(** [try { ... } catch (e) { console.error(...) }] *)
Definition catch (o : outcome) : Cells :=
  match o with
  | Completed c => c
  | Thrown c => c
  end.

Section Persistence.
Context `{JSON}.

(** The three parts of the body of the mount effect. *)
Definition loadPlaylist (st : Storage) (c : Cells) : outcome :=
  match youtube_music_playlist st with
  | Some savedPlaylist =>
      if JS.truthy savedPlaylist then
        match JSON_parse savedPlaylist with
        | Some parsed =>
            Completed
              (mkCells parsed (currentTrackIndexCell c) (playModeCell c))
        | None => Thrown c
        end
      else Completed c
  | None => Completed c
  end.

(** [JSON.parse(savedPlaylist).length > index] is evaluated only if the
    index is a number that is not negative and the playlist entry is not
    empty; parsing, reading the length and comparing can each throw. *)
Definition loadIndex (st : Storage) (c : Cells) : outcome :=
  match youtube_music_current_index st with
  | Some savedIndex =>
      match JS.parseInt savedIndex with
      | Some index =>
          if index >=? 0 then
            match youtube_music_playlist st with
            | Some savedPlaylist =>
                if JS.truthy savedPlaylist then
                  match JSON_parse savedPlaylist with
                  | Some parsed =>
                      match JS.get_length parsed with
                      | Some length =>
                          match JS.greater length index with
                          | Some true =>
                              Completed
                                (mkCells (playlistCell c) (Some index)
                                         (playModeCell c))
                          | Some false => Completed c
                          | None => Thrown c
                          end
                      | None => Thrown c
                      end
                  | None => Thrown c
                  end
                else Completed c
            | None => Completed c
            end
          else Completed c
      | None => Completed c
      end
  | None => Completed c
  end.

Definition loadPlayMode (st : Storage) (c : Cells) : outcome :=
  match youtube_music_play_mode st with
  | Some savedPlayMode =>
      if JS.truthy savedPlayMode then
        match PlayMode_of_string savedPlayMode with
        | Some mode =>
            Completed
              (mkCells (playlistCell c) (currentTrackIndexCell c) mode)
        | None => Completed c
        end
      else Completed c
  | None => Completed c
  end.

(** The mount effect: read the three entries into the cells. *)
Definition load (st : Storage) (c : Cells) : Cells :=
  catch (loadPlaylist st c >>= loadIndex st >>= loadPlayMode st).

(** The effect that runs on every change of the three cells. *)
Definition save (s : State) : Storage :=
  mkStorage
    (Some (JSON_stringify (playlist s)))
    (Some match currentTrackIndex s with
          | Some c => JS.toString c
          | None => ""
          end)
    (Some (PlayMode_string (playMode s))).

(** The state of the component after the mount, when the playlist cell
    holds a list of tracks: the other cells are as at the start. *)
Definition mounted (st : Storage) : option State :=
  let c := load st initialCells in
  match valuePlaylist (playlistCell c) with
  | Some l =>
      Some (mkState l (currentTrackIndexCell c) false (playModeCell c)
                    None [])
  | None => None
  end.

End Persistence.

(** ** Events

    The mount effect runs once, on the initial cells; every later change
    of the cells is made by one of the handlers. *)

Inductive event :=
| AddVideo (newVideoTitle newVideoUrl : string) (now : Z)
| RemoveVideo (idToRemove : Z)
| SelectVideo (index : Z)
| PlayNext (u : JS.draw)
| PlayPrevious
| TogglePlayMode
| PlayerPlay
| PlayerPause
| PlayerEnd (u : JS.draw).

Definition handle (e : event) (s : State) : State :=
  match e with
  | AddVideo t u now => addVideo t u now s
  | RemoveVideo i => removeVideo i s
  | SelectVideo i => selectVideo i s
  | PlayNext u => playNext u s
  | PlayPrevious => playPrevious s
  | TogglePlayMode => togglePlayMode s
  | PlayerPlay => onPlayerPlay s
  | PlayerPause => onPlayerPause s
  | PlayerEnd u => onPlayerEnd u s
  end.


(** ** A reference codec

    The text [JSON.stringify] produces for a playlist, and a parser for
    JSON texts.  It serves to run [load] and [save] on concrete stores;
    the general statements below hold for every codec.  Numbers are read
    exactly.  Strings hold code units below 256, so an escape for a
    larger one is refused. *)

Module CanonicalJSON.

Definition dquote : ascii := ascii_of_nat 34.
Definition backslash : ascii := ascii_of_nat 92.

Definition hex_digit (n : nat) : ascii :=
  nth n ["0"; "1"; "2"; "3"; "4"; "5"; "6"; "7"; "8"; "9";
         "a"; "b"; "c"; "d"; "e"; "f"]%char "0"%char.

Definition hex_value (c : ascii) : option nat :=
  let n := nat_of_ascii c in
  if ((48 <=? n) && (n <=? 57))%nat then Some (n - 48)%nat
  else if ((97 <=? n) && (n <=? 102))%nat then Some (n - 87)%nat
  else if ((65 <=? n) && (n <=? 70))%nat then Some (n - 55)%nat
  else None.

(** One character inside a string literal. *)
Definition quoteChar (c : ascii) : string :=
  let n := nat_of_ascii c in
  if Ascii.eqb c dquote then String backslash (String dquote EmptyString)
  else if Ascii.eqb c backslash
       then String backslash (String backslash EmptyString)
  else if (n =? 8)%nat then String backslash "b"
  else if (n =? 9)%nat then String backslash "t"
  else if (n =? 10)%nat then String backslash "n"
  else if (n =? 12)%nat then String backslash "f"
  else if (n =? 13)%nat then String backslash "r"
  else if (n <? 32)%nat then
    String backslash
      (String "u" (String "0" (String "0"
         (String (hex_digit (n / 16)) (String (hex_digit (n mod 16))
            EmptyString)))))
  else String c EmptyString.

Fixpoint quoteChars (s : string) : string :=
  match s with
  | String c s' => quoteChar c ++ quoteChars s'
  | EmptyString => EmptyString
  end.

Definition quote (s : string) : string :=
  String dquote (quoteChars s ++ String dquote EmptyString).

Definition stringifyItem (v : PlaylistItem) : string :=
  "{" ++ quote "id" ++ ":" ++ JS.toString (id v)
  ++ "," ++ quote "youtubeId" ++ ":" ++ quote (youtubeId v)
  ++ "," ++ quote "title" ++ ":" ++ quote (title v)
  ++ "," ++ quote "originalUrl" ++ ":" ++ quote (originalUrl v)
  ++ "}".

Fixpoint stringifyItems (l : list PlaylistItem) : string :=
  match l with
  | [] => EmptyString
  | [v] => stringifyItem v
  | v :: l' => stringifyItem v ++ "," ++ stringifyItems l'
  end.

Definition stringify (l : list PlaylistItem) : string :=
  "[" ++ stringifyItems l ++ "]".

(** *** Parsing *)

(** White space between the tokens of a text: TAB, LF, CR, SP. *)
Definition is_space (c : ascii) : bool :=
  let n := nat_of_ascii c in
  ((n =? 9) || (n =? 10) || (n =? 13) || (n =? 32))%nat.

Fixpoint skip (s : string) : string :=
  match s with
  | String c s' => if is_space c then skip s' else s
  | EmptyString => EmptyString
  end.

(** [expect p s] removes the prefix [p] from [s]. *)
Fixpoint expect (p s : string) : option string :=
  match p, s with
  | EmptyString, _ => Some s
  | String a p', String b s' => if Ascii.eqb a b then expect p' s' else None
  | String _ _, EmptyString => None
  end.

(** The characters of a string literal whose opening quote has been
    read, and what follows its closing quote. *)
Fixpoint unquote (s : string) : option (string * string) :=
  match s with
  | EmptyString => None
  | String c s' =>
      if Ascii.eqb c dquote then Some (EmptyString, s')
      else if Ascii.eqb c backslash then
        match s' with
        | String e s'' =>
            if Ascii.eqb e dquote then
              match unquote s'' with
              | Some (t, rest) => Some (String dquote t, rest)
              | None => None
              end
            else if Ascii.eqb e backslash then
              match unquote s'' with
              | Some (t, rest) => Some (String backslash t, rest)
              | None => None
              end
            else if Ascii.eqb e "/" then
              match unquote s'' with
              | Some (t, rest) => Some (String "/" t, rest)
              | None => None
              end
            else if Ascii.eqb e "b" then
              match unquote s'' with
              | Some (t, rest) => Some (String (ascii_of_nat 8) t, rest)
              | None => None
              end
            else if Ascii.eqb e "t" then
              match unquote s'' with
              | Some (t, rest) => Some (String (ascii_of_nat 9) t, rest)
              | None => None
              end
            else if Ascii.eqb e "n" then
              match unquote s'' with
              | Some (t, rest) => Some (String (ascii_of_nat 10) t, rest)
              | None => None
              end
            else if Ascii.eqb e "f" then
              match unquote s'' with
              | Some (t, rest) => Some (String (ascii_of_nat 12) t, rest)
              | None => None
              end
            else if Ascii.eqb e "r" then
              match unquote s'' with
              | Some (t, rest) => Some (String (ascii_of_nat 13) t, rest)
              | None => None
              end
            else if Ascii.eqb e "u" then
              match s'' with
              | String a (String b (String h (String l r))) =>
                  match hex_value a, hex_value b, hex_value h, hex_value l,
                        unquote r with
                  | Some a, Some b, Some h, Some l, Some (t, rest) =>
                      let n := (4096 * a + 256 * b + 16 * h + l)%nat in
                      if (n <? 256)%nat
                      then Some (String (ascii_of_nat n) t, rest)
                      else None
                  | _, _, _, _, _ => None
                  end
              | _ => None
              end
            else None
        | EmptyString => None
        end
      else if (nat_of_ascii c <? 32)%nat then None
      else
        match unquote s' with
        | Some (t, rest) => Some (String c t, rest)
        | None => None
        end
  end.

(** The digits after a decimal point, if there is one. *)
Definition fraction (s : string) : option (string * string) :=
  match s with
  | String "." r =>
      match JS.span_digits r with
      | (EmptyString, _) => None
      | (frac, r') => Some (frac, r')
      end
  | _ => Some (EmptyString, s)
  end.

(** The exponent, if there is one. *)
Definition exponentPart (s : string) : option (Z * string) :=
  match s with
  | String c r =>
      if Ascii.eqb c "e" || Ascii.eqb c "E" then
        let '(sign, r1) :=
          match r with
          | String "-" r' => (-1, r')
          | String "+" r' => (1, r')
          | _ => (1, r)
          end in
        match JS.span_digits r1 with
        | (EmptyString, _) => None
        | (digits, r2) => Some (sign * JS.digits_value 0 digits, r2)
        end
      else Some (0, s)
  | EmptyString => Some (0, s)
  end.

(** A number without sign and what follows it: [0] or digits that do not
    start with [0], then an optional fraction and an optional exponent. *)
Definition parseUnsigned (s : string) : option (Q * string) :=
  let '(int, r1) :=
    match s with
    | String "0" r => ("0", r)
    | _ => JS.span_digits s
    end in
  match int with
  | EmptyString => None
  | _ =>
      match fraction r1 with
      | Some (frac, r2) =>
          match exponentPart r2 with
          | Some (e, r3) =>
              Some (JS.scale (JS.digits_value 0 (int ++ frac))
                             (e - Z.of_nat (String.length frac)),
                    r3)
          | None => None
          end
      | None => None
      end
  end.

(** A number and what follows it. *)
Definition parseNumber (s : string) : option (JS.number * string) :=
  match s with
  | String "-" r =>
      match parseUnsigned r with
      | Some (q, rest) => Some (JS.Finite (Qopp q), rest)
      | None => None
      end
  | _ =>
      match parseUnsigned s with
      | Some (q, rest) => Some (JS.Finite q, rest)
      | None => None
      end
  end.

(** A property is added at the end; a key that occurs again replaces the
    value it had. *)
Definition setProperty (key : string) (v : JS.value)
           (properties : list (string * JS.value))
  : list (string * JS.value) :=
  if existsb (fun p => String.eqb (fst p) key) properties
  then map (fun p => if String.eqb (fst p) key then (key, v) else p)
           properties
  else properties ++ [(key, v)].

Section Steps.

Variable value : string -> option (JS.value * string).
Variable elements : string -> option (JS.value * string).
Variable members :
  list (string * JS.value) -> string -> option (JS.value * string).

(** A value, after white space. *)
Definition valueStep (s : string) : option (JS.value * string) :=
  match skip s with
  | String c r =>
      if Ascii.eqb c "[" then
        match skip r with
        | String "]" rest => Some (JS.Array [], rest)
        | _ => elements r
        end
      else if Ascii.eqb c "{" then
        match skip r with
        | String "}" rest => Some (JS.Object [], rest)
        | _ => members [] r
        end
      else if Ascii.eqb c dquote then
        match unquote r with
        | Some (t, rest) => Some (JS.Str t, rest)
        | None => None
        end
      else if Ascii.eqb c "n" then
        match expect "ull" r with
        | Some rest => Some (JS.Null, rest)
        | None => None
        end
      else if Ascii.eqb c "t" then
        match expect "rue" r with
        | Some rest => Some (JS.Boolean true, rest)
        | None => None
        end
      else if Ascii.eqb c "f" then
        match expect "alse" r with
        | Some rest => Some (JS.Boolean false, rest)
        | None => None
        end
      else
        match parseNumber (String c r) with
        | Some (n, rest) => Some (JS.Number n, rest)
        | None => None
        end
  | EmptyString => None
  end.

(** The elements of an array that is not empty, up to its closing
    bracket. *)
Definition elementsStep (s : string) : option (JS.value * string) :=
  match value s with
  | Some (v, r) =>
      match skip r with
      | String c rest =>
          if Ascii.eqb c "," then
            match elements rest with
            | Some (JS.Array vs, rest') => Some (JS.Array (v :: vs), rest')
            | _ => None
            end
          else if Ascii.eqb c "]" then Some (JS.Array [v], rest)
          else None
      | EmptyString => None
      end
  | None => None
  end.

(** The members of an object that is not empty, up to its closing
    brace; [acc] holds the properties read so far. *)
Definition membersStep (acc : list (string * JS.value)) (s : string)
  : option (JS.value * string) :=
  match skip s with
  | String c r =>
      if Ascii.eqb c dquote then
        match unquote r with
        | Some (key, r1) =>
            match skip r1 with
            | String c1 r2 =>
                if Ascii.eqb c1 ":" then
                  match value r2 with
                  | Some (v, r3) =>
                      match skip r3 with
                      | String c3 r4 =>
                          if Ascii.eqb c3 ","
                          then members (setProperty key v acc) r4
                          else if Ascii.eqb c3 "}"
                          then Some (JS.Object (setProperty key v acc), r4)
                          else None
                      | EmptyString => None
                      end
                  | None => None
                  end
                else None
            | EmptyString => None
            end
        | None => None
        end
      else None
  | EmptyString => None
  end.

End Steps.

(** [fuel] bounds the number of nested calls. *)
Fixpoint parseValue (fuel : nat) (s : string) : option (JS.value * string) :=
  match fuel with
  | O => None
  | S fuel' =>
      valueStep (parseElements fuel') (parseMembers fuel') s
  end
with parseElements (fuel : nat) (s : string) : option (JS.value * string) :=
  match fuel with
  | O => None
  | S fuel' => elementsStep (parseValue fuel') (parseElements fuel') s
  end
with parseMembers (fuel : nat) (acc : list (string * JS.value)) (s : string)
  : option (JS.value * string) :=
  match fuel with
  | O => None
  | S fuel' => membersStep (parseValue fuel') (parseMembers fuel') acc s
  end.

(** One value, with white space around it and nothing else.  No call
    goes deeper than twice the length of the text. *)
Definition parse (s : string) : option JS.value :=
  match parseValue (2 * String.length s + 2) s with
  | Some (v, rest) =>
      match skip rest with
      | EmptyString => Some v
      | _ => None
      end
  | None => None
  end.

#[export] Instance codec : JSON :=
  {| JSON_stringify := stringify; JSON_parse := parse |}.

End CanonicalJSON.

(** ** Notions the properties are stated with *)

(** The position is [null] or an index into the playlist. *)
Definition positionValid (s : State) : Prop :=
  match currentTrackIndex s with
  | None => True
  | Some i => 0 <= i < JS.len (playlist s)
  end.

(** The ids of the playlist are pairwise distinct. *)
Definition uniqueIds (l : list PlaylistItem) : Prop := NoDup (map id l).

(** The previous index as the specification writes it,
    [(position ?? 0 - 1 + length) mod length]. *)
Definition specPrevIndex (position : option Z) (length : Z) : Z :=
  (match position with Some p => p | None => 0 end - 1 + length) mod length.

(** What each entry of the store holds when it is read on its own, the
    defaults standing in for an entry that is missing, malformed or
    invalid. *)
Section StoredFields.
Context `{JSON}.

Definition storedPlaylist (st : Storage) : JS.value :=
  match youtube_music_playlist st with
  | Some text =>
      if JS.truthy text then
        match JSON_parse text with
        | Some v => v
        | None => playlistValue []
        end
      else playlistValue []
  | None => playlistValue []
  end.

(** The value has a length that is above [i]. *)
Definition lengthAbove (v : JS.value) (i : Z) : bool :=
  match JS.get_length v with
  | Some w =>
      match JS.greater w i with
      | Some b => b
      | None => false
      end
  | None => false
  end.

(** Taking the length of the value and comparing it with [i] throws. *)
Definition lengthThrows (v : JS.value) (i : Z) : bool :=
  match JS.get_length v with
  | Some w =>
      match JS.greater w i with
      | Some _ => false
      | None => true
      end
  | None => true
  end.

(** The number the position entry holds, if it is one that is not
    negative. *)
Definition storedIndex (st : Storage) : option Z :=
  match youtube_music_current_index st with
  | Some text =>
      match JS.parseInt text with
      | Some i => if 0 <=? i then Some i else None
      | None => None
      end
  | None => None
  end.

Definition storedPosition (st : Storage) : option Z :=
  match storedIndex st with
  | Some i => if lengthAbove (storedPlaylist st) i then Some i else None
  | None => None
  end.

Definition storedMode (st : Storage) : PlayMode :=
  match youtube_music_play_mode st with
  | Some text =>
      match PlayMode_of_string text with
      | Some m => m
      | None => none
      end
  | None => none
  end.

(** The playlist entry is there, is not empty, and [JSON.parse] throws on
    it. *)
Definition playlistMalformed (st : Storage) : bool :=
  match youtube_music_playlist st with
  | Some text =>
      JS.truthy text
      && match JSON_parse text with Some _ => false | None => true end
  | None => false
  end.

(** The playlist entry is there, is not empty and parses. *)
Definition playlistParsed (st : Storage) : bool :=
  match youtube_music_playlist st with
  | Some text =>
      JS.truthy text
      && match JSON_parse text with Some _ => true | None => false end
  | None => false
  end.

(** The position entry holds a number that is not negative, and the
    comparison of the length of the parsed playlist with it throws. *)
Definition positionThrows (st : Storage) : bool :=
  match storedIndex st with
  | Some i => playlistParsed st && lengthThrows (storedPlaylist st) i
  | None => false
  end.

(** An event that keeps the ids of the playlist distinct: a track is added
    with an id the playlist does not have yet. *)
Definition keepsIdsUnique (e : event) (s : State) : Prop :=
  match e with
  | AddVideo _ _ now => ~ In now (map id (playlist s))
  | _ => True
  end.


(** The same, with distinct ids in the stored playlist and in every track
    added. *)
Inductive reachableUnique : State -> Prop :=
| reachableUnique_mounted st s :
    mounted st = Some s -> uniqueIds (playlist s) -> reachableUnique s
| reachableUnique_handle e s :
    reachableUnique s -> keepsIdsUnique e s -> reachableUnique (handle e s).

End StoredFields.

(** A text made of decimal digits only. *)
Fixpoint allDigits (s : string) : bool :=
  match s with
  | String c s' => JS.is_digit c && allDigits s'
  | EmptyString => true
  end.

(** The head of a text is no digit. *)
Definition noDigitAhead (rest : string) : Prop :=
  match rest with
  | String c _ => JS.is_digit c = false
  | EmptyString => True
  end.

(** *** Patterns without choice points

    A pattern built from single characters by sequencing matches in at most
    one way; [consume] is what is left of the subject after it. *)

Fixpoint linear (r : regex) : bool :=
  match r with
  | Eps | Chr _ => true
  | Seq r1 r2 => linear r1 && linear r2
  | _ => false
  end.

Fixpoint consume (r : regex) (s : string) : option string :=
  match r with
  | Eps => Some s
  | Chr cs =>
      match s with
      | String c s' => if accepts cs c then Some s' else None
      | EmptyString => None
      end
  | Seq r1 r2 =>
      match consume r1 s with
      | Some s' => consume r2 s'
      | None => None
      end
  | _ => None
  end.

(** What is left after the first pattern of the list that matches. *)
Fixpoint firstForm (l : list regex) (s : string) : option string :=
  match l with
  | [] => None
  | r :: l' =>
      match consume r s with
      | Some rest => Some rest
      | None => firstForm l' s
      end
  end.

(** The longest prefix of characters in a set, and what follows it. *)
Fixpoint takeWhile (cs : charset) (s : string) : string :=
  match s with
  | String c s' => if accepts cs c then String c (takeWhile cs s') else EmptyString
  | EmptyString => EmptyString
  end.

Fixpoint dropWhile (cs : charset) (s : string) : string :=
  match s with
  | String c s' => if accepts cs c then dropWhile cs s' else s
  | EmptyString => EmptyString
  end.

Fixpoint allAccepted (cs : charset) (s : string) : bool :=
  match s with
  | String c s' => accepts cs c && allAccepted cs s'
  | EmptyString => true
  end.

(** The pattern of [extractVideoId] from a link form on, as a function:
    the segment after the first form that matches at the head of [s]. *)
Definition segmentAfterForm (s : string) : option (option string) :=
  match firstForm linkForms s with
  | Some rest => Some (Some (takeWhile (NoneOf ["#"; "&"; "?"]%char) rest))
  | None => None
  end.

(** *** Link forms, declaratively *)

Definition isDelimiter (c : ascii) : bool :=
  existsb (Ascii.eqb c) ["#"; "&"; "?"]%char.

Fixpoint noDelimiter (s : string) : bool :=
  match s with
  | String c s' => negb (isDelimiter c) && noDelimiter s'
  | EmptyString => true
  end.

Fixpoint noLineTerminator (s : string) : bool :=
  match s with
  | String c s' => negb (is_line_terminator c) && noLineTerminator s'
  | EmptyString => true
  end.

(** The strings the six link forms stand for. *)
Definition isLinkForm (f : string) : Prop :=
  (exists c, is_line_terminator c = false
             /\ f = ("youtu" ++ String c "be/")%string)
  \/ In f ["v/"; "e/"; "embed/"; "watch?v=";
           "watch?feature=player_embedded&v="].

(** A link form stands in [url] right after [pre], on the first line. *)
Definition formAt (url pre : string) : Prop :=
  exists form rest,
    url = (pre ++ form ++ rest)%string
    /\ noLineTerminator pre = true
    /\ isLinkForm form.

(** A link form stands in [url] right after [pre] and is followed by the
    segment [seg]: the characters up to the next [#], [&] or [?], or up to
    the end. *)
Definition segmentAt (url pre seg : string) : Prop :=
  exists form rest,
    url = (pre ++ form ++ seg ++ rest)%string
    /\ noLineTerminator pre = true
    /\ isLinkForm form
    /\ noDelimiter seg = true
    /\ match rest with
       | String c _ => isDelimiter c = true
       | EmptyString => True
       end.

(** ** Further parts of the component *)

(** [array[i]] for an integer [i]: [None] is [undefined], outside the
    array. *)
Definition trackAt (l : list PlaylistItem) (i : Z) : option PlaylistItem :=
  if i <? 0 then None else nth_error l (Z.to_nat i).

(** [currentVideo], the track the render shows: [None] when no position is
    selected or the position holds no track. *)
Definition currentVideo (s : State) : option PlaylistItem :=
  match currentTrackIndex s with
  | Some i => trackAt (playlist s) i
  | None => None
  end.

(** [onPlayerStateChange], with [event.data] as [state]: 0 is ended, 1 is
    playing, 2 is paused. *)
Definition onPlayerStateChange (state : Z) (u : JS.draw) (s : State) : State :=
  if state =? 0 then
    match playMode s with
    | repeat_all | shuffle => playNext u s
    | none =>
        let nextIndex :=
          match currentTrackIndex s with Some c => c + 1 | None => 0 end in
        if nextIndex <? JS.len (playlist s) then playNext u s
        else setIsPlaying false s
    end
  else if state =? 1 then setIsPlaying true s
  else if state =? 2 then setIsPlaying false s
  else s.

(** Consecutive calls of [togglePlayMode]. *)
Fixpoint togglePlayModeTimes (n : nat) (s : State) : State :=
  match n with
  | O => s
  | S n' => togglePlayModeTimes n' (togglePlayMode s)
  end.

(** A text of white space only; the empty text is one. *)
Fixpoint allWhiteSpace (s : string) : bool :=
  match s with
  | String c s' => JS.is_white_space c && allWhiteSpace s'
  | EmptyString => true
  end.

(** A text that neither starts nor ends with white space. *)
Definition startsClean (s : string) : Prop :=
  match s with
  | String c _ => JS.is_white_space c = false
  | EmptyString => True
  end.

Fixpoint endsClean (s : string) : Prop :=
  match s with
  | EmptyString => True
  | String c EmptyString => JS.is_white_space c = false
  | String _ s' => endsClean s'
  end.

(** Every index of the shuffle history lies in the playlist. *)
Definition historyValid (s : State) : Prop :=
  Forall (fun i => 0 <= i < JS.len (playlist s)) (playedIndices s).

(** A track as [addVideo] makes it: a video id of 11 characters, and a
    title and a link that are not empty and carry no white space at
    either end. *)
Definition trackAsAdded (v : PlaylistItem) : Prop :=
  String.length (youtubeId v) = 11%nat
  /\ title v <> EmptyString
  /\ startsClean (title v) /\ endsClean (title v)
  /\ originalUrl v <> EmptyString
  /\ startsClean (originalUrl v) /\ endsClean (originalUrl v).

(** * Properties *)

(** ** Facts about the built-ins *)

Lemma random_floor_lt (u : JS.draw) (n : nat) :
  (0 < n)%nat -> (JS.random_floor u n < n)%nat.
Proof.
  intro Hn. unfold JS.random_floor.
  apply Nat.Div0.div_lt_upper_bound. nia.
Qed.

Lemma random_floor_onto (n i : nat) :
  (i < n)%nat -> JS.random_floor (JS.mkDraw i (n - i - 1)) n = i.
Proof.
  intro Hi. unfold JS.random_floor; simpl.
  replace (i + (n - i - 1) + 1)%nat with n by lia.
  apply Nat.div_mul. lia.
Qed.

Lemma len_nonneg {A} (l : list A) : 0 <= JS.len l.
Proof. unfold JS.len. lia. Qed.

Lemma len_zero_iff {A} (l : list A) : JS.len l = 0 <-> l = [].
Proof.
  unfold JS.len. destruct l; simpl; split; intro E; try reflexivity;
    try discriminate; lia.
Qed.

Lemma In_indices {A} (l : list A) (i : Z) :
  In i (JS.indices l) <-> 0 <= i < JS.len l.
Proof.
  unfold JS.indices, JS.len. rewrite in_map_iff. split.
  - intros [k [<- Hk]]. apply in_seq in Hk. lia.
  - intros Hi. exists (Z.to_nat i). split; [lia|]. apply in_seq. lia.
Qed.

(** ** Facts about [selectVideo] *)

Lemma selectVideo_in_range (i : Z) (s : State) :
  0 <= i < JS.len (playlist s) ->
  selectVideo i s =
    mkState (playlist s) (Some i) true (playMode s) (error s)
            (if PlayMode_eqb (playMode s) shuffle then [i]
             else playedIndices s).
Proof.
  intros Hi. unfold selectVideo.
  replace (i >=? 0) with true by (symmetry; apply Z.geb_le; lia).
  replace (i <? JS.len (playlist s)) with true
    by (symmetry; apply Z.ltb_lt; lia).
  simpl. destruct (PlayMode_eqb (playMode s) shuffle); reflexivity.
Qed.

Lemma selectVideo_out_of_range (i : Z) (s : State) :
  ~ 0 <= i < JS.len (playlist s) -> selectVideo i s = s.
Proof.
  intros Hi. unfold selectVideo.
  destruct (i >=? 0) eqn:E1; [|reflexivity].
  destruct (i <? JS.len (playlist s)) eqn:E2; [|reflexivity].
  apply Z.geb_le in E1. apply Z.ltb_lt in E2. lia.
Qed.

(** ** The matcher *)

Section MatcherFacts.
Context {A : Type}.

Lemma star_ext (cs : charset) (k k' : string -> option A) (s : string) :
  (forall s', k s' = k' s') -> star cs s k = star cs s k'.
Proof.
  intros Hk. induction s as [|c s IH]; simpl; [apply Hk|].
  rewrite IH, Hk. reflexivity.
Qed.

(** A continuation that cannot fail gets the longest run. *)
Lemma star_total (cs : charset) (k : string -> option A) (s : string) :
  (forall s', k s' <> None) -> star cs s k = k (dropWhile cs s).
Proof.
  intros Hk. induction s as [|c s IH]; simpl; [reflexivity|].
  destruct (accepts cs c); [|reflexivity].
  rewrite IH. destruct (k (dropWhile cs s)) eqn:E; [reflexivity|].
  exfalso. exact (Hk _ E).
Qed.

(** Repetition fails exactly when the continuation fails after every
    run it can take. *)
Lemma star_none (cs : charset) (k : string -> option A) (s : string) :
  star cs s k = None
  <-> forall pre suf,
        s = (pre ++ suf)%string -> allAccepted cs pre = true -> k suf = None.
Proof.
  induction s as [|c s IH]; simpl.
  - split.
    + intros Hk pre suf E _. destruct pre; [|discriminate].
      simpl in E. subst suf. exact Hk.
    + intros H. apply (H EmptyString EmptyString); reflexivity.
  - destruct (accepts cs c) eqn:Ec.
    + split.
      * intros Hs pre suf E Hpre.
        destruct (star cs s k) eqn:Es; [discriminate|].
        destruct pre as [|c' pre]; simpl in E.
        -- subst suf. exact Hs.
        -- inversion E; subst. simpl in Hpre.
           apply andb_true_iff in Hpre. destruct Hpre as [_ Hpre].
           apply (proj1 IH eq_refl pre suf eq_refl Hpre).
      * intros H.
        assert (Es : star cs s k = None).
        { apply IH. intros pre suf E Hpre.
          apply (H (String c pre) suf); simpl; [congruence|].
          rewrite Ec, Hpre. reflexivity. }
        rewrite Es. apply (H EmptyString (String c s)); reflexivity.
    + split.
      * intros Hs pre suf E Hpre.
        destruct pre as [|c' pre]; simpl in E.
        -- subst suf. exact Hs.
        -- inversion E; subst. simpl in Hpre. rewrite Ec in Hpre. discriminate.
      * intros H. apply (H EmptyString (String c s)); reflexivity.
Qed.

(** Repetition succeeds with the continuation's result after the longest
    run after which the continuation succeeds. *)
Lemma star_some (cs : charset) (k : string -> option A) (s : string) (x : A) :
  star cs s k = Some x
  <-> exists pre suf,
        s = (pre ++ suf)%string
        /\ allAccepted cs pre = true
        /\ k suf = Some x
        /\ forall pre' suf',
             s = (pre' ++ suf')%string ->
             allAccepted cs pre' = true ->
             (String.length pre < String.length pre')%nat ->
             k suf' = None.
Proof.
  revert x. induction s as [|c s IH]; intros x; simpl.
  - split.
    + intros Hk. exists EmptyString, EmptyString. repeat split; auto.
      intros pre' suf' E _ Hlen. destruct pre'; [simpl in Hlen; lia|discriminate].
    + intros (pre & suf & E & _ & Hk & _).
      destruct pre; [|discriminate]. simpl in E. subst suf. exact Hk.
  - destruct (accepts cs c) eqn:Ec.
    + destruct (star cs s k) as [y|] eqn:Es.
      * split.
        -- intros E. injection E as ->.
           destruct (proj1 (IH x) eq_refl) as (pre & suf & E' & Hpre & Hk & Hmax).
           exists (String c pre), suf. simpl. rewrite Ec, Hpre.
           repeat split; auto; [congruence|].
           intros pre' suf' E2 Hpre' Hlen.
           destruct pre' as [|c' pre']; [simpl in Hlen; lia|].
           simpl in E2, Hpre', Hlen. injection E2 as Ec' Es'.
           apply andb_true_iff in Hpre'. destruct Hpre' as [_ Hpre'].
           apply (Hmax pre' suf' Es' Hpre'). lia.
        -- intros (pre & suf & E & Hpre & Hk & Hmax).
           destruct pre as [|c' pre]; simpl in E.
           ++ exfalso. subst suf.
              destruct (proj1 (IH y) eq_refl) as (pre1 & suf1 & E1 & Hpre1 & Hk1 & _).
              assert (Hn : k suf1 = None).
              { apply (Hmax (String c pre1) suf1); simpl;
                  [congruence | rewrite Ec, Hpre1; reflexivity | lia]. }
              congruence.
           ++ injection E as Ec' Es'. subst c'. simpl in Hpre.
              apply andb_true_iff in Hpre. destruct Hpre as [_ Hpre].
              apply IH. exists pre, suf. repeat split; auto.
              intros pre' suf' E2 Hpre' Hlen.
              apply (Hmax (String c pre') suf'); simpl;
                [congruence | rewrite Ec, Hpre'; reflexivity | lia].
      * split.
        -- intros Hk. exists EmptyString, (String c s). repeat split; auto.
           intros pre' suf' E2 Hpre' Hlen.
           destruct pre' as [|c' pre']; [simpl in Hlen; lia|].
           simpl in E2, Hpre'. injection E2 as Ec' Es'.
           apply andb_true_iff in Hpre'. destruct Hpre' as [_ Hpre'].
           apply (proj1 (star_none cs k s) Es pre' suf' Es' Hpre').
        -- intros (pre & suf & E & Hpre & Hk & Hmax).
           destruct pre as [|c' pre]; simpl in E.
           ++ subst suf. exact Hk.
           ++ exfalso. injection E as Ec' Es'. simpl in Hpre.
              apply andb_true_iff in Hpre. destruct Hpre as [_ Hpre].
              pose proof (proj1 (star_none cs k s) Es pre suf Es' Hpre).
              congruence.
    + split.
      * intros Hk. exists EmptyString, (String c s). repeat split; auto.
        intros pre' suf' E2 Hpre' Hlen.
        destruct pre' as [|c' pre']; [simpl in Hlen; lia|].
        simpl in E2, Hpre'. injection E2 as Ec' Es'. subst c'.
        rewrite Ec in Hpre'. discriminate.
      * intros (pre & suf & E & Hpre & Hk & _).
        destruct pre as [|c' pre]; simpl in E.
        -- subst suf. exact Hk.
        -- injection E as Ec' Es'. subst c'. simpl in Hpre.
           rewrite Ec in Hpre. discriminate.
Qed.

(** A pattern without choice points hands over what [consume] leaves. *)
Lemma run_linear (input : string) (r : regex) :
  linear r = true ->
  forall s cap (k : string -> option string -> option A),
    run input r s cap k
    = match consume r s with
      | Some s' => k s' cap
      | None => None
      end.
Proof.
  induction r as [| |cs|cs|r1 IH1 r2 IH2|r1 IH1 r2 IH2|r IH];
    intros Hl s cap k; simpl in *; try discriminate; try reflexivity.
  - destruct s as [|c s]; [reflexivity|]. destruct (accepts cs c); reflexivity.
  - apply andb_true_iff in Hl. destruct Hl as [H1 H2].
    rewrite IH1 by exact H1. destruct (consume r1 s); [|reflexivity].
    apply IH2. exact H2.
Qed.

(** Ordered choice between such patterns, before a continuation that
    cannot fail: the first pattern that matches is taken. *)
Lemma run_alternation (input : string) (l : list regex) :
  l <> [] ->
  forallb linear l = true ->
  forall s cap (k : string -> option string -> option A),
    (forall s' cap', k s' cap' <> None) ->
    run input (alternation l) s cap k
    = match firstForm l s with
      | Some s' => k s' cap
      | None => None
      end.
Proof.
  induction l as [|r l IH]; intros Hne Hl s cap k Hk; [congruence|].
  simpl in Hl. apply andb_true_iff in Hl. destruct Hl as [Hr Hl].
  destruct l as [|r' l'].
  - simpl. rewrite run_linear by exact Hr.
    destruct (consume r s); reflexivity.
  - change (alternation (r :: r' :: l')) with (Alt r (alternation (r' :: l'))).
    cbn [run firstForm]. rewrite run_linear by exact Hr.
    destruct (consume r s) as [rest|] eqn:E.
    + destruct (k rest cap) eqn:Ek; [reflexivity|]. exfalso. exact (Hk _ _ Ek).
    + apply IH; [discriminate | exact Hl | exact Hk].
Qed.

End MatcherFacts.

Lemma dropWhile_length (cs : charset) (s : string) :
  (String.length (dropWhile cs s) <= String.length s)%nat.
Proof.
  induction s as [|c s IH]; simpl; [lia|].
  destruct (accepts cs c); simpl; lia.
Qed.

(** What group 1 holds after a greedy run. *)
Lemma substring_takeWhile (cs : charset) (s : string) :
  substring 0 (String.length s - String.length (dropWhile cs s)) s
  = takeWhile cs s.
Proof.
  induction s as [|c s IH]; [reflexivity|].
  cbn [takeWhile dropWhile]. destruct (accepts cs c).
  - pose proof (dropWhile_length cs s).
    cbn [String.length].
    replace (S (String.length s) - String.length (dropWhile cs s))%nat
      with (S (String.length s - String.length (dropWhile cs s))) by lia.
    cbn [substring]. f_equal. exact IH.
  - rewrite Nat.sub_diag. reflexivity.
Qed.

Lemma takeWhile_dropWhile (cs : charset) (s : string) :
  s = (takeWhile cs s ++ dropWhile cs s)%string.
Proof.
  induction s as [|c s IH]; simpl; [reflexivity|].
  destruct (accepts cs c); simpl; [f_equal; exact IH | reflexivity].
Qed.

(** ** The pattern of [extractVideoId] *)

(** From group 1 on, the pattern cannot fail: the group takes the longest
    run without [#], [&] and [?]. *)
Lemma run_group_and_rest (input s : string) (cap : option string) :
  run input (Seq (Group (Star (NoneOf ["#"; "&"; "?"]%char))) (Star Dot))
      s cap (fun _ cap' => Some cap')
  = Some (Some (takeWhile (NoneOf ["#"; "&"; "?"]%char) s)).
Proof.
  cbn [run].
  rewrite (star_ext _ _
             (fun s' => Some (Some (substring 0 (String.length s - String.length s') s)))).
  - rewrite star_total by discriminate. rewrite substring_takeWhile. reflexivity.
  - intros s'. rewrite star_total by discriminate. reflexivity.
Qed.

Lemma linkForms_linear : forallb linear linkForms = true.
Proof. reflexivity. Qed.

Lemma run_Seq {A} (input : string) (r1 r2 : regex) (s : string)
      (cap : option string) (k : string -> option string -> option A) :
  run input (Seq r1 r2) s cap k
  = run input r1 s cap (fun s' cap' => run input r2 s' cap' k).
Proof. reflexivity. Qed.

Lemma run_Bol {A} (input s : string) (cap : option string)
      (k : string -> option string -> option A) :
  run input Bol s cap k
  = if (String.length s =? String.length input)%nat then k s cap else None.
Proof. reflexivity. Qed.

Lemma run_Star {A} (input : string) (cs : charset) (s : string)
      (cap : option string) (k : string -> option string -> option A) :
  run input (Star cs) s cap k = star cs s (fun s' => k s' cap).
Proof. reflexivity. Qed.

(** One match attempt of the whole pattern. *)
Lemma run_regExp (input s : string) :
  run input regExp s None (fun _ cap => Some cap)
  = if (String.length s =? String.length input)%nat
    then star Dot s segmentAfterForm
    else None.
Proof.
  unfold regExp. rewrite run_Seq, run_Bol.
  destruct (String.length s =? String.length input)%nat; [|reflexivity].
  rewrite run_Seq, run_Star.
  apply star_ext. intros s'. unfold segmentAfterForm.
  rewrite run_Seq.
  rewrite run_alternation;
    [ | discriminate | exact linkForms_linear
      | intros s1 cap1; rewrite run_group_and_rest; discriminate ].
  destruct (firstForm linkForms s'); [|reflexivity].
  apply run_group_and_rest.
Qed.

(** The anchor makes every attempt after the first fail. *)
Lemma exec_from_later (input s : string) :
  (String.length s < String.length input)%nat ->
  exec_from input regExp s = None.
Proof.
  induction s as [|c s IH]; intros Hlen; cbn [exec_from];
    rewrite run_regExp;
    replace (_ =? _)%nat with false by (symmetry; apply Nat.eqb_neq; lia).
  - reflexivity.
  - apply IH. simpl in Hlen. lia.
Qed.

Lemma exec_regExp (url : string) :
  exec regExp url = star Dot url segmentAfterForm.
Proof.
  unfold exec. destruct url as [|c url]; cbn [exec_from];
    rewrite run_regExp, Nat.eqb_refl.
  - destruct (star Dot EmptyString segmentAfterForm); reflexivity.
  - destruct (star Dot (String c url) segmentAfterForm); [reflexivity|].
    apply exec_from_later. simpl. lia.
Qed.

(** *** The link forms *)

Lemma consume_lit (p s rest : string) :
  consume (lit p) s = Some rest <-> s = (p ++ rest)%string.
Proof.
  revert s. induction p as [|a p IH]; intros s; simpl.
  - split; [intros E; injection E as ->; reflexivity | intros ->; reflexivity].
  - destruct s as [|c s]; [split; discriminate|].
    destruct (Ascii.eqb a c) eqn:E.
    + apply Ascii.eqb_eq in E. subst c. rewrite IH.
      split; [intros ->; reflexivity | intros E; injection E as ->; reflexivity].
    + apply Ascii.eqb_neq in E. split; [discriminate|].
      intros E'. injection E' as E1 E2. congruence.
Qed.

Lemma consume_short_link (s rest : string) :
  consume (Seq (lit "youtu") (Seq (Chr Dot) (lit "be/"))) s = Some rest
  <-> exists c, is_line_terminator c = false
                /\ s = ("youtu" ++ String c ("be/" ++ rest))%string.
Proof.
  cbn [consume]. split.
  - destruct (consume (lit "youtu") s) as [s1|] eqn:E1; [|discriminate].
    apply consume_lit in E1. subst s.
    destruct s1 as [|c s1]; [discriminate|].
    destruct (accepts Dot c) eqn:Ec; [|discriminate].
    intros E2. apply consume_lit in E2. subst s1.
    exists c. split; [|reflexivity].
    simpl in Ec. apply negb_true_iff in Ec. exact Ec.
  - intros (c & Hc & ->).
    rewrite (proj2 (consume_lit "youtu" _ (String c ("be/" ++ rest))) eq_refl).
    simpl accepts. rewrite Hc. simpl negb. cbv iota.
    apply consume_lit. reflexivity.
Qed.

Lemma firstForm_sound (s rest : string) :
  firstForm linkForms s = Some rest ->
  exists form, isLinkForm form /\ s = (form ++ rest)%string.
Proof.
  unfold linkForms. cbn [firstForm].
  destruct (consume (Seq _ _) s) as [r0|] eqn:E0.
  { intros E. injection E as ->. apply consume_short_link in E0.
    destruct E0 as (c & Hc & ->).
    exists ("youtu" ++ String c "be/")%string. split; [|reflexivity].
    left. exists c. auto. }
  repeat match goal with
  | |- context [consume (lit ?p) s] =>
      let E := fresh "E" in
      destruct (consume (lit p) s) eqn:E;
      [ intros E'; injection E' as ->; apply consume_lit in E;
        exists p; split; [right; simpl; tauto | exact E]
      | ]
  end.
  discriminate.
Qed.

Lemma firstForm_complete (form rest : string) :
  isLinkForm form -> firstForm linkForms (form ++ rest) = Some rest.
Proof.
  intros [(c & Hc & ->) | Hin].
  - unfold linkForms. cbn [firstForm].
    rewrite (proj2 (consume_short_link _ rest)); [reflexivity|].
    exists c. split; [exact Hc | reflexivity].
  - simpl in Hin.
    destruct Hin as [<-|[<-|[<-|[<-|[<-|[]]]]]]; reflexivity.
Qed.

Lemma noLineTerminator_allAccepted (s : string) :
  noLineTerminator s = allAccepted Dot s.
Proof. induction s as [|c s IH]; simpl; [reflexivity | rewrite IH; reflexivity]. Qed.

Lemma noDelimiter_allAccepted (s : string) :
  noDelimiter s = allAccepted (NoneOf ["#"; "&"; "?"]%char) s.
Proof. induction s as [|c s IH]; simpl; [reflexivity | rewrite IH; reflexivity]. Qed.

Lemma takeWhile_allAccepted (cs : charset) (s : string) :
  allAccepted cs (takeWhile cs s) = true.
Proof.
  induction s as [|c s IH]; simpl; [reflexivity|].
  destruct (accepts cs c) eqn:E; simpl; [rewrite E, IH|]; reflexivity.
Qed.

Lemma dropWhile_head (cs : charset) (s : string) :
  match dropWhile cs s with
  | String c _ => accepts cs c = false
  | EmptyString => True
  end.
Proof.
  induction s as [|c s IH]; simpl; [exact I|].
  destruct (accepts cs c) eqn:E; [exact IH | exact E].
Qed.

(** A run that is followed by the end or by a character outside the set
    is the longest run. *)
Lemma takeWhile_app (cs : charset) (seg rest : string) :
  allAccepted cs seg = true ->
  match rest with
  | String c _ => accepts cs c = false
  | EmptyString => True
  end ->
  takeWhile cs (seg ++ rest) = seg.
Proof.
  intros Hseg Hrest. induction seg as [|c seg IH]; simpl in *.
  - destruct rest as [|c r]; [reflexivity|]. simpl. rewrite Hrest. reflexivity.
  - apply andb_true_iff in Hseg. destruct Hseg as [Hc Hseg].
    rewrite Hc, IH by exact Hseg. reflexivity.
Qed.

Lemma append_assoc (a b c : string) :
  ((a ++ b) ++ c = a ++ (b ++ c))%string.
Proof. induction a as [|x a IH]; simpl; [reflexivity | rewrite IH; reflexivity]. Qed.

(** ** [extractVideoId] *)

Example extractVideoId_watch :
  extractVideoId "https://www.youtube.com/watch?v=dQw4w9WgXcQ&t=42s"
  = Some "dQw4w9WgXcQ".
Proof. reflexivity. Qed.

Example extractVideoId_short :
  extractVideoId "https://youtu.be/dQw4w9WgXcQ?si=abc" = Some "dQw4w9WgXcQ".
Proof. reflexivity. Qed.

Example extractVideoId_embed :
  extractVideoId "https://www.youtube.com/embed/dQw4w9WgXcQ"
  = Some "dQw4w9WgXcQ".
Proof. reflexivity. Qed.

Example extractVideoId_short_segment :
  extractVideoId "https://youtu.be/dQw4w9WgXc" = None.
Proof. reflexivity. Qed.

Example extractVideoId_no_form :
  extractVideoId "https://example.com/" = None.
Proof. reflexivity. Qed.

Lemma segmentAfterForm_complete (form seg rest : string) :
  isLinkForm form ->
  noDelimiter seg = true ->
  match rest with
  | String c _ => isDelimiter c = true
  | EmptyString => True
  end ->
  segmentAfterForm (form ++ seg ++ rest) = Some (Some seg).
Proof.
  intros Hform Hseg Hrest. unfold segmentAfterForm.
  rewrite firstForm_complete by exact Hform.
  rewrite takeWhile_app; [reflexivity | |].
  - rewrite <- noDelimiter_allAccepted. exact Hseg.
  - destruct rest as [|c r]; [exact I|].
    cbn [accepts]. unfold isDelimiter in Hrest. rewrite Hrest. reflexivity.
Qed.

Lemma segmentAfterForm_sound (s seg : string) :
  segmentAfterForm s = Some (Some seg) ->
  exists form rest,
    s = (form ++ seg ++ rest)%string
    /\ isLinkForm form
    /\ noDelimiter seg = true
    /\ match rest with
       | String c _ => isDelimiter c = true
       | EmptyString => True
       end.
Proof.
  unfold segmentAfterForm.
  destruct (firstForm linkForms s) as [rest0|] eqn:E; [|discriminate].
  intros E'. injection E' as <-.
  destruct (firstForm_sound s rest0 E) as (form & Hform & ->).
  exists form, (dropWhile (NoneOf ["#"; "&"; "?"]%char) rest0).
  split; [rewrite <- takeWhile_dropWhile; reflexivity|].
  split; [exact Hform|].
  split; [rewrite noDelimiter_allAccepted; apply takeWhile_allAccepted|].
  pose proof (dropWhile_head (NoneOf ["#"; "&"; "?"]%char) rest0) as Hh.
  destruct (dropWhile _ rest0) as [|c r]; [exact I|].
  cbn [accepts] in Hh. apply negb_false_iff in Hh. exact Hh.
Qed.

Lemma segmentAfterForm_formAt (url pre suf : string) :
  url = (pre ++ suf)%string ->
  allAccepted Dot pre = true ->
  segmentAfterForm suf <> None ->
  formAt url pre.
Proof.
  intros -> Hpre Hsome. unfold segmentAfterForm in Hsome.
  destruct (firstForm linkForms suf) as [rest|] eqn:E; [|congruence].
  destruct (firstForm_sound suf rest E) as (form & Hform & ->).
  exists form, rest. split; [reflexivity|].
  split; [rewrite noLineTerminator_allAccepted; exact Hpre | exact Hform].
Qed.

(** X21.  [extractVideoId] returns [seg] exactly when
    [seg] has 11 characters and is the segment that follows the rightmost
    link form of the first line: the characters after that form up to the
    next [#], [&] or [?] or the end.  In every other case it returns
    [null].  Forms further left are not looked at.  Being a function of
    [url] alone, it has no other inputs and no effects. *)
Theorem extractVideoId_takes_rightmost_form (url seg : string) :
  extractVideoId url = Some seg
  <-> String.length seg = 11%nat
      /\ exists pre,
           segmentAt url pre seg
           /\ forall pre',
                formAt url pre' ->
                (String.length pre' <= String.length pre)%nat.
Proof.
  unfold extractVideoId. rewrite exec_regExp. split.
  - destruct (star Dot url segmentAfterForm) as [[g|]|] eqn:Es;
      try discriminate.
    destruct (String.length g =? 11)%nat eqn:El; [|discriminate].
    intros E. injection E as ->. apply Nat.eqb_eq in El.
    split; [exact El|].
    apply star_some in Es.
    destruct Es as (pre & suf & Eurl & Hpre & Hseg & Hmax).
    exists pre. split.
    + destruct (segmentAfterForm_sound suf seg Hseg)
        as (form & rest & -> & Hform & Hnd & Hrest).
      exists form, rest. split; [exact Eurl|].
      split; [rewrite noLineTerminator_allAccepted; exact Hpre|].
      auto.
    + intros pre' (form' & rest' & Eurl' & Hpre' & Hform').
      destruct (Nat.le_gt_cases (String.length pre') (String.length pre))
        as [Hle|Hgt]; [exact Hle|].
      exfalso.
      assert (Hnone : segmentAfterForm (form' ++ rest') = None).
      { apply (Hmax pre' (form' ++ rest')%string Eurl');
          [rewrite <- noLineTerminator_allAccepted; exact Hpre' | exact Hgt]. }
      unfold segmentAfterForm in Hnone.
      rewrite firstForm_complete in Hnone by exact Hform'. discriminate.
  - intros (Hlen & pre & (form & rest & Eurl & Hpre & Hform & Hnd & Hrest) & Hmax).
    assert (Es : star Dot url segmentAfterForm = Some (Some seg)).
    { apply star_some. exists pre, (form ++ seg ++ rest)%string.
      split; [exact Eurl|].
      split; [rewrite <- noLineTerminator_allAccepted; exact Hpre|].
      split; [apply segmentAfterForm_complete; assumption|].
      intros pre' suf' Eurl' Hpre' Hgt.
      destruct (segmentAfterForm suf') eqn:E; [|reflexivity].
      exfalso.
      assert (Hf : formAt url pre').
      { apply (segmentAfterForm_formAt url pre' suf' Eurl' Hpre'). congruence. }
      apply Hmax in Hf. lia. }
    rewrite Es. apply Nat.eqb_eq in Hlen. rewrite Hlen. reflexivity.
Qed.

(** Claim C10, evaluated on the code.  C10 states that [extractVideoId]
    returns the identifier of every link that has one of the recognised
    forms followed by a segment of 11 characters.  This embed link has the
    form [embed/] followed by such a segment, and [extractVideoId] returns
    [null]: the greedy start of the pattern runs on to the [e/] that ends
    the link, where group 1 is empty. *)
Lemma extractVideoId_ignores_earlier_form :
  let url :=
    "https://www.youtube.com/embed/dQw4w9WgXcQ?origin=https://example.com/home/" in
  segmentAt url "https://www.youtube.com/" "dQw4w9WgXcQ"
  /\ String.length "dQw4w9WgXcQ" = 11%nat
  /\ extractVideoId url = None
  /\ exec regExp url = Some (Some EmptyString).
Proof.
  intros url. split; [|split; [|split]; reflexivity].
  exists "embed/", "?origin=https://example.com/home/".
  split; [reflexivity|]. split; [reflexivity|].
  split; [right; simpl; tauto|]. split; reflexivity.
Qed.

(** ** Linear modes of [playNext] *)

Lemma playNext_empty (u : JS.draw) (s : State) :
  playlist s = [] -> playNext u s = s.
Proof. intros E. unfold playNext. rewrite E. reflexivity. Qed.

(** Off and repeat-all with a selected track that is not the last one. *)
Lemma playNext_linear_step (u : JS.draw) (s : State) (i : Z) :
  playMode s <> shuffle ->
  currentTrackIndex s = Some i ->
  0 <= i -> i + 1 < JS.len (playlist s) ->
  playNext u s =
    mkState (playlist s) (Some (i + 1)) true (playMode s) (error s)
            (playedIndices s).
Proof.
  intros Hmode Hcur Hi0 Hi. unfold playNext.
  replace (JS.len (playlist s) =? 0) with false by (symmetry; apply Z.eqb_neq; lia).
  rewrite Hcur. unfold JS.rem.
  rewrite Z.rem_small by lia.
  replace (i + 1 =? 0) with false by (symmetry; apply Z.eqb_neq; lia).
  rewrite andb_false_r. simpl.
  destruct (playMode s) eqn:Em; try congruence;
    rewrite selectVideo_in_range by lia; rewrite Em; reflexivity.
Qed.

(** Off with the last track selected and more than one track: halt. *)
Lemma playNext_off_last (u : JS.draw) (s : State) (i : Z) :
  playMode s = none ->
  currentTrackIndex s = Some i ->
  1 < JS.len (playlist s) -> i + 1 = JS.len (playlist s) ->
  playNext u s =
    mkState (playlist s) None false none (error s) (playedIndices s).
Proof.
  intros Hmode Hcur HN Hi. unfold playNext.
  replace (JS.len (playlist s) =? 0) with false by (symmetry; apply Z.eqb_neq; lia).
  rewrite Hcur, Hmode. unfold JS.rem. rewrite Hi.
  rewrite Z.rem_same by lia. simpl.
  replace (JS.len (playlist s) >? 1) with true by (symmetry; apply Z.gtb_lt; lia).
  unfold setCurrentTrackIndex, setIsPlaying. simpl. rewrite Hmode. reflexivity.
Qed.

(** Repeat-all with the last track selected: back to the first. *)
Lemma playNext_repeat_all_last (u : JS.draw) (s : State) (i : Z) :
  playMode s = repeat_all ->
  currentTrackIndex s = Some i ->
  i + 1 = JS.len (playlist s) -> 0 <= i ->
  playNext u s =
    mkState (playlist s) (Some 0) true repeat_all (error s) (playedIndices s).
Proof.
  intros Hmode Hcur Hi Hi0. unfold playNext.
  replace (JS.len (playlist s) =? 0) with false by (symmetry; apply Z.eqb_neq; lia).
  rewrite Hcur, Hmode. unfold JS.rem. rewrite Hi.
  rewrite Z.rem_same by lia. simpl.
  rewrite selectVideo_in_range by lia. rewrite Hmode. reflexivity.
Qed.

Lemma off_run (us : list JS.draw) :
  forall (s : State) (i : nat),
    playMode s = none ->
    (1 < List.length (playlist s))%nat ->
    currentTrackIndex s = Some (Z.of_nat i) ->
    (i + List.length us = List.length (playlist s))%nat ->
    us <> [] ->
    visited us s =
      map (fun k => Some (Z.of_nat k)) (seq (S i) (List.length us - 1))
      ++ [None]
    /\ currentTrackIndex (playNextMany us s) = None
    /\ isPlaying (playNextMany us s) = false.
Proof.
  induction us as [|u us IH]; intros s i Hmode HN Hcur Hlen Hne; [congruence|].
  simpl in Hlen. simpl visited. simpl playNextMany.
  destruct us as [|u' us'].
  - rewrite (playNext_off_last u s (Z.of_nat i)); unfold JS.len; simpl in *;
      auto; lia.
  - assert (Hstep := playNext_linear_step u s (Z.of_nat i)).
    rewrite Hstep; unfold JS.len; try lia; try congruence; [|simpl in *; lia].
    set (s' := mkState _ _ _ _ _ _).
    destruct (IH s' (S i)) as (Hv & Hc & Hp); subst s'; simpl in *;
      try assumption; try lia; try congruence.
    { f_equal. lia. }
    rewrite Hv. split; [|auto].
    replace (Z.of_nat i + 1) with (Z.of_nat (S i)) by lia.
    rewrite Nat.sub_0_r. reflexivity.
Qed.

(** Claim C4.  In mode [none] with N > 1 tracks, N calls of [playNext]
    from position 0 select 1, 2, ..., N-1 in this order, and the N-th call
    clears the position and sets [isPlaying] to false; and no call made
    with a track selected ends at position 0. *)
Theorem off_mode_plays_through_once (s : State) :
  playMode s = none ->
  (1 < List.length (playlist s))%nat ->
  (forall us,
      currentTrackIndex s = Some 0 ->
      List.length us = List.length (playlist s) ->
      visited us s =
        map (fun k => Some (Z.of_nat k)) (seq 1 (List.length (playlist s) - 1))
        ++ [None]
      /\ currentTrackIndex (playNextMany us s) = None
      /\ isPlaying (playNextMany us s) = false)
  /\ (forall u i,
         currentTrackIndex s = Some i ->
         currentTrackIndex (playNext u s) <> Some 0).
Proof.
  intros Hmode HN. split.
  - intros us Hcur Hlen.
    destruct (off_run us s 0) as (Hv & Hc & Hp); auto; try lia.
    { intro E. subst us. simpl in Hlen. lia. }
    rewrite <- Hlen. auto.
  - intros u i Hcur. unfold playNext.
    replace (JS.len (playlist s) =? 0) with false
      by (symmetry; apply Z.eqb_neq; unfold JS.len; lia).
    rewrite Hmode, Hcur. simpl.
    replace (JS.len (playlist s) >? 1) with true
      by (symmetry; apply Z.gtb_lt; unfold JS.len; lia).
    destruct (JS.rem (i + 1) (JS.len (playlist s)) =? 0) eqn:E; simpl.
    + discriminate.
    + apply Z.eqb_neq in E.
      destruct (Z_lt_dec (JS.rem (i + 1) (JS.len (playlist s))) 0) as [Hlt|Hge].
      * rewrite selectVideo_out_of_range by lia. rewrite Hcur.
        intro E0. inversion E0; subst. unfold JS.rem in *.
        rewrite Z.rem_small in Hlt; unfold JS.len; lia.
      * destruct (Z_lt_dec (JS.rem (i + 1) (JS.len (playlist s)))
                           (JS.len (playlist s))) as [Hlt'|Hge'].
        -- rewrite selectVideo_in_range by lia. simpl. congruence.
        -- rewrite selectVideo_out_of_range by lia. rewrite Hcur.
           intro E0. inversion E0; subst. unfold JS.rem in *.
           rewrite Z.rem_small in Hge'; unfold JS.len in *; lia.
Qed.

Lemma off_mode_plays_through_once_witness :
  let a := mkItem 1 "aaaaaaaaaaa" "A" "a" in
  let b := mkItem 2 "bbbbbbbbbbb" "B" "b" in
  let c := mkItem 3 "ccccccccccc" "C" "c" in
  let s := mkState [a; b; c] (Some 0) true none None [] in
  let u := JS.mkDraw 0 0 in
  visited [u; u; u] s = [Some 1; Some 2; None]
  /\ isPlaying (playNextMany [u; u; u] s) = false.
Proof.
  intros a b c s u.
  destruct (off_mode_plays_through_once s) as [H _];
    [reflexivity | simpl; lia |].
  destruct (H [u; u; u]) as (Hv & _ & Hp); [reflexivity | reflexivity |].
  split; [exact Hv | exact Hp].
Defined.

(** ** Repeat-all *)

Lemma repeat_all_run (us : list JS.draw) :
  forall (s : State) (i : Z),
    playMode s = repeat_all ->
    currentTrackIndex s = Some i ->
    0 <= i < JS.len (playlist s) ->
    currentTrackIndex (playNextMany us s)
    = Some ((i + Z.of_nat (List.length us)) mod JS.len (playlist s)).
Proof.
  induction us as [|u us IH]; intros s i Hmode Hcur Hi.
  - simpl. rewrite Z.add_0_r, Z.mod_small by lia. exact Hcur.
  - simpl playNextMany.
    destruct (Z.eq_dec (i + 1) (JS.len (playlist s))) as [Hlast|Hmid].
    + rewrite (playNext_repeat_all_last u s i) by (auto; lia).
      rewrite (IH _ 0) by (cbn [playMode currentTrackIndex playlist]; auto; lia).
      cbn [playlist List.length]. f_equal.
      replace (i + Z.of_nat (S (List.length us)))
        with (0 + Z.of_nat (List.length us) + 1 * JS.len (playlist s)) by lia.
      rewrite Z.mod_add by lia. reflexivity.
    + rewrite (playNext_linear_step u s i) by (auto; try lia; congruence).
      rewrite (IH _ (i + 1))
        by (cbn [playMode currentTrackIndex playlist]; auto; lia).
      cbn [playlist List.length]. f_equal. f_equal. lia.
Qed.

(** Claim C6.  In mode [repeat_all] with N >= 1 tracks, N calls of
    [playNext] from position 0 end at position 0; and a call of [playNext]
    never clears the position: it can only be empty afterwards when it was
    empty before and the playlist is empty, where [playNext] does
    nothing. *)
Theorem repeat_all_loops_and_never_clears (s : State) :
  playMode s = repeat_all ->
  (forall us,
      playlist s <> [] ->
      currentTrackIndex s = Some 0 ->
      List.length us = List.length (playlist s) ->
      currentTrackIndex (playNextMany us s) = Some 0)
  /\ (forall u,
         currentTrackIndex (playNext u s) = None ->
         currentTrackIndex s = None /\ playlist s = []).
Proof.
  intros Hmode. split.
  - intros us Hne Hcur Hlen.
    assert (0 < JS.len (playlist s)).
    { unfold JS.len. destruct (playlist s); [congruence|simpl; lia]. }
    rewrite (repeat_all_run us s 0) by (auto; lia).
    rewrite Hlen. f_equal. simpl. apply Z.mod_same. unfold JS.len in *. lia.
  - intros u Hnone. unfold playNext in Hnone.
    destruct (JS.len (playlist s) =? 0) eqn:E0.
    { apply Z.eqb_eq, len_zero_iff in E0. auto. }
    exfalso. apply Z.eqb_neq in E0. pose proof (len_nonneg (playlist s)).
    rewrite Hmode in Hnone. simpl in Hnone.
    set (n := JS.rem _ _) in Hnone.
    destruct (Z_le_dec 0 n) as [H0|H0];
      [destruct (Z_lt_dec n (JS.len (playlist s))) as [H1|H1]|].
    + rewrite selectVideo_in_range in Hnone by lia. discriminate.
    + rewrite selectVideo_out_of_range in Hnone by lia.
      subst n. rewrite Hnone in H1. unfold JS.rem in H1.
      rewrite Z.rem_0_l in H1 by lia. lia.
    + rewrite selectVideo_out_of_range in Hnone by lia.
      subst n. rewrite Hnone in H0. unfold JS.rem in H0.
      rewrite Z.rem_0_l in H0 by lia. lia.
Qed.

Lemma repeat_all_loops_and_never_clears_witness :
  let a := mkItem 1 "aaaaaaaaaaa" "A" "a" in
  let b := mkItem 2 "bbbbbbbbbbb" "B" "b" in
  let s := mkState [a; b] (Some 0) true repeat_all None [] in
  let u := JS.mkDraw 0 0 in
  currentTrackIndex (playNextMany [u; u] s) = Some 0.
Proof.
  intros a b s u.
  destruct (repeat_all_loops_and_never_clears s) as [H _]; [reflexivity|].
  apply H; [discriminate | reflexivity | reflexivity].
Defined.

(** ** [playPrevious] *)

(** Claim C5, amended.  On an empty playlist [playPrevious] changes
    nothing.  On a playlist of N >= 1 tracks it selects
    (position - 1 + N) mod N when a track is selected and 0 when none is,
    and it marks playback active; position and flag do not depend on the
    mode.  The shuffle history does: in shuffle mode it is reset to the
    new index alone, in the other modes it is left as it was. *)
Theorem playPrevious_selects (s : State) :
  positionValid s ->
  (playlist s = [] -> playPrevious s = s)
  /\ (playlist s <> [] ->
      let target :=
        match currentTrackIndex s with
        | Some p => (p - 1 + JS.len (playlist s)) mod JS.len (playlist s)
        | None => 0
        end in
      playPrevious s =
        mkState (playlist s) (Some target) true (playMode s) (error s)
                (match playMode s with
                 | shuffle => [target]
                 | _ => playedIndices s
                 end)).
Proof.
  intros Hvalid. split.
  - intros E. unfold playPrevious. rewrite E. reflexivity.
  - intros Hne target.
    assert (HN : 0 < JS.len (playlist s)).
    { unfold JS.len. destruct (playlist s); [congruence|simpl; lia]. }
    unfold playPrevious.
    replace (JS.len (playlist s) =? 0) with false
      by (symmetry; apply Z.eqb_neq; lia).
    assert (Et : match currentTrackIndex s with
                 | Some c => JS.rem (c - 1 + JS.len (playlist s))
                                    (JS.len (playlist s))
                 | None => 0
                 end = target).
    { subst target. unfold positionValid in Hvalid.
      destruct (currentTrackIndex s); [|reflexivity].
      unfold JS.rem. apply Z.rem_mod_nonneg; lia. }
    rewrite Et.
    assert (Hr : 0 <= target < JS.len (playlist s)).
    { subst target. destruct (currentTrackIndex s); [|lia].
      apply Z.mod_pos_bound. lia. }
    rewrite selectVideo_in_range by exact Hr.
    destruct (playMode s); reflexivity.
Qed.

Lemma playPrevious_selects_witness :
  let a := mkItem 1 "aaaaaaaaaaa" "A" "a" in
  let b := mkItem 2 "bbbbbbbbbbb" "B" "b" in
  let c := mkItem 3 "ccccccccccc" "C" "c" in
  let s := mkState [a; b; c] (Some 0) false shuffle None [0; 1] in
  playPrevious s = mkState [a; b; c] (Some 2) true shuffle None [2].
Proof.
  intros a b c s.
  destruct (playPrevious_selects s) as [_ H];
    [unfold positionValid, s, JS.len; simpl; lia|].
  apply H. discriminate.
Defined.

(** C5 as it is stated fails: with two tracks and none selected
    [playPrevious] selects 0 where the formula of the specification gives
    1, and the history it leaves differs between shuffle and the other
    modes. *)
Lemma playPrevious_not_spec_formula_nor_mode_blind :
  let a := mkItem 1 "aaaaaaaaaaa" "A" "a" in
  let b := mkItem 2 "bbbbbbbbbbb" "B" "b" in
  let s := mkState [a; b] None false none None [0; 1] in
  currentTrackIndex (playPrevious s)
  <> Some (specPrevIndex (currentTrackIndex s) (JS.len (playlist s)))
  /\ playedIndices (playPrevious (setPlayMode shuffle s))
     <> playedIndices (playPrevious s).
Proof.
  intros a b s. split; vm_compute; discriminate.
Qed.

(** ** Shuffle *)

Lemma availableIndices_range (s : State) (i : Z) :
  In i (availableIndices s) -> 0 <= i < JS.len (playlist s).
Proof.
  unfold availableIndices. intros Hi. apply filter_In in Hi.
  apply In_indices. tauto.
Qed.

(** The index [playNext] chooses in shuffle mode lies in the playlist. *)
Lemma shuffle_choice_in_range (u : JS.draw) (s : State) :
  availableIndices s <> [] ->
  0 <= nth (JS.random_floor u (List.length (availableIndices s)))
           (availableIndices s) 0 < JS.len (playlist s).
Proof.
  intros Hne. apply availableIndices_range. apply nth_In.
  apply random_floor_lt. destruct (availableIndices s); [congruence|simpl; lia].
Qed.

(** Claim C2.  With a non-empty playlist in shuffle mode, right after
    any call of [playNext] the shuffle history holds exactly one element,
    the index just selected, whatever it held before and whatever is
    drawn: the element [playNext] appends is overwritten by the reset in
    [selectVideo]. *)
Theorem playNext_shuffle_history_is_selection (u : JS.draw) (s : State) :
  playlist s <> [] ->
  playMode s = shuffle ->
  exists i,
    0 <= i < JS.len (playlist s)
    /\ currentTrackIndex (playNext u s) = Some i
    /\ playedIndices (playNext u s) = [i].
Proof.
  intros Hne Hmode. unfold playNext.
  destruct (JS.len (playlist s) =? 0) eqn:E0.
  { apply Z.eqb_eq, len_zero_iff in E0. contradiction. }
  rewrite Hmode.
  destruct (JS.len (availableIndices s) =? 0) eqn:Ea.
  - set (i := Z.of_nat (JS.random_floor u (List.length (playlist s)))).
    assert (Hi : 0 <= i < JS.len (playlist s)).
    { unfold i, JS.len. split; [lia|]. apply Nat2Z.inj_lt, random_floor_lt.
      destruct (playlist s); [contradiction|simpl; lia]. }
    exists i. rewrite selectVideo_in_range by exact Hi.
    simpl. rewrite Hmode. simpl. auto.
  - set (i := nth _ _ _).
    assert (Hi : 0 <= i < JS.len (playlist s)).
    { apply shuffle_choice_in_range. intro E. rewrite E in Ea. discriminate. }
    exists i. rewrite selectVideo_in_range by exact Hi.
    simpl. rewrite Hmode. simpl. auto.
Qed.

(** Claim C1, evaluated on the code.  C1 states that in shuffle mode any
    N consecutive calls of [playNext] that start from an empty history
    visit each of the N indices once.  On three tracks, with draws that
    always take the first candidate, the three calls select 0, 1 and 0:
    track 0 is repeated and track 2 is not played.  [selectVideo] resets
    the history to the track just chosen, so each call only avoids the
    track before it. *)
Theorem shuffle_repeats_before_all_played :
  let a := mkItem 1 "aaaaaaaaaaa" "A" "a" in
  let b := mkItem 2 "bbbbbbbbbbb" "B" "b" in
  let c := mkItem 3 "ccccccccccc" "C" "c" in
  let s := mkState [a; b; c] None false shuffle None [] in
  let u := JS.mkDraw 0 0 in
  visited [u; u; u] s = [Some 0; Some 1; Some 0]
  /\ ~ NoDup (visited [u; u; u] s)
  /\ ~ In (Some 2) (visited [u; u; u] s).
Proof.
  intros a b c s u.
  assert (E : visited [u; u; u] s = [Some 0; Some 1; Some 0]) by reflexivity.
  rewrite E. split; [reflexivity|]. split.
  - intro H. inversion H as [|x l Hin _]; subst. apply Hin. simpl. auto.
  - simpl. intuition discriminate.
Qed.

Lemma playNext_shuffle_history_is_selection_witness :
  let a := mkItem 1 "aaaaaaaaaaa" "A" "a" in
  let b := mkItem 2 "bbbbbbbbbbb" "B" "b" in
  let c := mkItem 3 "ccccccccccc" "C" "c" in
  let s := mkState [a; b; c] (Some 0) true shuffle None [0; 2] in
  let u := JS.mkDraw 1 1 in
  exists i,
    0 <= i < JS.len (playlist s)
    /\ currentTrackIndex (playNext u s) = Some i
    /\ playedIndices (playNext u s) = [i].
Proof.
  intros a b c s u.
  apply (playNext_shuffle_history_is_selection u s);
    [discriminate | reflexivity].
Defined.

(** ** [findIndex] and [filter] *)

Section FindIndex.
Context {A : Type} (p : A -> bool).

(** Where [findIndex] finds something, the list splits there: nothing
    before satisfies [p], the element found does. *)
Lemma findIndex_from_split (l : list A) :
  forall k,
    0 <= k ->
    JS.findIndex_from p l k <> -1 ->
    exists before x after,
      l = before ++ x :: after
      /\ JS.findIndex_from p l k = k + JS.len before
      /\ p x = true
      /\ forallb (fun y => negb (p y)) before = true.
Proof.
  induction l as [|a l IH]; intros k Hk Hfound; simpl in *; [congruence|].
  destruct (p a) eqn:Ea.
  - exists [], a, l. simpl. repeat split; auto. unfold JS.len; simpl; lia.
  - destruct (IH (k + 1)) as (before & x & after & El & Ei & Ex & Hb);
      [lia | assumption |].
    exists (a :: before), x, after. subst l. simpl. rewrite Ea. simpl.
    repeat split; auto. rewrite Ei. unfold JS.len. simpl List.length. lia.
Qed.

Lemma filter_negb_all (l : list A) :
  forallb (fun y => negb (p y)) l = true ->
  filter (fun y => negb (p y)) l = l.
Proof.
  induction l as [|a l IH]; simpl; [reflexivity|].
  intros H. apply andb_true_iff in H. destruct H as [Ha Hl].
  rewrite Ha. f_equal. auto.
Qed.

End FindIndex.

(** With distinct ids, only the track found carries the id. *)
Lemma unique_id_elsewhere (before after : list PlaylistItem) (x : PlaylistItem) :
  uniqueIds (before ++ x :: after) ->
  forallb (fun y => negb (id y =? id x)) after = true.
Proof.
  unfold uniqueIds. rewrite map_app. simpl. intros Hnd.
  apply NoDup_remove_2 in Hnd.
  apply forallb_forall. intros y Hy.
  apply negb_true_iff, Z.eqb_neq. intro E. apply Hnd.
  apply in_or_app. right. rewrite <- E. apply in_map. exact Hy.
Qed.

(** ** [removeVideo] *)

(** The shape of the playlist around the track [removeVideo] looks up. *)
Lemma removeVideo_lookup (idToRemove : Z) (l : list PlaylistItem) :
  JS.findIndex (fun video => id video =? idToRemove) l <> -1 ->
  exists before x after,
    l = before ++ x :: after
    /\ JS.findIndex (fun video => id video =? idToRemove) l = JS.len before
    /\ id x = idToRemove
    /\ filter (fun video => negb (id video =? idToRemove)) l
       = before ++ filter (fun video => negb (id video =? idToRemove)) after.
Proof.
  intros Hfound. unfold JS.findIndex in *.
  destruct (findIndex_from_split (fun video => id video =? idToRemove) l 0)
    as (before & x & after & El & Ei & Ex & Hb); [lia | assumption |].
  exists before, x, after. repeat split; auto.
  - apply Z.eqb_eq. exact Ex.
  - subst l. rewrite filter_app. simpl. rewrite Ex. simpl.
    rewrite (filter_negb_all _ before Hb). reflexivity.
Qed.

Lemma removeVideo_lookup_unique (idToRemove : Z) (l : list PlaylistItem) :
  uniqueIds l ->
  JS.findIndex (fun video => id video =? idToRemove) l <> -1 ->
  exists before x after,
    l = before ++ x :: after
    /\ JS.findIndex (fun video => id video =? idToRemove) l = JS.len before
    /\ id x = idToRemove
    /\ filter (fun video => negb (id video =? idToRemove)) l = before ++ after.
Proof.
  intros Hu Hfound.
  destruct (removeVideo_lookup idToRemove l Hfound)
    as (before & x & after & El & Ei & Ex & Ef).
  exists before, x, after. repeat split; auto.
  rewrite Ef. f_equal. apply filter_negb_all.
  subst l idToRemove. apply (unique_id_elsewhere before after x Hu).
Qed.





(** ** The position stays inside the playlist *)

Lemma selectVideo_playlist (i : Z) (s : State) :
  playlist (selectVideo i s) = playlist s.
Proof.
  unfold selectVideo.
  repeat match goal with |- context [if ?b then _ else _] => destruct b end;
    reflexivity.
Qed.

Lemma selectVideo_valid (i : Z) (s : State) :
  positionValid s -> positionValid (selectVideo i s).
Proof.
  intros Hv.
  destruct (Z_le_dec 0 i) as [H0|H0];
    [destruct (Z_lt_dec i (JS.len (playlist s))) as [H1|H1]|].
  - rewrite selectVideo_in_range by lia. unfold positionValid. simpl. lia.
  - rewrite selectVideo_out_of_range by lia. exact Hv.
  - rewrite selectVideo_out_of_range by lia. exact Hv.
Qed.

Lemma playNext_playlist (u : JS.draw) (s : State) :
  playlist (playNext u s) = playlist s.
Proof.
  unfold playNext.
  destruct (JS.len (playlist s) =? 0); [reflexivity|].
  destruct (playMode s); cbv zeta.
  - destruct (_ && _); [reflexivity | apply selectVideo_playlist].
  - destruct (_ && _); [reflexivity | apply selectVideo_playlist].
  - destruct (_ =? 0); rewrite selectVideo_playlist; reflexivity.
Qed.

Lemma valid_ignores_other_cells (s s' : State) :
  playlist s' = playlist s ->
  currentTrackIndex s' = currentTrackIndex s ->
  positionValid s -> positionValid s'.
Proof. unfold positionValid. intros -> ->. auto. Qed.

Lemma playNext_valid (u : JS.draw) (s : State) :
  positionValid s -> positionValid (playNext u s).
Proof.
  intros Hv. unfold playNext.
  destruct (JS.len (playlist s) =? 0); [exact Hv|].
  assert (Hsel : forall i l, positionValid (selectVideo i (setPlayedIndices l s))).
  { intros i l. apply selectVideo_valid.
    eapply valid_ignores_other_cells; [| |exact Hv]; reflexivity. }
  destruct (playMode s); cbv zeta.
  - destruct (_ && _); [exact I | apply selectVideo_valid; exact Hv].
  - destruct (_ && _); [exact I | apply selectVideo_valid; exact Hv].
  - destruct (_ =? 0); apply Hsel.
Qed.

Lemma playPrevious_valid (s : State) :
  positionValid s -> positionValid (playPrevious s).
Proof.
  intros Hv. unfold playPrevious.
  destruct (JS.len (playlist s) =? 0); [assumption|].
  apply selectVideo_valid. exact Hv.
Qed.

Lemma togglePlayMode_valid (s : State) :
  positionValid s -> positionValid (togglePlayMode s).
Proof.
  intros Hv. unfold togglePlayMode.
  destruct (playMode s);
    (eapply valid_ignores_other_cells; [| |exact Hv]; reflexivity).
Qed.

Lemma onPlayerEnd_valid (u : JS.draw) (s : State) :
  positionValid s -> positionValid (onPlayerEnd u s).
Proof.
  intros Hv. unfold onPlayerEnd.
  destruct (playMode s); try (apply playNext_valid; exact Hv).
  destruct (_ <? _); [apply playNext_valid; exact Hv|].
  eapply valid_ignores_other_cells; [| |exact Hv]; reflexivity.
Qed.

Lemma addVideo_valid (t url : string) (now : Z) (s : State) :
  positionValid s -> positionValid (addVideo t url now s).
Proof.
  intros Hv. unfold addVideo.
  destruct (_ || _).
  { eapply valid_ignores_other_cells; [| |exact Hv]; reflexivity. }
  destruct (extractVideoId url).
  2:{ eapply valid_ignores_other_cells; [| |exact Hv]; reflexivity. }
  unfold positionValid in *. cbn [setError playlist currentTrackIndex].
  destruct (_ && _); simpl; unfold JS.len in *; rewrite length_app; simpl.
  - lia.
  - destruct (currentTrackIndex s); [lia|exact I].
Qed.

(** Removal keeps the position inside the playlist when ids are
    distinct. *)
Lemma removeVideo_valid (idToRemove : Z) (s : State) :
  uniqueIds (playlist s) ->
  positionValid s -> positionValid (removeVideo idToRemove s).
Proof.
  intros Hu Hv. unfold removeVideo.
  destruct (_ =? -1) eqn:Efound; [exact Hv|]. apply Z.eqb_neq in Efound.
  destruct (removeVideo_lookup_unique idToRemove (playlist s) Hu Efound)
    as (before & x & after & El & Ei & Ex & Ef).
  rewrite Ei, Ef. clear Ei Ef Efound.
  unfold positionValid in *. rewrite El in Hv.
  pose proof (len_nonneg before). pose proof (len_nonneg after).
  assert (Hlen : JS.len (before ++ x :: after) = JS.len before + 1 + JS.len after).
  { unfold JS.len. rewrite length_app. simpl. lia. }
  assert (Hlen' : JS.len (before ++ after) = JS.len before + JS.len after).
  { unfold JS.len. rewrite length_app. lia. }
  rewrite Hlen in Hv.
  destruct (currentTrackIndex s) as [c|] eqn:Ecur; simpl;
    [|rewrite Ecur; exact I].
  destruct (c =? JS.len before) eqn:Ec.
  - destruct (JS.len (before ++ after) =? 0) eqn:E0; simpl; [exact I|].
    apply Z.eqb_neq in E0.
    destruct (JS.len before <? JS.len (before ++ after)) eqn:E1; simpl.
    + apply Z.ltb_lt in E1. lia.
    + lia.
  - apply Z.eqb_neq in Ec.
    destruct (JS.len before <? c) eqn:E1; simpl.
    + apply Z.ltb_lt in E1. lia.
    + apply Z.ltb_ge in E1. rewrite Ecur. lia.
Qed.

(** Every handler keeps the position valid, given distinct ids. *)
Lemma handle_valid (e : event) (s : State) :
  uniqueIds (playlist s) -> positionValid s -> positionValid (handle e s).
Proof.
  intros Hu Hv. destruct e; simpl.
  - apply addVideo_valid; exact Hv.
  - apply removeVideo_valid; assumption.
  - apply selectVideo_valid; exact Hv.
  - apply playNext_valid; exact Hv.
  - apply playPrevious_valid; exact Hv.
  - apply togglePlayMode_valid; exact Hv.
  - eapply valid_ignores_other_cells; [| |exact Hv]; reflexivity.
  - eapply valid_ignores_other_cells; [| |exact Hv]; reflexivity.
  - apply onPlayerEnd_valid; exact Hv.
Qed.

(** *** Distinct ids are kept *)

Lemma uniqueIds_filter (p : PlaylistItem -> bool) (l : list PlaylistItem) :
  uniqueIds l -> uniqueIds (filter p l).
Proof.
  unfold uniqueIds. induction l as [|a l IH]; simpl; intros Hnd; [constructor|].
  inversion Hnd as [|? ? Hin Hnd']; subst.
  destruct (p a); simpl; [|auto].
  constructor; [|auto].
  intro Hin'. apply Hin. apply in_map_iff in Hin'.
  destruct Hin' as (y & Ey & Hy). apply filter_In in Hy.
  apply in_map_iff. exists y. tauto.
Qed.

Lemma uniqueIds_snoc (l : list PlaylistItem) (x : PlaylistItem) :
  uniqueIds l -> ~ In (id x) (map id l) -> uniqueIds (l ++ [x]).
Proof.
  unfold uniqueIds. intros Hnd Hfresh. rewrite map_app. simpl.
  apply NoDup_rev in Hnd. rewrite <- (rev_involutive (map id l ++ [id x])).
  apply NoDup_rev. rewrite rev_app_distr. simpl.
  constructor; [|exact Hnd]. rewrite <- in_rev. exact Hfresh.
Qed.

Lemma togglePlayMode_playlist (s : State) :
  playlist (togglePlayMode s) = playlist s.
Proof. unfold togglePlayMode. destruct (playMode s); reflexivity. Qed.

Lemma playPrevious_playlist (s : State) :
  playlist (playPrevious s) = playlist s.
Proof.
  unfold playPrevious. destruct (_ =? 0); [reflexivity|].
  apply selectVideo_playlist.
Qed.

Lemma onPlayerEnd_playlist (u : JS.draw) (s : State) :
  playlist (onPlayerEnd u s) = playlist s.
Proof.
  unfold onPlayerEnd.
  destruct (playMode s); try apply playNext_playlist.
  destruct (_ <? _); [apply playNext_playlist|reflexivity].
Qed.

Lemma removeVideo_playlist (idToRemove : Z) (s : State) :
  playlist (removeVideo idToRemove s) = playlist s
  \/ playlist (removeVideo idToRemove s)
     = filter (fun video => negb (id video =? idToRemove)) (playlist s).
Proof.
  unfold removeVideo.
  destruct (_ =? -1); [left; reflexivity|]. right.
  repeat match goal with
         | |- context [if ?b then _ else _] => destruct b
         | |- context [match currentTrackIndex s with _ => _ end] =>
             destruct (currentTrackIndex s)
         end; reflexivity.
Qed.

Lemma handle_uniqueIds (e : event) (s : State) :
  keepsIdsUnique e s ->
  uniqueIds (playlist s) -> uniqueIds (playlist (handle e s)).
Proof.
  intros Hk Hu. destruct e; simpl in *.
  - unfold addVideo.
    destruct (_ || _); [exact Hu|].
    destruct (extractVideoId newVideoUrl); [|exact Hu].
    cbn [setError playlist currentTrackIndex].
    destruct (_ && _); simpl; apply uniqueIds_snoc; assumption.
  - destruct (removeVideo_playlist idToRemove s) as [E|E]; rewrite E;
      [exact Hu | apply uniqueIds_filter; exact Hu].
  - rewrite selectVideo_playlist. exact Hu.
  - rewrite playNext_playlist. exact Hu.
  - rewrite playPrevious_playlist. exact Hu.
  - rewrite togglePlayMode_playlist. exact Hu.
  - exact Hu.
  - exact Hu.
  - rewrite onPlayerEnd_playlist. exact Hu.
Qed.

(** ** Decimal numerals *)

Lemma digit_cases (d : Z) :
  0 <= d < 10 ->
  d = 0 \/ d = 1 \/ d = 2 \/ d = 3 \/ d = 4 \/ d = 5 \/ d = 6 \/ d = 7
  \/ d = 8 \/ d = 9.
Proof. lia. Qed.

Ltac each_digit d H :=
  destruct (digit_cases d H) as [->|[->|[->|[->|[->|[->|[->|[->|[->| ->]]]]]]]]].

Lemma digit_value_digit_char (d : Z) :
  0 <= d < 10 -> JS.digit_value (JS.digit_char d) = Some d.
Proof. intros H. each_digit d H; reflexivity. Qed.

(** [parseInt] on a text that starts with a digit reads the digits. *)
Lemma parseInt_digit_first (d : Z) (r : string) :
  0 <= d < 10 ->
  JS.parseInt (String (JS.digit_char d) r)
  = Some (JS.digits_value 0 (String (JS.digit_char d) r)).
Proof.
  intros H. unfold JS.parseInt.
  each_digit d H;
    (set (c := JS.digit_char _); vm_compute in c; subst c;
     cbn [JS.trimStart];
     replace (JS.is_white_space _) with false by reflexivity;
     cbv beta iota;
     replace (JS.is_digit _) with true by reflexivity;
     rewrite Z.mul_1_l; reflexivity).
Qed.

Lemma digits_value_app (s1 s2 : string) :
  forall acc,
    allDigits s1 = true ->
    JS.digits_value acc (s1 ++ s2) = JS.digits_value (JS.digits_value acc s1) s2.
Proof.
  induction s1 as [|c s1 IH]; intros acc Hd; simpl in *; [reflexivity|].
  apply andb_true_iff in Hd. destruct Hd as [Hc Hs].
  unfold JS.is_digit in Hc. destruct (JS.digit_value c); [|discriminate].
  apply IH. exact Hs.
Qed.

Lemma allDigits_app (s1 s2 : string) :
  allDigits (s1 ++ s2) = allDigits s1 && allDigits s2.
Proof.
  induction s1 as [|c s1 IH]; simpl; [reflexivity|].
  rewrite IH. apply andb_assoc.
Qed.

Lemma is_digit_digit_char (d : Z) :
  0 <= d < 10 -> JS.is_digit (JS.digit_char d) = true.
Proof.
  intros H. unfold JS.is_digit. rewrite digit_value_digit_char by exact H.
  reflexivity.
Qed.

Lemma decimal_value (fuel : nat) :
  forall n,
    0 <= n < 10 ^ (Z.of_nat fuel + 1) ->
    allDigits (JS.decimal fuel n) = true
    /\ JS.digits_value 0 (JS.decimal fuel n) = n.
Proof.
  induction fuel as [|fuel IH]; intros n Hn.
  - simpl in *. rewrite is_digit_digit_char, digit_value_digit_char by lia.
    split; [reflexivity | lia].
  - cbn [JS.decimal]. destruct (n <? 10) eqn:E.
    + apply Z.ltb_lt in E. simpl.
      rewrite is_digit_digit_char, digit_value_digit_char by lia.
      split; [reflexivity | lia].
    + apply Z.ltb_ge in E.
      assert (Hq : 0 <= n / 10 < 10 ^ (Z.of_nat fuel + 1)).
      { split; [apply Z.div_pos; lia|].
        apply Z.div_lt_upper_bound; [lia|].
        replace (Z.of_nat (S fuel) + 1) with (Z.succ (Z.of_nat fuel + 1)) in Hn
          by lia.
        rewrite Z.pow_succ_r in Hn by lia. lia. }
      destruct (IH (n / 10) Hq) as [Hd Hv].
      pose proof (Z.mod_pos_bound n 10 ltac:(lia)) as Hm.
      split.
      * rewrite allDigits_app, Hd. simpl.
        rewrite is_digit_digit_char by lia. reflexivity.
      * rewrite digits_value_app by exact Hd. rewrite Hv.
        cbn [JS.digits_value].
        rewrite digit_value_digit_char by lia.
        pose proof (Z.div_mod n 10 ltac:(lia)). lia.
Qed.

Lemma decimal_head (fuel : nat) :
  forall n,
    0 <= n < 10 ^ (Z.of_nat fuel + 1) ->
    exists d r, 0 <= d < 10 /\ JS.decimal fuel n = String (JS.digit_char d) r.
Proof.
  induction fuel as [|fuel IH]; intros n Hn.
  - simpl in *. exists n, EmptyString. split; [lia | reflexivity].
  - cbn [JS.decimal]. destruct (n <? 10) eqn:E.
    + apply Z.ltb_lt in E. exists n, EmptyString. split; [lia | reflexivity].
    + apply Z.ltb_ge in E.
      assert (Hq : 0 <= n / 10 < 10 ^ (Z.of_nat fuel + 1)).
      { split; [apply Z.div_pos; lia|].
        apply Z.div_lt_upper_bound; [lia|].
        replace (Z.of_nat (S fuel) + 1) with (Z.succ (Z.of_nat fuel + 1)) in Hn
          by lia.
        rewrite Z.pow_succ_r in Hn by lia. lia. }
      destruct (IH (n / 10) Hq) as (d & r & Hd & E').
      rewrite E'. simpl. eauto.
Qed.

Lemma toString_fuel (n : Z) :
  0 <= n -> 0 <= n < 10 ^ (Z.of_nat (Z.to_nat (Z.log2 n)) + 1).
Proof.
  intros Hn. split; [exact Hn|].
  pose proof (Z.log2_nonneg n) as Hl.
  rewrite Z2Nat.id by exact Hl.
  destruct (Z.eq_dec n 0) as [->|Hpos]; [simpl; lia|].
  pose proof (Z.log2_spec n ltac:(lia)) as [_ Hup].
  eapply Z.lt_le_trans; [exact Hup|].
  replace (Z.succ (Z.log2 n)) with (Z.log2 n + 1) by lia.
  apply Z.pow_le_mono_l. lia.
Qed.

(** Reading back the numeral of a non-negative integer. *)
Lemma parseInt_toString (n : Z) :
  0 <= n -> JS.parseInt (JS.toString n) = Some n.
Proof.
  intros Hn. unfold JS.toString.
  replace (n <? 0) with false by (symmetry; apply Z.ltb_ge; exact Hn).
  pose proof (toString_fuel n Hn) as Hf.
  destruct (decimal_head _ n Hf) as (d & r & Hd & E).
  destruct (decimal_value _ n Hf) as [_ Hv].
  rewrite E in *. rewrite parseInt_digit_first by exact Hd.
  rewrite Hv. reflexivity.
Qed.

Example parseInt_empty : JS.parseInt EmptyString = None.
Proof. reflexivity. Qed.

Example parseInt_letters : JS.parseInt "abc" = None.
Proof. reflexivity. Qed.

Example parseInt_prefix : JS.parseInt " 12px" = Some 12.
Proof. reflexivity. Qed.

Example toString_index : JS.toString 1204 = "1204".
Proof. reflexivity. Qed.

Lemma PlayMode_of_string_string (m : PlayMode) :
  PlayMode_of_string (PlayMode_string m) = Some m.
Proof. destruct m; reflexivity. Qed.

Lemma PlayMode_string_truthy (m : PlayMode) :
  JS.truthy (PlayMode_string m) = true.
Proof. destruct m; reflexivity. Qed.

(** ** Tracks as values *)

Lemma valueItem_itemValue (v : PlaylistItem) : valueItem (itemValue v) = Some v.
Proof. destruct v. reflexivity. Qed.

Lemma valuePlaylist_playlistValue (l : list PlaylistItem) :
  valuePlaylist (playlistValue l) = Some l.
Proof.
  unfold valuePlaylist, playlistValue.
  induction l as [|v l IH]; [reflexivity|].
  cbn [map valueItems]. rewrite valueItem_itemValue, IH. reflexivity.
Qed.

Lemma valueItems_length (elements : list JS.value) (l : list PlaylistItem) :
  valueItems elements = Some l -> JS.len elements = JS.len l.
Proof.
  unfold JS.len. revert l.
  induction elements as [|e elements IH]; intros l E; cbn [valueItems] in E.
  - injection E as <-. reflexivity.
  - destruct (valueItem e) as [v|]; [|discriminate].
    destruct (valueItems elements) as [l'|]; [|discriminate].
    injection E as <-. cbn [List.length]. rewrite !Nat2Z.inj_succ.
    rewrite (IH l' eq_refl). reflexivity.
Qed.

(** The comparison of an array length with an index is the comparison of
    integers, and does not throw. *)
Lemma greater_integer (n i : Z) :
  JS.greater (JS.Number (JS.Finite (inject_Z n))) i = Some (i <? n).
Proof.
  unfold JS.greater, JS.ToNumber, Qle_bool, inject_Z. cbn [Qnum Qden].
  rewrite !Z.mul_1_r. rewrite Z.ltb_antisym. reflexivity.
Qed.

Lemma lengthAbove_array (elements : list JS.value) (i : Z) :
  lengthAbove (JS.Array elements) i = (i <? JS.len elements).
Proof.
  unfold lengthAbove. cbn [JS.get_length]. rewrite greater_integer.
  reflexivity.
Qed.

Lemma lengthThrows_array (elements : list JS.value) (i : Z) :
  lengthThrows (JS.Array elements) i = false.
Proof.
  unfold lengthThrows. cbn [JS.get_length]. rewrite greater_integer.
  reflexivity.
Qed.

(** ** The mount effect *)

Section Mount.
Context `{JSON}.

Lemma loadPlaylist_cells (st : Storage) :
  playlistMalformed st = false ->
  loadPlaylist st initialCells
  = Completed (mkCells (storedPlaylist st) None none).
Proof.
  unfold playlistMalformed, loadPlaylist, storedPlaylist.
  intros Hok.
  destruct (youtube_music_playlist st) as [text|]; [|reflexivity].
  destruct (JS.truthy text); [|reflexivity].
  destruct (JSON_parse text) as [parsed|]; [reflexivity | discriminate].
Qed.

Lemma loadPlaylist_throws (st : Storage) (c : Cells) :
  playlistMalformed st = true -> loadPlaylist st c = Thrown c.
Proof.
  unfold playlistMalformed, loadPlaylist. intros Hbad.
  destruct (youtube_music_playlist st) as [text|]; [|discriminate].
  destruct (JS.truthy text); [|discriminate].
  destruct (JSON_parse text); [discriminate | reflexivity].
Qed.

Lemma loadIndex_cells (st : Storage) (v : JS.value) (m : PlayMode) :
  playlistMalformed st = false ->
  loadIndex st (mkCells v None m)
  = if positionThrows st then Thrown (mkCells v None m)
    else Completed (mkCells v (storedPosition st) m).
Proof.
  unfold playlistMalformed, loadIndex, positionThrows, storedPosition,
    storedIndex, playlistParsed, storedPlaylist, lengthAbove, lengthThrows.
  intros Hok.
  destruct (youtube_music_current_index st) as [itext|]; [|reflexivity].
  destruct (JS.parseInt itext) as [i|]; [|reflexivity].
  rewrite Z.geb_leb.
  destruct (0 <=? i) eqn:E0; [|reflexivity].
  apply Z.leb_le in E0.
  assert (Hempty : lengthAbove (playlistValue []) i = false).
  { unfold playlistValue. rewrite lengthAbove_array.
    apply Z.ltb_ge. exact E0. }
  unfold lengthAbove in Hempty.
  destruct (youtube_music_playlist st) as [text|];
    [|cbn [andb]; rewrite Hempty; reflexivity].
  destruct (JS.truthy text); [|cbn [andb]; rewrite Hempty; reflexivity].
  destruct (JSON_parse text) as [parsed|]; [|discriminate].
  cbn [andb].
  destruct (JS.get_length parsed) as [w|]; [|reflexivity].
  destruct (JS.greater w i) as [[|]|]; reflexivity.
Qed.

Lemma loadPlayMode_cells (st : Storage) (v : JS.value) (p : option Z) :
  loadPlayMode st (mkCells v p none)
  = Completed (mkCells v p (storedMode st)).
Proof.
  unfold loadPlayMode, storedMode.
  destruct (youtube_music_play_mode st) as [mtext|]; [|reflexivity].
  destruct mtext as [|a rest]; [reflexivity|]. cbn [JS.truthy].
  destruct (PlayMode_of_string (String a rest)); reflexivity.
Qed.

(** A playlist entry that makes [JSON.parse] throw ends the effect
    before any cell is written. *)
Lemma load_thrown (st : Storage) :
  playlistMalformed st = true -> load st initialCells = initialCells.
Proof.
  intros Hbad. unfold load.
  rewrite loadPlaylist_throws by exact Hbad. reflexivity.
Qed.

(** A throw while the position is validated ends it after the playlist
    cell has been written. *)
Lemma load_position_thrown (st : Storage) :
  playlistMalformed st = false ->
  positionThrows st = true ->
  load st initialCells = mkCells (storedPlaylist st) None none.
Proof.
  intros Hok Hthrows. unfold load.
  rewrite loadPlaylist_cells by exact Hok. cbn [andThen].
  rewrite loadIndex_cells by exact Hok. rewrite Hthrows. reflexivity.
Qed.

(** Otherwise each cell gets what its own entry holds. *)
Lemma load_parsed (st : Storage) :
  playlistMalformed st = false ->
  positionThrows st = false ->
  load st initialCells
  = mkCells (storedPlaylist st) (storedPosition st) (storedMode st).
Proof.
  intros Hok Hquiet. unfold load.
  rewrite loadPlaylist_cells by exact Hok. cbn [andThen].
  rewrite loadIndex_cells by exact Hok. rewrite Hquiet. cbn [andThen].
  rewrite loadPlayMode_cells. reflexivity.
Qed.


(** With an array stored as playlist nothing throws, and the position is
    checked against the number of its elements. *)
Lemma position_of_array (st : Storage) (elements : list JS.value) :
  storedPlaylist st = JS.Array elements ->
  positionThrows st = false
  /\ storedPosition st
     = match storedIndex st with
       | Some i => if i <? JS.len elements then Some i else None
       | None => None
       end.
Proof.
  intros Earray. unfold positionThrows, storedPosition. rewrite Earray.
  destruct (storedIndex st) as [i|]; [|split; reflexivity].
  rewrite lengthThrows_array, lengthAbove_array, andb_false_r.
  split; reflexivity.
Qed.


(** ** Saving and loading again *)

(** Claim C7.  For a playlist, a position that is none or an index into
    it, and a mode: [save] followed by [load] gives back the same three
    values.  The playlist goes through [JSON.stringify] and [JSON.parse],
    of which the statement uses that parsing the text written for this
    playlist returns the value of the playlist and that the text is not
    empty; the
    position goes through [String] and [parseInt] and the bounds check,
    the mode through its three literals.  The reference codec meets both
    conditions for every playlist ([CanonicalJSONFacts.parse_stringify]). *)
Theorem save_then_load_restores (s : State) :
  positionValid s ->
  JSON_parse (JSON_stringify (playlist s)) = Some (playlistValue (playlist s)) ->
  JS.truthy (JSON_stringify (playlist s)) = true ->
  load (save s) initialCells = cells s
  /\ exists s',
       mounted (save s) = Some s'
       /\ playlist s' = playlist s
       /\ currentTrackIndex s' = currentTrackIndex s
       /\ playMode s' = playMode s.
Proof.
  intros Hvalid Hparse Htruthy.
  assert (Hok : playlistMalformed (save s) = false).
  { unfold playlistMalformed, save. simpl. rewrite Hparse, Htruthy. reflexivity. }
  assert (Hsp : storedPlaylist (save s) = playlistValue (playlist s)).
  { unfold storedPlaylist, save. simpl. rewrite Hparse, Htruthy. reflexivity. }
  destruct (position_of_array (save s) _ Hsp) as [Hquiet Hpos].
  assert (Hc : storedPosition (save s) = currentTrackIndex s).
  { rewrite Hpos. unfold storedIndex, save. simpl.
    unfold positionValid in Hvalid.
    destruct (currentTrackIndex s) as [c|]; [|reflexivity].
    rewrite parseInt_toString by lia.
    replace (0 <=? c) with true by (symmetry; apply Z.leb_le; lia).
    replace (JS.len (map itemValue (playlist s))) with (JS.len (playlist s))
      by (unfold JS.len; rewrite length_map; reflexivity).
    replace (c <? JS.len (playlist s)) with true
      by (symmetry; apply Z.ltb_lt; lia).
    reflexivity. }
  assert (Hm : storedMode (save s) = playMode s).
  { unfold storedMode, save. simpl. rewrite PlayMode_of_string_string.
    reflexivity. }
  assert (Hload : load (save s) initialCells = cells s).
  { rewrite (load_parsed (save s) Hok Hquiet), Hsp, Hc, Hm. reflexivity. }
  split; [exact Hload|].
  unfold mounted. rewrite Hload. unfold cells. cbn [playlistCell].
  rewrite valuePlaylist_playlistValue.
  eexists. split; [reflexivity|]. repeat split.
Qed.

(** ** The position invariant *)

Lemma mounted_valid (st : Storage) (s : State) :
  mounted st = Some s -> positionValid s.
Proof.
  unfold mounted. intros E.
  destruct (valuePlaylist (playlistCell (load st initialCells))) as [l|] eqn:El;
    [|discriminate].
  injection E as <-. unfold positionValid. cbn [currentTrackIndex playlist].
  destruct (playlistMalformed st) eqn:Hbad.
  { rewrite load_thrown by exact Hbad. exact I. }
  destruct (positionThrows st) eqn:Hthrows.
  { rewrite load_position_thrown by assumption. exact I. }
  rewrite load_parsed in El |- * by assumption.
  cbn [playlistCell currentTrackIndexCell] in El |- *.
  destruct (storedPlaylist st) as [| | | | |elements|] eqn:Ev;
    try discriminate El.
  cbn [valuePlaylist] in El. apply valueItems_length in El.
  rewrite (proj2 (position_of_array st elements Ev)).
  unfold storedIndex.
  destruct (youtube_music_current_index st) as [itext|]; [|exact I].
  destruct (JS.parseInt itext) as [i|]; [|exact I].
  destruct (0 <=? i) eqn:E0; [|exact I].
  destruct (i <? JS.len elements) eqn:E1; [|exact I].
  apply Z.leb_le in E0. apply Z.ltb_lt in E1. lia.
Qed.

Lemma mounted_other_cells (st : Storage) (s : State) :
  mounted st = Some s ->
  isPlaying s = false /\ error s = None /\ playedIndices s = [].
Proof.
  unfold mounted. intros E.
  destruct (valuePlaylist (playlistCell (load st initialCells)));
    [|discriminate].
  injection E as <-. repeat split.
Qed.

Lemma reachableUnique_invariant (s : State) :
  reachableUnique s -> positionValid s /\ uniqueIds (playlist s).
Proof.
  induction 1 as [st s Hm Hu | e s Hr [Hv Hu] Hk].
  - split; [exact (mounted_valid st s Hm) | exact Hu].
  - split; [apply handle_valid; assumption | apply handle_uniqueIds; assumption].
Qed.


End Mount.

(** ** The reference codec reads back what it writes *)

Module CanonicalJSONFacts.
Import CanonicalJSON.

Lemma unquote_quoteChar (c : ascii) (tail : string) :
  unquote (quoteChar c ++ tail)
  = match unquote tail with
    | Some (t, rest) => Some (String c t, rest)
    | None => None
    end.
Proof.
  destruct c as [[] [] [] [] [] [] [] []]; reflexivity.
Qed.

Lemma unquote_quoteChars (s rest : string) :
  unquote (quoteChars s ++ String dquote rest) = Some (s, rest).
Proof.
  induction s as [|c s IH].
  - reflexivity.
  - cbn [quoteChars]. rewrite append_assoc, unquote_quoteChar, IH. reflexivity.
Qed.

Lemma digits_value_stop (acc : Z) (rest : string) :
  noDigitAhead rest -> JS.digits_value acc rest = acc.
Proof.
  destruct rest as [|c r]; simpl; [reflexivity|].
  unfold JS.is_digit. destruct (JS.digit_value c); [discriminate | reflexivity].
Qed.

Lemma span_digits_app (d rest : string) :
  allDigits d = true ->
  noDigitAhead rest ->
  JS.span_digits (d ++ rest) = (d, rest).
Proof.
  intros Hd Hrest. induction d as [|c d IH]; simpl in *.
  - destruct rest as [|c r]; simpl in *; [reflexivity|].
    rewrite Hrest. reflexivity.
  - apply andb_true_iff in Hd. destruct Hd as [Hc Hd].
    rewrite Hc, (IH Hd). reflexivity.
Qed.

(** The numeral of a positive integer does not start with [0]. *)
Lemma decimal_leading (fuel : nat) :
  forall n,
    0 < n < 10 ^ (Z.of_nat fuel + 1) ->
    exists d r, 1 <= d < 10 /\ JS.decimal fuel n = String (JS.digit_char d) r.
Proof.
  induction fuel as [|fuel IH]; intros n Hn.
  - simpl in *. exists n, EmptyString. split; [lia | reflexivity].
  - cbn [JS.decimal]. destruct (n <? 10) eqn:E.
    + apply Z.ltb_lt in E. exists n, EmptyString. split; [lia | reflexivity].
    + apply Z.ltb_ge in E.
      destruct (IH (n / 10)) as (d & r & Hd & Er).
      { split; [apply Z.div_str_pos; lia|].
        apply Z.div_lt_upper_bound; [lia|].
        replace (Z.of_nat (S fuel) + 1) with (Z.succ (Z.of_nat fuel + 1)) in Hn
          by lia.
        rewrite Z.pow_succ_r in Hn by lia. lia. }
      rewrite Er. cbn [append]. eauto.
Qed.

Lemma scale_integer (m : Z) : JS.scale m (0 - 0) = inject_Z m.
Proof. unfold JS.scale. cbn. rewrite Z.mul_1_r. reflexivity. Qed.

(** Reading the numeral of a positive integer in front of a comma. *)
Lemma parseUnsigned_decimal (n : Z) (rest : string) :
  0 < n ->
  parseUnsigned (JS.decimal (Z.to_nat (Z.log2 n)) n ++ String "," rest)
  = Some (inject_Z n, String "," rest)
  /\ exists d r, 1 <= d < 10
       /\ JS.decimal (Z.to_nat (Z.log2 n)) n = String (JS.digit_char d) r.
Proof.
  intros Hn.
  pose proof (toString_fuel n ltac:(lia)) as Hf.
  destruct (decimal_leading _ n (conj Hn (proj2 Hf))) as (d & r & Hd & E).
  destruct (decimal_value _ n Hf) as [Hall Hv].
  split; [|eauto].
  assert (Hspan : JS.span_digits
                    (JS.decimal (Z.to_nat (Z.log2 n)) n ++ String "," rest)
                  = (JS.decimal (Z.to_nat (Z.log2 n)) n, String "," rest)).
  { apply span_digits_app; [exact Hall | reflexivity]. }
  assert (Hval : JS.digits_value
                   0 (JS.decimal (Z.to_nat (Z.log2 n)) n ++ EmptyString)
                 = n).
  { rewrite digits_value_app by exact Hall. rewrite Hv. reflexivity. }
  rewrite E in *. cbn [append] in *. clear E Hall Hv Hf.
  unfold parseUnsigned.
  assert (Hd' : 0 <= d < 10) by lia.
  each_digit d Hd'; try lia;
    (set (c := JS.digit_char _) in *; vm_compute in c; subst c;
     cbv beta iota; rewrite Hspan;
     cbn [fraction exponentPart Ascii.eqb Bool.eqb orb String.length
          Z.of_nat append];
     rewrite Hval, scale_integer; reflexivity).
Qed.

Lemma parseNumber_toString (n : Z) (rest : string) :
  parseNumber (JS.toString n ++ String "," rest)
  = Some (JS.Finite (inject_Z n), String "," rest).
Proof.
  unfold JS.toString. destruct (n <? 0) eqn:E.
  - apply Z.ltb_lt in E.
    destruct (parseUnsigned_decimal (- n) rest ltac:(lia)) as [Hparse _].
    cbn [append]. unfold parseNumber. rewrite Hparse.
    unfold inject_Z, Qopp. cbn [Qnum Qden].
    rewrite Z.opp_involutive. reflexivity.
  - apply Z.ltb_ge in E.
    destruct (Z.eq_dec n 0) as [->|Hne]; [reflexivity|].
    destruct (parseUnsigned_decimal n rest ltac:(lia))
      as (Hparse & d & r & Hd & Ehead).
    revert Hparse. rewrite Ehead. cbn [append]. intros Hparse.
    unfold parseNumber.
    assert (Hd' : 0 <= d < 10) by lia.
    each_digit d Hd';
      (set (c := JS.digit_char _) in *; vm_compute in c; subst c;
       cbv beta iota; rewrite Hparse; reflexivity).
Qed.

Section Values.

Variable elements : string -> option (JS.value * string).
Variable members :
  list (string * JS.value) -> string -> option (JS.value * string).

(** The head of the numeral of an integer. *)
Lemma toString_head (n : Z) :
  exists c r,
    JS.toString n = String c r
    /\ (c = "-"%char \/ exists d, 0 <= d < 10 /\ c = JS.digit_char d).
Proof.
  unfold JS.toString. destruct (n <? 0) eqn:E.
  - eexists _, _. split; [reflexivity | left; reflexivity].
  - apply Z.ltb_ge in E.
    destruct (decimal_head _ n (toString_fuel n E)) as (d & r & Hd & Er).
    exists (JS.digit_char d), r. split; [exact Er | right; eauto].
Qed.

Lemma valueStep_number (n : Z) (rest : string) :
  valueStep elements members (JS.toString n ++ String "," rest)
  = Some (JS.Number (JS.Finite (inject_Z n)), String "," rest).
Proof.
  pose proof (parseNumber_toString n rest) as Hparse.
  destruct (toString_head n) as (c & r & E & Hc).
  rewrite E in *. cbn [append] in *.
  assert (Hstep : forall c s,
             is_space c = false ->
             (Ascii.eqb c "[" || Ascii.eqb c "{" || Ascii.eqb c dquote
              || Ascii.eqb c "n" || Ascii.eqb c "t" || Ascii.eqb c "f")%bool
             = false ->
             valueStep elements members (String c s)
             = match parseNumber (String c s) with
               | Some (n, rest) => Some (JS.Number n, rest)
               | None => None
               end).
  { intros c0 s Hsp Hno. unfold valueStep. cbn [skip]. rewrite Hsp.
    repeat (apply orb_false_iff in Hno; destruct Hno as [Hno ?]).
    repeat match goal with H : Ascii.eqb _ _ = false |- _ => rewrite H; clear H end.
    reflexivity. }
  rewrite Hstep.
  - rewrite Hparse. reflexivity.
  - destruct Hc as [->|(d & Hd & ->)]; [reflexivity|].
    each_digit d Hd; reflexivity.
  - destruct Hc as [->|(d & Hd & ->)]; [reflexivity|].
    each_digit d Hd; reflexivity.
Qed.

Lemma valueStep_string (t rest : string) :
  valueStep elements members (quote t ++ rest) = Some (JS.Str t, rest).
Proof.
  unfold valueStep, quote. cbn [append skip].
  replace (is_space dquote) with false by reflexivity. cbv iota.
  replace (Ascii.eqb dquote "[") with false by reflexivity.
  replace (Ascii.eqb dquote "{") with false by reflexivity.
  rewrite Ascii.eqb_refl. cbv iota.
  rewrite append_assoc. cbn [append].
  rewrite unquote_quoteChars. reflexivity.
Qed.

End Values.

Lemma stringifyItem_shape (v : PlaylistItem) (rest : string) :
  (stringifyItem v ++ rest)%string
  = String "{" (quote "id" ++ String ":" (JS.toString (id v)
     ++ String "," (quote "youtubeId" ++ String ":" (quote (youtubeId v)
     ++ String "," (quote "title" ++ String ":" (quote (title v)
     ++ String "," (quote "originalUrl" ++ String ":" (quote (originalUrl v)
     ++ String "}" rest))))))))%string.
Proof.
  unfold stringifyItem.
  repeat (rewrite !append_assoc; cbn [append]).
  reflexivity.
Qed.

(** Reading a key of the four. *)
Lemma membersStep_member
      (value : string -> option (JS.value * string))
      (members :
         list (string * JS.value) -> string -> option (JS.value * string))
      (acc : list (string * JS.value)) (key text after : string)
      (v : JS.value) (c : ascii) :
  value (text ++ String c after)%string = Some (v, String c after) ->
  is_space c = false ->
  membersStep value members acc
              (quote key ++ String ":" (text ++ String c after))%string
  = if Ascii.eqb c ","
    then members (setProperty key v acc) after
    else if Ascii.eqb c "}"
    then Some (JS.Object (setProperty key v acc), after)
    else None.
Proof.
  intros Hvalue Hc.
  unfold membersStep, quote. cbn [append skip].
  replace (is_space dquote) with false by reflexivity. cbv iota.
  rewrite Ascii.eqb_refl. cbv iota.
  rewrite append_assoc. cbn [append].
  rewrite unquote_quoteChars.
  cbn [skip]. replace (is_space ":") with false by reflexivity. cbv iota.
  rewrite Ascii.eqb_refl. cbv iota.
  rewrite Hvalue. cbn [skip]. rewrite Hc. reflexivity.
Qed.

Lemma parseValue_item (v : PlaylistItem) (rest : string) (fuel : nat) :
  (6 <= fuel)%nat ->
  parseValue fuel (stringifyItem v ++ rest) = Some (itemValue v, rest).
Proof.
  intros Hfuel.
  do 6 (destruct fuel as [|fuel]; [lia|]). clear Hfuel.
  rewrite stringifyItem_shape.
  cbn [parseValue]. unfold valueStep at 1. cbn [skip].
  replace (is_space "{") with false by reflexivity. cbv iota.
  replace (Ascii.eqb "{" "[") with false by reflexivity.
  rewrite Ascii.eqb_refl. cbv iota.
  unfold quote at 1. cbn [append skip].
  replace (is_space dquote) with false by reflexivity. cbv iota.
  change (String dquote ("id" ++ String dquote ?r))
    with (quote "id" ++ r)%string.
  cbn [parseMembers].
  rewrite (membersStep_member _ _ _ "id" (JS.toString (id v)) _
             (JS.Number (JS.Finite (inject_Z (id v)))) ",");
    [|cbn [parseValue]; apply valueStep_number | reflexivity].
  rewrite Ascii.eqb_refl. cbn [parseMembers].
  rewrite (membersStep_member _ _ _ "youtubeId" (quote (youtubeId v)) _
             (JS.Str (youtubeId v)) ",");
    [|cbn [parseValue]; apply valueStep_string | reflexivity].
  rewrite Ascii.eqb_refl. cbn [parseMembers].
  rewrite (membersStep_member _ _ _ "title" (quote (title v)) _
             (JS.Str (title v)) ",");
    [|cbn [parseValue]; apply valueStep_string | reflexivity].
  rewrite Ascii.eqb_refl. cbn [parseMembers].
  rewrite (membersStep_member _ _ _ "originalUrl" (quote (originalUrl v)) _
             (JS.Str (originalUrl v)) "}");
    [|cbn [parseValue]; apply valueStep_string | reflexivity].
  replace (Ascii.eqb "}" ",") with false by reflexivity.
  rewrite Ascii.eqb_refl. reflexivity.
Qed.

Lemma stringifyItem_head (v : PlaylistItem) :
  exists r, stringifyItem v = String "{" r.
Proof. unfold stringifyItem. cbn [append]. eauto. Qed.

Lemma length_append (a b : string) :
  String.length (a ++ b) = (String.length a + String.length b)%nat.
Proof. induction a as [|c a IH]; simpl; [reflexivity | rewrite IH; reflexivity]. Qed.

Lemma stringifyItems_length (l : list PlaylistItem) :
  (List.length l <= String.length (stringifyItems l))%nat.
Proof.
  induction l as [|v l IH]; [simpl; lia|].
  destruct (stringifyItem_head v) as (r & E).
  destruct l as [|v' l'].
  - cbn [stringifyItems]. rewrite E. simpl. lia.
  - change (stringifyItems (v :: v' :: l'))
      with (stringifyItem v ++ "," ++ stringifyItems (v' :: l'))%string.
    rewrite length_append, E. cbn [List.length] in *.
    rewrite length_append. cbn [String.length]. lia.
Qed.

Lemma parseElements_stringifyItems (l : list PlaylistItem) :
  forall (fuel : nat) (rest : string),
    l <> [] ->
    (List.length l + 6 <= fuel)%nat ->
    parseElements fuel (stringifyItems l ++ String "]" rest)
    = Some (JS.Array (map itemValue l), rest).
Proof.
  induction l as [|v l IH]; intros fuel rest Hne Hfuel; [congruence|].
  destruct fuel as [|fuel]; [simpl in Hfuel; lia|].
  cbn [List.length] in Hfuel.
  destruct l as [|v' l'].
  - cbn [stringifyItems parseElements]. unfold elementsStep.
    rewrite parseValue_item by lia.
    cbn [skip]. replace (is_space "]") with false by reflexivity. cbv iota.
    replace (Ascii.eqb "]" ",") with false by reflexivity.
    rewrite Ascii.eqb_refl. reflexivity.
  - change (stringifyItems (v :: v' :: l'))
      with (stringifyItem v ++ "," ++ stringifyItems (v' :: l'))%string.
    rewrite append_assoc. cbn [parseElements]. unfold elementsStep.
    rewrite parseValue_item by (cbn [List.length] in Hfuel; lia).
    change (("," ++ stringifyItems (v' :: l')) ++ String "]" rest)%string
      with (String "," (stringifyItems (v' :: l') ++ String "]" rest)).
    cbn [skip]. replace (is_space ",") with false by reflexivity. cbv iota.
    rewrite Ascii.eqb_refl. cbv iota.
    rewrite IH; [reflexivity | discriminate | lia].
Qed.

(** The codec meets the two conditions under which saving and loading
    again is shown to restore the cells: it reads back every playlist it
    writes, and never writes the empty text. *)
Lemma parse_stringify (l : list PlaylistItem) :
  parse (stringify l) = Some (playlistValue l)
  /\ JS.truthy (stringify l) = true.
Proof.
  split; [|reflexivity].
  destruct l as [|v l]; [reflexivity|].
  unfold parse, stringify.
  assert (Hhead : exists r, stringifyItems (v :: l) = String "{" r).
  { destruct (stringifyItem_head v) as (r & E).
    destruct l; cbn [stringifyItems]; rewrite E; cbn [append]; eauto. }
  pose proof (stringifyItems_length (v :: l)) as Hlen.
  set (fuel := (2 * _ + 2)%nat).
  assert (Hfuel : (List.length (v :: l) + 7 <= fuel)%nat).
  { subst fuel. change ("[" ++ stringifyItems (v :: l) ++ "]")%string
      with (String "[" (stringifyItems (v :: l) ++ "]")).
    cbn [String.length]. rewrite length_append. cbn [String.length].
    cbn [List.length] in *. lia. }
  clearbody fuel.
  destruct fuel as [|fuel]; [lia|].
  change ("[" ++ stringifyItems (v :: l) ++ "]")%string
    with (String "[" (stringifyItems (v :: l) ++ String "]" EmptyString)).
  cbn [parseValue]. unfold valueStep. cbn [skip].
  replace (is_space "[") with false by reflexivity. cbv iota.
  rewrite Ascii.eqb_refl. cbv iota.
  destruct Hhead as (r & E).
  assert (Hskip : skip (stringifyItems (v :: l) ++ String "]" EmptyString)
                  = String "{" (r ++ String "]" EmptyString)).
  { rewrite E. reflexivity. }
  rewrite Hskip.
  rewrite parseElements_stringifyItems by (try discriminate; lia).
  reflexivity.
Qed.

End CanonicalJSONFacts.

(** ** Runs over the reference codec *)



(** The text [null] parses.  With a position entry that is a number the
    length read throws after the playlist cell has been written, and the
    mode is not loaded; without one the mode is loaded. *)
Example load_null_playlist :
  let load_position p :=
    @load CanonicalJSON.codec
          (mkStorage (Some "null") p (Some "shuffle")) initialCells in
  load_position (Some "0") = mkCells JS.Null None none
  /\ load_position (Some "abc") = mkCells JS.Null None shuffle
  /\ load_position None = mkCells JS.Null None shuffle.
Proof. repeat split; reflexivity. Qed.

(** Other values that are no list of tracks go into the playlist cell as
    well.  A number has no length, so no position passes the check; an
    array of numbers has one. *)
Example load_other_values :
  let load_from playlist position :=
    @load CanonicalJSON.codec
          (mkStorage (Some playlist) (Some position) (Some "shuffle"))
          initialCells in
  let number n := JS.Number (JS.Finite (inject_Z n)) in
  load_from "5" "0" = mkCells (number 5) None shuffle
  /\ load_from "[1,2,3]" "2"
     = mkCells (JS.Array [number 1; number 2; number 3]) (Some 2) shuffle
  /\ load_from "[1,2,3]" "3"
     = mkCells (JS.Array [number 1; number 2; number 3]) None shuffle
  /\ @mounted CanonicalJSON.codec
              (mkStorage (Some "[1,2,3]") (Some "2") (Some "shuffle"))
     = None.
Proof. repeat split; reflexivity. Qed.

(** A position entry that is no number, and one that is out of range,
    leave the position empty and the playlist as stored. *)
Example load_corrupted_position_keeps_playlist :
  let a := mkItem 1 "aaaaaaaaaaa" "A" "a" in
  let b := mkItem 2 "bbbbbbbbbbb" "B" "b" in
  let text := CanonicalJSON.stringify [a; b] in
  let load_position p :=
    @load CanonicalJSON.codec
          (mkStorage (Some text) (Some p) (Some "repeat-all")) initialCells in
  load_position "abc" = mkCells (playlistValue [a; b]) None repeat_all
  /\ load_position "2" = mkCells (playlistValue [a; b]) None repeat_all
  /\ load_position "1" = mkCells (playlistValue [a; b]) (Some 1) repeat_all.
Proof. repeat split; reflexivity. Qed.

Lemma save_then_load_restores_witness :
  let a := mkItem 1700000000000 "dQw4w9WgXcQ" "A song" "https://youtu.be/dQw4w9WgXcQ" in
  let b := mkItem 1700000000001 "abcdefghijk" "B \ side" "https://youtu.be/abcdefghijk" in
  let s := mkState [a; b] (Some 1) true shuffle None [1] in
  @load CanonicalJSON.codec (@save CanonicalJSON.codec s) initialCells = cells s
  /\ exists s',
       @mounted CanonicalJSON.codec (@save CanonicalJSON.codec s) = Some s'
       /\ playlist s' = playlist s
       /\ currentTrackIndex s' = currentTrackIndex s
       /\ playMode s' = playMode s.
Proof.
  intros a b s.
  apply (@save_then_load_restores CanonicalJSON.codec s).
  - unfold positionValid, s, JS.len. simpl. lia.
  - vm_compute. reflexivity.
  - vm_compute. reflexivity.
Defined.




(** * Further properties *)

(** ** [trim] *)

Lemma trimStart_startsClean (s : string) : startsClean (JS.trimStart s).
Proof.
  induction s as [|c s IH]; simpl; [exact I|].
  destruct (JS.is_white_space c) eqn:E; [exact IH | exact E].
Qed.

Lemma trimStart_empty_iff (s : string) :
  JS.trimStart s = EmptyString <-> allWhiteSpace s = true.
Proof.
  induction s as [|c s IH]; simpl; [tauto|].
  destruct (JS.is_white_space c); simpl; [exact IH|].
  split; discriminate.
Qed.

Lemma trimEnd_empty_iff (s : string) :
  JS.trimEnd s = EmptyString <-> allWhiteSpace s = true.
Proof.
  induction s as [|c s IH]; simpl; [tauto|].
  destruct (JS.trimEnd s) as [|a t].
  - rewrite (proj1 IH eq_refl), andb_true_r.
    destruct (JS.is_white_space c); split; congruence.
  - destruct (allWhiteSpace s).
    + destruct IH as [_ IH]. discriminate (IH eq_refl).
    + rewrite andb_false_r. split; discriminate.
Qed.

Lemma trimEnd_endsClean (s : string) : endsClean (JS.trimEnd s).
Proof.
  induction s as [|c s IH]; simpl; [exact I|].
  destruct (JS.trimEnd s) as [|a t].
  - destruct (JS.is_white_space c) eqn:E; simpl; [exact I | exact E].
  - exact IH.
Qed.

Lemma trimEnd_startsClean (s : string) :
  startsClean s -> startsClean (JS.trimEnd s).
Proof.
  destruct s as [|c s]; simpl; [auto|]. intros Hc.
  destruct (JS.trimEnd s); [rewrite Hc|]; exact Hc.
Qed.

Lemma startsClean_allWhiteSpace (s : string) :
  startsClean s -> allWhiteSpace s = true -> s = EmptyString.
Proof.
  destruct s as [|c s]; simpl; [reflexivity|].
  intros ->. discriminate.
Qed.

(** [trim] gives the empty text exactly on texts of white space only. *)
Lemma trim_empty_iff (s : string) :
  JS.trim s = EmptyString <-> allWhiteSpace s = true.
Proof.
  unfold JS.trim. rewrite trimEnd_empty_iff. split.
  - intros H. apply trimStart_empty_iff.
    apply startsClean_allWhiteSpace; [apply trimStart_startsClean | exact H].
  - intros H. apply trimStart_empty_iff in H. rewrite H. reflexivity.
Qed.

Lemma truthy_trim (s : string) :
  JS.truthy (JS.trim s) = negb (allWhiteSpace s).
Proof.
  destruct (allWhiteSpace s) eqn:E.
  - apply trim_empty_iff in E. rewrite E. reflexivity.
  - destruct (JS.trim s) eqn:Et; [|reflexivity].
    apply trim_empty_iff in Et. congruence.
Qed.

Lemma trim_clean (s : string) :
  startsClean (JS.trim s) /\ endsClean (JS.trim s).
Proof.
  unfold JS.trim. split.
  - apply trimEnd_startsClean, trimStart_startsClean.
  - apply trimEnd_endsClean.
Qed.

(** ** [addVideo] *)

(** X1.  When the title or the link is empty or white space only, or
    [extractVideoId] finds no video id in the link, [addVideo] changes
    nothing but the error cell: it holds the missing-field message in the
    first case and the invalid-link message otherwise. *)
Theorem addVideo_rejected_changes_only_error
        (newVideoTitle newVideoUrl : string) (now : Z) (s : State) :
  allWhiteSpace newVideoTitle = true
  \/ allWhiteSpace newVideoUrl = true
  \/ extractVideoId newVideoUrl = None ->
  addVideo newVideoTitle newVideoUrl now s
  = setError
      (Some (if allWhiteSpace newVideoUrl || allWhiteSpace newVideoTitle
             then MissingTitleOrUrl else InvalidYouTubeUrl))
      s.
Proof.
  intros H. unfold addVideo. rewrite !truthy_trim, !negb_involutive.
  destruct (allWhiteSpace newVideoUrl || allWhiteSpace newVideoTitle) eqn:E;
    [reflexivity|].
  apply orb_false_iff in E. destruct E as [Eu Et].
  destruct H as [H|[H|H]]; try congruence.
  rewrite H. reflexivity.
Qed.

Lemma addVideo_rejected_changes_only_error_witness :
  let a := mkItem 1 "aaaaaaaaaaa" "A" "a" in
  let s := mkState [a] (Some 0) true shuffle None [0] in
  addVideo "   " "https://youtu.be/dQw4w9WgXcQ" 7 s
  = mkState [a] (Some 0) true shuffle (Some MissingTitleOrUrl) [0].
Proof.
  intros a s.
  rewrite (addVideo_rejected_changes_only_error
             "   " "https://youtu.be/dQw4w9WgXcQ" 7 s);
    [reflexivity | left; reflexivity].
Defined.

Lemma added_track_shape (newVideoTitle newVideoUrl videoId : string) (now : Z) :
  allWhiteSpace newVideoTitle = false ->
  allWhiteSpace newVideoUrl = false ->
  extractVideoId newVideoUrl = Some videoId ->
  trackAsAdded
    (mkItem now videoId (JS.trim newVideoTitle) (JS.trim newVideoUrl)).
Proof.
  intros Ht Hu Hy. unfold trackAsAdded.
  cbn [youtubeId title originalUrl].
  split.
  - unfold extractVideoId in Hy.
    destruct (Regex.exec regExp newVideoUrl) as [[g|]|]; try discriminate.
    destruct (String.length g =? 11)%nat eqn:El; [|discriminate].
    injection Hy as <-. apply Nat.eqb_eq. exact El.
  - repeat split; try apply trim_clean;
      intro E; apply trim_empty_iff in E; congruence.
Qed.

(** X2.  An accepted [addVideo] appends one track at the end of the
    playlist, with [Date.now()] as id, a video id of 11 characters and the
    trimmed, non-empty title and link; it clears the error and leaves mode
    and history alone.  The first track of an empty playlist with nothing
    selected is selected and playback is switched on; in every other case
    position and playback flag stay. *)
Theorem addVideo_accepted_appends_track
        (newVideoTitle newVideoUrl : string) (now : Z) (s : State)
        (videoId : string) :
  allWhiteSpace newVideoTitle = false ->
  allWhiteSpace newVideoUrl = false ->
  extractVideoId newVideoUrl = Some videoId ->
  let v := mkItem now videoId (JS.trim newVideoTitle) (JS.trim newVideoUrl) in
  let s' := addVideo newVideoTitle newVideoUrl now s in
  playlist s' = playlist s ++ [v]
  /\ trackAsAdded v
  /\ error s' = None
  /\ playMode s' = playMode s
  /\ playedIndices s' = playedIndices s
  /\ match playlist s, currentTrackIndex s with
     | [], None => currentTrackIndex s' = Some 0 /\ isPlaying s' = true
     | _, _ => currentTrackIndex s' = currentTrackIndex s
               /\ isPlaying s' = isPlaying s
     end.
Proof.
  intros Ht Hu Hy v s'. subst s'. unfold addVideo.
  rewrite !truthy_trim, Ht, Hu, Hy. cbn [negb orb].
  cbn [setError playlist currentTrackIndex].
  split; [destruct (_ && _); reflexivity|].
  split; [apply added_track_shape; assumption|].
  destruct (playlist s) as [|x l] eqn:Ep;
    destruct (currentTrackIndex s) as [c|] eqn:Ec;
    cbn; rewrite ?Ep, ?Ec; repeat split; reflexivity.
Qed.

Lemma addVideo_accepted_appends_track_witness :
  let s' := addVideo " My song " " https://youtu.be/dQw4w9WgXcQ" 7 initialState in
  playlist s'
  = [mkItem 7 "dQw4w9WgXcQ" "My song" "https://youtu.be/dQw4w9WgXcQ"]
  /\ currentTrackIndex s' = Some 0
  /\ isPlaying s' = true.
Proof.
  intros s'.
  destruct (addVideo_accepted_appends_track
              " My song " " https://youtu.be/dQw4w9WgXcQ" 7 initialState
              "dQw4w9WgXcQ")
    as (Hp & _ & _ & _ & _ & Hc & Hi);
    [reflexivity | reflexivity | reflexivity |].
  split; [exact Hp|]. split; [exact Hc | exact Hi].
Defined.

(** ** Tracks and their indices *)

Lemma trackAt_app_left (l r : list PlaylistItem) (i : Z) :
  i < JS.len l -> trackAt (l ++ r) i = trackAt l i.
Proof.
  unfold trackAt, JS.len. intros Hi.
  destruct (i <? 0) eqn:E; [reflexivity|]. apply Z.ltb_ge in E.
  apply nth_error_app1. lia.
Qed.

Lemma trackAt_in_range (l : list PlaylistItem) (i : Z) :
  0 <= i < JS.len l -> trackAt l i <> None.
Proof.
  unfold trackAt, JS.len. intros Hi.
  replace (i <? 0) with false by (symmetry; apply Z.ltb_ge; lia).
  apply nth_error_Some. lia.
Qed.

(** Taking one track out shifts the tracks behind it down by one and
    leaves the tracks before it where they are. *)
Lemma trackAt_without (before after : list PlaylistItem) (x : PlaylistItem)
      (idx : Z) :
  idx <> JS.len before ->
  trackAt (before ++ after)
          (if idx >? JS.len before then idx - 1 else idx)
  = trackAt (before ++ x :: after) idx.
Proof.
  unfold trackAt, JS.len. intros Hne.
  destruct (idx >? Z.of_nat (List.length before)) eqn:E.
  - apply Z.gtb_lt in E.
    replace (idx - 1 <? 0) with false by (symmetry; apply Z.ltb_ge; lia).
    replace (idx <? 0) with false by (symmetry; apply Z.ltb_ge; lia).
    rewrite !nth_error_app2 by lia.
    replace (Z.to_nat idx - List.length before)%nat
      with (S (Z.to_nat (idx - 1) - List.length before)) by lia.
    reflexivity.
  - assert (idx < Z.of_nat (List.length before)).
    { destruct (Z.gtb_spec idx (Z.of_nat (List.length before))); [discriminate | lia]. }
    destruct (idx <? 0) eqn:E0; [reflexivity|]. apply Z.ltb_ge in E0.
    rewrite !nth_error_app1 by lia. reflexivity.
Qed.

(** ** [addVideo] and the current track *)

(** X3.  [addVideo] never moves a selection: with a track selected, the
    position, the track shown as current and the playback flag are the
    same after the call, whether the new track is accepted or not. *)
Theorem addVideo_keeps_current_track
        (newVideoTitle newVideoUrl : string) (now : Z) (s : State) (c : Z) :
  currentTrackIndex s = Some c ->
  c < JS.len (playlist s) ->
  currentTrackIndex (addVideo newVideoTitle newVideoUrl now s) = Some c
  /\ currentVideo (addVideo newVideoTitle newVideoUrl now s) = currentVideo s
  /\ isPlaying (addVideo newVideoTitle newVideoUrl now s) = isPlaying s.
Proof.
  intros Hc Hlt. unfold currentVideo, addVideo.
  destruct (_ || _); [cbn; rewrite Hc; auto|].
  destruct (extractVideoId newVideoUrl); [|cbn; rewrite Hc; auto].
  cbn [setError playlist currentTrackIndex isPlaying]. rewrite Hc.
  rewrite andb_false_r. cbn. rewrite Hc.
  split; [reflexivity|]. split; [|reflexivity].
  apply trackAt_app_left. exact Hlt.
Qed.

Lemma addVideo_keeps_current_track_witness :
  let a := mkItem 1 "aaaaaaaaaaa" "A" "a" in
  let b := mkItem 2 "bbbbbbbbbbb" "B" "b" in
  let s := mkState [a; b] (Some 1) false none None [] in
  currentVideo (addVideo "C" "https://youtu.be/dQw4w9WgXcQ" 3 s) = Some b.
Proof.
  intros a b s.
  destruct (addVideo_keeps_current_track
              "C" "https://youtu.be/dQw4w9WgXcQ" 3 s 1) as (_ & H & _);
    [reflexivity | unfold JS.len; simpl; lia |].
  exact H.
Defined.

(** ** [removeVideo] of other tracks *)

Lemma findIndex_from_absent {A} (p : A -> bool) (l : list A) :
  forall k,
    (forall x, In x l -> p x = false) -> JS.findIndex_from p l k = -1.
Proof.
  induction l as [|a l IH]; intros k Hnone; simpl; [reflexivity|].
  rewrite (Hnone a (or_introl eq_refl)).
  apply IH. intros x Hx. apply Hnone. right. exact Hx.
Qed.

(** X4.  [removeVideo] with an id no track of the playlist has changes
    no cell. *)
Theorem removeVideo_unknown_id_changes_nothing (idToRemove : Z) (s : State) :
  ~ In idToRemove (map id (playlist s)) ->
  removeVideo idToRemove s = s.
Proof.
  intros Habsent. unfold removeVideo, JS.findIndex.
  rewrite findIndex_from_absent; [reflexivity|].
  intros x Hx. apply Z.eqb_neq. intro E. apply Habsent.
  rewrite <- E. apply in_map. exact Hx.
Qed.

Lemma removeVideo_unknown_id_changes_nothing_witness :
  let a := mkItem 1 "aaaaaaaaaaa" "A" "a" in
  let s := mkState [a] (Some 0) true shuffle None [0] in
  removeVideo 5 s = s.
Proof.
  intros a s. apply removeVideo_unknown_id_changes_nothing.
  simpl. intros [E|[]]. discriminate.
Defined.

(** The cells after the removal of a track that is there, with distinct
    ids. *)
Lemma removeVideo_found (idToRemove : Z) (s : State) :
  uniqueIds (playlist s) ->
  JS.findIndex (fun video => id video =? idToRemove) (playlist s) <> -1 ->
  exists before x after,
    playlist s = before ++ x :: after
    /\ id x = idToRemove
    /\ JS.findIndex (fun video => id video =? idToRemove) (playlist s)
       = JS.len before
    /\ playlist (removeVideo idToRemove s) = before ++ after
    /\ playedIndices (removeVideo idToRemove s)
       = map (fun idx => if idx >? JS.len before then idx - 1 else idx)
             (filter (fun idx => negb (idx =? JS.len before))
                     (playedIndices s))
    /\ playMode (removeVideo idToRemove s) = playMode s
    /\ forall c,
         currentTrackIndex s = Some c -> c <> JS.len before ->
         currentTrackIndex (removeVideo idToRemove s)
         = Some (if JS.len before <? c then c - 1 else c)
         /\ isPlaying (removeVideo idToRemove s) = isPlaying s.
Proof.
  intros Hu Hfound.
  destruct (removeVideo_lookup_unique idToRemove (playlist s) Hu Hfound)
    as (before & x & after & El & Ei & Ex & Ef).
  exists before, x, after.
  split; [exact El|]. split; [exact Ex|]. split; [exact Ei|].
  unfold removeVideo. rewrite Ei, Ef.
  replace (JS.len before =? -1) with false
    by (symmetry; apply Z.eqb_neq; pose proof (len_nonneg before); lia).
  split; [|split; [reflexivity|split]].
  - destruct (currentTrackIndex s) as [c|]; [|reflexivity].
    repeat match goal with |- context [if ?b then _ else _] => destruct b end;
      reflexivity.
  - destruct (currentTrackIndex s) as [c|]; [|reflexivity].
    repeat match goal with |- context [if ?b then _ else _] => destruct b end;
      reflexivity.
  - intros c Hc Hne. rewrite Hc.
    replace (c =? JS.len before) with false
      by (symmetry; apply Z.eqb_neq; exact Hne).
    destruct (JS.len before <? c); cbn; rewrite ?Hc; split; reflexivity.
Qed.

(** X5.  With distinct ids, removing a track other than the selected
    one keeps the selected track: the position goes down by one when the
    removed track stood before it and stays otherwise, the track shown as
    current is the same, and so is the playback flag. *)
Theorem removeVideo_of_other_track_keeps_current
        (idToRemove : Z) (s : State) (c i : Z) :
  uniqueIds (playlist s) ->
  currentTrackIndex s = Some c ->
  JS.findIndex (fun video => id video =? idToRemove) (playlist s) = i ->
  i <> -1 ->
  i <> c ->
  currentTrackIndex (removeVideo idToRemove s)
  = Some (if i <? c then c - 1 else c)
  /\ currentVideo (removeVideo idToRemove s) = currentVideo s
  /\ isPlaying (removeVideo idToRemove s) = isPlaying s.
Proof.
  intros Hu Hc Hi Hfound Hne. subst i.
  destruct (removeVideo_found idToRemove s Hu Hfound)
    as (before & x & after & El & Ex & Ei & Hp & _ & _ & Hcur).
  rewrite Ei in *.
  destruct (Hcur c Hc ltac:(congruence)) as [Hc' Hplay].
  split; [exact Hc'|]. split; [|exact Hplay].
  unfold currentVideo. rewrite Hc', Hc, Hp, El.
  rewrite <- (trackAt_without before after x c) by congruence.
  rewrite Z.gtb_ltb. reflexivity.
Qed.

Lemma removeVideo_of_other_track_keeps_current_witness :
  let a := mkItem 1 "aaaaaaaaaaa" "A" "a" in
  let b := mkItem 2 "bbbbbbbbbbb" "B" "b" in
  let c := mkItem 3 "ccccccccccc" "C" "c" in
  let s := mkState [a; b; c] (Some 2) true none None [] in
  currentTrackIndex (removeVideo 1 s) = Some 1
  /\ currentVideo (removeVideo 1 s) = Some c.
Proof.
  intros a b c s.
  destruct (removeVideo_of_other_track_keeps_current 1 s 2 0) as (Hc & Hv & _);
    [ repeat constructor; simpl; intuition discriminate
    | reflexivity | reflexivity | discriminate | discriminate | ].
  split; [exact Hc | exact Hv].
Defined.

(** ** [removeVideo] and the shuffle history *)

(** X6.  With distinct ids, [removeVideo] re-indexes the shuffle
    history so that it names the same tracks as before, in the same order,
    without the removed one; a history inside the playlist stays inside
    the shorter playlist. *)
Theorem removeVideo_history_follows_tracks (idToRemove : Z) (s : State) (i : Z) :
  uniqueIds (playlist s) ->
  JS.findIndex (fun video => id video =? idToRemove) (playlist s) = i ->
  i <> -1 ->
  map (trackAt (playlist (removeVideo idToRemove s)))
      (playedIndices (removeVideo idToRemove s))
  = map (trackAt (playlist s))
        (filter (fun idx => negb (idx =? i)) (playedIndices s))
  /\ (historyValid s -> historyValid (removeVideo idToRemove s)).
Proof.
  intros Hu Hi Hfound. subst i.
  destruct (removeVideo_found idToRemove s Hu Hfound)
    as (before & x & after & El & Ex & Ei & Hp & Hh & _ & _).
  rewrite Ei, Hp, Hh, El. split.
  - rewrite map_map. apply map_ext_in. intros idx Hin.
    apply filter_In in Hin. destruct Hin as [_ Hne].
    apply negb_true_iff, Z.eqb_neq in Hne.
    apply trackAt_without. exact Hne.
  - unfold historyValid. rewrite Hp, Hh, El. intros Hv.
    rewrite Forall_forall in *. intros j Hj.
    apply in_map_iff in Hj. destruct Hj as (idx & <- & Hin).
    apply filter_In in Hin. destruct Hin as [Hin Hne].
    apply negb_true_iff, Z.eqb_neq in Hne.
    specialize (Hv idx Hin). unfold JS.len in *.
    rewrite length_app in *. simpl List.length in Hv.
    destruct (idx >? Z.of_nat (List.length before)) eqn:E.
    + apply Z.gtb_lt in E. lia.
    + destruct (Z.gtb_spec idx (Z.of_nat (List.length before)));
        [discriminate | lia].
Qed.

Lemma removeVideo_history_follows_tracks_witness :
  let a := mkItem 1 "aaaaaaaaaaa" "A" "a" in
  let b := mkItem 2 "bbbbbbbbbbb" "B" "b" in
  let c := mkItem 3 "ccccccccccc" "C" "c" in
  let s := mkState [a; b; c] (Some 2) true shuffle None [0; 2; 1] in
  map (trackAt (playlist (removeVideo 1 s))) (playedIndices (removeVideo 1 s))
  = [Some c; Some b].
Proof.
  intros a b c s.
  destruct (removeVideo_history_follows_tracks 1 s 0) as [H _];
    [ repeat constructor; simpl; intuition discriminate
    | reflexivity | discriminate | ].
  exact H.
Defined.

(** ** [togglePlayMode] *)

Lemma togglePlayModeTimes_add (n m : nat) (s : State) :
  togglePlayModeTimes (n + m) s
  = togglePlayModeTimes m (togglePlayModeTimes n s).
Proof.
  revert s. induction n as [|n IH]; intros s; simpl; [reflexivity | apply IH].
Qed.

Lemma togglePlayMode_thrice (s : State) :
  togglePlayModeTimes 3 s = setPlayedIndices [] s.
Proof. destruct s as [pl c p m e h]; destruct m; reflexivity. Qed.

(** X7.  [togglePlayMode] has period three: after any positive multiple
    of three calls every cell is as before, except that the shuffle
    history has been emptied on the way into shuffle.  No number of calls
    changes playlist, position or playback flag. *)
Theorem togglePlayMode_cycles_in_three (s : State) (k : nat) :
  togglePlayModeTimes (3 * S k) s = setPlayedIndices [] s
  /\ forall n,
       playlist (togglePlayModeTimes n s) = playlist s
       /\ currentTrackIndex (togglePlayModeTimes n s) = currentTrackIndex s
       /\ isPlaying (togglePlayModeTimes n s) = isPlaying s.
Proof.
  split.
  - induction k as [|k IH].
    + apply togglePlayMode_thrice.
    + replace (3 * S (S k))%nat with (3 * S k + 3)%nat by lia.
      rewrite togglePlayModeTimes_add, IH, togglePlayMode_thrice. reflexivity.
  - intros n. revert s. induction n as [|n IH]; intros s; [auto|].
    cbn [togglePlayModeTimes].
    destruct (IH (togglePlayMode s)) as (Hp & Hc & Hi).
    rewrite Hp, Hc, Hi. unfold togglePlayMode.
    destruct (playMode s); auto.
Qed.

(** ** [selectVideo] *)

(** X8.  Of two calls of [selectVideo] in a row the second decides, when
    its index lies in the playlist: the cells, shuffle history included,
    are the same as if only the second call had been made. *)
Theorem selectVideo_last_selection_wins (i j : Z) (s : State) :
  0 <= i < JS.len (playlist s) ->
  selectVideo i (selectVideo j s) = selectVideo i s.
Proof.
  intros Hi.
  rewrite (selectVideo_in_range i s Hi).
  rewrite selectVideo_in_range by (rewrite selectVideo_playlist; exact Hi).
  rewrite selectVideo_playlist.
  destruct (Z_le_dec 0 j) as [H0|H0];
    [destruct (Z_lt_dec j (JS.len (playlist s))) as [H1|H1]|].
  - rewrite (selectVideo_in_range j s) by lia. cbn.
    destruct (PlayMode_eqb (playMode s) shuffle); reflexivity.
  - rewrite (selectVideo_out_of_range j s) by lia. reflexivity.
  - rewrite (selectVideo_out_of_range j s) by lia. reflexivity.
Qed.

Lemma selectVideo_last_selection_wins_witness :
  let a := mkItem 1 "aaaaaaaaaaa" "A" "a" in
  let b := mkItem 2 "bbbbbbbbbbb" "B" "b" in
  let s := mkState [a; b] None false shuffle None [] in
  selectVideo 1 (selectVideo 0 s) = selectVideo 1 s.
Proof.
  intros a b s. apply selectVideo_last_selection_wins.
  unfold JS.len. simpl. lia.
Defined.

(** ** The end of a track in mode [none] *)

Lemma playNext_from_no_selection (u : JS.draw) (s : State) :
  playMode s <> shuffle ->
  playlist s <> [] ->
  currentTrackIndex s = None ->
  playNext u s
  = mkState (playlist s) (Some 0) true (playMode s) (error s)
            (playedIndices s).
Proof.
  intros Hmode Hne Hc.
  assert (HN : 0 < JS.len (playlist s)).
  { unfold JS.len. destruct (playlist s); [congruence | simpl; lia]. }
  unfold playNext.
  replace (JS.len (playlist s) =? 0) with false
    by (symmetry; apply Z.eqb_neq; lia).
  rewrite Hc. unfold JS.rem. rewrite Z.rem_0_l by lia.
  rewrite andb_false_r. cbn [andb].
  destruct (playMode s) eqn:Em; try congruence;
    rewrite selectVideo_in_range by lia; rewrite Em; reflexivity.
Qed.

(** X9.  When a track ends in mode [none], the end callback
    ([onPlayerEnd], and [onPlayerStateChange] with state 0, which does the
    same) never clears the position: after the last track it only sets
    [isPlaying] to false and leaves the last track selected, before the
    last track it moves on by one.  The position is empty afterwards only
    if it was empty before and the playlist is empty. *)
Theorem track_end_in_off_mode_keeps_selection (u : JS.draw) (s : State) :
  playMode s = none ->
  positionValid s ->
  onPlayerStateChange 0 u s = onPlayerEnd u s
  /\ (forall c,
         currentTrackIndex s = Some c ->
         c + 1 = JS.len (playlist s) ->
         onPlayerEnd u s = setIsPlaying false s)
  /\ (forall c,
         currentTrackIndex s = Some c ->
         c + 1 < JS.len (playlist s) ->
         currentTrackIndex (onPlayerEnd u s) = Some (c + 1)
         /\ isPlaying (onPlayerEnd u s) = true)
  /\ (currentTrackIndex (onPlayerEnd u s) = None ->
      currentTrackIndex s = None /\ playlist s = []).
Proof.
  intros Hmode Hvalid. unfold positionValid in Hvalid.
  split; [reflexivity|]. unfold onPlayerEnd. rewrite Hmode.
  split; [|split].
  - intros c Hc Hlast. rewrite Hc.
    replace (c + 1 <? JS.len (playlist s)) with false
      by (symmetry; apply Z.ltb_ge; lia).
    reflexivity.
  - intros c Hc Hlt. rewrite Hc in *.
    replace (c + 1 <? JS.len (playlist s)) with true
      by (symmetry; apply Z.ltb_lt; lia).
    rewrite (playNext_linear_step u s c) by (try congruence; lia).
    split; reflexivity.
  - destruct (currentTrackIndex s) as [c|] eqn:Hc.
    + destruct (c + 1 <? JS.len (playlist s)) eqn:E.
      * apply Z.ltb_lt in E.
        rewrite (playNext_linear_step u s c) by (try congruence; lia).
        discriminate.
      * cbn. rewrite Hc. discriminate.
    + destruct (0 <? JS.len (playlist s)) eqn:E.
      * apply Z.ltb_lt in E.
        rewrite playNext_from_no_selection;
          [discriminate | congruence | | exact Hc].
        intro E0. rewrite E0 in E. unfold JS.len in E. simpl in E. lia.
      * intros _. split; [reflexivity|].
        apply Z.ltb_ge in E. apply len_zero_iff.
        pose proof (len_nonneg (playlist s)). lia.
Qed.

Lemma track_end_in_off_mode_keeps_selection_witness :
  let a := mkItem 1 "aaaaaaaaaaa" "A" "a" in
  let b := mkItem 2 "bbbbbbbbbbb" "B" "b" in
  let s := mkState [a; b] (Some 1) true none None [] in
  let u := JS.mkDraw 0 0 in
  onPlayerEnd u s = mkState [a; b] (Some 1) false none None []
  /\ playNext u s = mkState [a; b] None false none None [].
Proof.
  intros a b s u. split; [|reflexivity].
  destruct (track_end_in_off_mode_keeps_selection u s) as (_ & H & _);
    [reflexivity | unfold positionValid, s, JS.len; simpl; lia |].
  rewrite (H 1); reflexivity.
Defined.

(** ** [playNext] and [playPrevious] against each other *)

Lemma playPrevious_in_range (s : State) (c : Z) :
  currentTrackIndex s = Some c ->
  0 <= c < JS.len (playlist s) ->
  playPrevious s
  = selectVideo ((c - 1 + JS.len (playlist s)) mod JS.len (playlist s)) s.
Proof.
  intros Hc Hr. unfold playPrevious.
  replace (JS.len (playlist s) =? 0) with false
    by (symmetry; apply Z.eqb_neq; lia).
  rewrite Hc. unfold JS.rem. rewrite Z.rem_mod_nonneg by lia. reflexivity.
Qed.

(** X10.  In mode [repeat_all], with a track selected, [playNext] and
    [playPrevious] undo each other in both orders, also across the ends of
    the playlist: the cells are those before the two calls, with playback
    switched on. *)
Theorem repeat_all_next_and_previous_cancel (u : JS.draw) (s : State) (c : Z) :
  playMode s = repeat_all ->
  currentTrackIndex s = Some c ->
  0 <= c < JS.len (playlist s) ->
  playPrevious (playNext u s) = setIsPlaying true s
  /\ playNext u (playPrevious s) = setIsPlaying true s.
Proof.
  intros Hmode Hc Hr.
  set (N := JS.len (playlist s)) in *.
  assert (Hset : setIsPlaying true s
                 = mkState (playlist s) (Some c) true repeat_all (error s)
                           (playedIndices s)).
  { unfold setIsPlaying. rewrite Hc, Hmode. reflexivity. }
  split.
  - destruct (Z.eq_dec (c + 1) N) as [Hlast|Hmid].
    + rewrite (playNext_repeat_all_last u s c) by (auto; lia).
      rewrite (playPrevious_in_range _ 0) by (cbn; fold N; auto; lia).
      cbn [playlist]. fold N.
      replace (0 - 1 + N) with c by lia.
      rewrite Z.mod_small by lia.
      rewrite selectVideo_in_range by (cbn; fold N; lia).
      rewrite Hset. reflexivity.
    + rewrite (playNext_linear_step u s c) by (try congruence; fold N; lia).
      rewrite (playPrevious_in_range _ (c + 1)) by (cbn; fold N; auto; lia).
      cbn [playlist]. fold N.
      replace (c + 1 - 1 + N) with (c + 1 * N) by lia.
      rewrite Z.mod_add, Z.mod_small by lia.
      rewrite selectVideo_in_range by (cbn; fold N; lia).
      rewrite Hset. cbn. rewrite Hmode. reflexivity.
  - rewrite (playPrevious_in_range s c Hc Hr). fold N.
    assert (Hp : 0 <= (c - 1 + N) mod N < N) by (apply Z.mod_pos_bound; lia).
    rewrite selectVideo_in_range by (fold N; exact Hp).
    rewrite Hmode. cbn [PlayMode_eqb].
    set (p := (c - 1 + N) mod N) in *.
    set (s1 := mkState _ _ _ _ _ _).
    destruct (Z.eq_dec c 0) as [H0|H0].
    + assert (Ep : p = N - 1).
      { unfold p. rewrite H0. replace (0 - 1 + N) with (N - 1) by lia.
        apply Z.mod_small. lia. }
      rewrite (playNext_repeat_all_last u s1 p);
        [ | reflexivity | reflexivity | cbn; fold N; lia | lia ].
      rewrite Hset, H0. reflexivity.
    + assert (Ep : p = c - 1).
      { unfold p. replace (c - 1 + N) with (c - 1 + 1 * N) by lia.
        rewrite Z.mod_add by lia. apply Z.mod_small. lia. }
      rewrite (playNext_linear_step u s1 p);
        [ | cbn; discriminate | reflexivity | lia | cbn; fold N; lia ].
      rewrite Hset, Ep. cbn. f_equal. f_equal. lia.
Qed.

Lemma repeat_all_next_and_previous_cancel_witness :
  let a := mkItem 1 "aaaaaaaaaaa" "A" "a" in
  let b := mkItem 2 "bbbbbbbbbbb" "B" "b" in
  let c := mkItem 3 "ccccccccccc" "C" "c" in
  let s := mkState [a; b; c] (Some 2) true repeat_all None [] in
  let u := JS.mkDraw 0 0 in
  playPrevious (playNext u s) = s /\ playNext u (playPrevious s) = s.
Proof.
  intros a b c s u.
  apply (repeat_all_next_and_previous_cancel u s 2);
    [reflexivity | reflexivity | unfold JS.len; simpl; lia].
Defined.

(** ** Shuffle, one call after another *)

(** The cells after [playNext] in shuffle mode, and where the index comes
    from. *)
Lemma playNext_shuffle_cells (u : JS.draw) (s : State) :
  playlist s <> [] ->
  playMode s = shuffle ->
  exists i,
    0 <= i < JS.len (playlist s)
    /\ (In i (availableIndices s) \/ availableIndices s = [])
    /\ playNext u s
       = mkState (playlist s) (Some i) true shuffle (error s) [i].
Proof.
  intros Hne Hmode. unfold playNext.
  destruct (JS.len (playlist s) =? 0) eqn:E0.
  { apply Z.eqb_eq, len_zero_iff in E0. contradiction. }
  rewrite Hmode.
  destruct (JS.len (availableIndices s) =? 0) eqn:Ea.
  - set (i := Z.of_nat (JS.random_floor u (List.length (playlist s)))).
    assert (Hi : 0 <= i < JS.len (playlist s)).
    { unfold i, JS.len. split; [lia|]. apply Nat2Z.inj_lt, random_floor_lt.
      destruct (playlist s); [contradiction|simpl; lia]. }
    exists i. split; [exact Hi|]. split.
    + right. apply Z.eqb_eq, len_zero_iff in Ea. exact Ea.
    + rewrite selectVideo_in_range by exact Hi. cbn. rewrite Hmode. reflexivity.
  - assert (Hav : availableIndices s <> []).
    { intro E. rewrite E in Ea. discriminate. }
    set (i := nth _ _ _).
    assert (Hin : In i (availableIndices s)).
    { apply nth_In, random_floor_lt.
      destruct (availableIndices s); [congruence|simpl; lia]. }
    pose proof (availableIndices_range s i Hin) as Hr.
    exists i. split; [exact Hr|].
    split; [left; exact Hin|].
    rewrite selectVideo_in_range by exact Hr.
    cbn. rewrite Hmode. reflexivity.
Qed.

Lemma In_availableIndices (s : State) (j : Z) :
  In j (availableIndices s)
  <-> 0 <= j < JS.len (playlist s) /\ ~ In j (playedIndices s).
Proof.
  unfold availableIndices. rewrite filter_In, In_indices.
  unfold JS.includes. split; intros [Hr Hn]; split; auto.
  - intro Hin. apply negb_true_iff in Hn.
    assert (existsb (Z.eqb j) (playedIndices s) = true).
    { apply existsb_exists. exists j. split; [exact Hin | apply Z.eqb_refl]. }
    congruence.
  - apply negb_true_iff. destruct (existsb _ _) eqn:E; [|reflexivity].
    apply existsb_exists in E. destruct E as (x & Hx & Ex).
    apply Z.eqb_eq in Ex. subst x. contradiction.
Qed.

(** After a history of one track, [playNext] picks another track. *)
Lemma playNext_after_one (u : JS.draw) (s : State) (i : Z) :
  playMode s = shuffle ->
  playedIndices s = [i] ->
  2 <= JS.len (playlist s) ->
  exists j,
    j <> i
    /\ playNext u s = mkState (playlist s) (Some j) true shuffle (error s) [j].
Proof.
  intros Hmode Hh HN.
  assert (Hne : playlist s <> []).
  { intro E. rewrite E in HN. unfold JS.len in HN. simpl in HN. lia. }
  destruct (playNext_shuffle_cells u s Hne Hmode) as (j & Hj & Hfrom & E).
  exists j. split; [|exact E].
  destruct Hfrom as [Hin|Hnil].
  - apply In_availableIndices in Hin. rewrite Hh in Hin.
    intro Eji. apply (proj2 Hin). left. congruence.
  - exfalso.
    assert (Hk : In (if i =? 0 then 1 else 0) (availableIndices s)).
    { apply In_availableIndices. rewrite Hh.
      destruct (i =? 0) eqn:Ei.
      - apply Z.eqb_eq in Ei. split; [lia|]. simpl. lia.
      - apply Z.eqb_neq in Ei. split; [lia|]. simpl. lia. }
    rewrite Hnil in Hk. exact Hk.
Qed.

(** X11.  In shuffle mode with two or more tracks, two calls of
    [playNext] in a row never select the same track, and [playNext] after
    [selectVideo] never selects the track just chosen by hand, whatever is
    drawn. *)
Theorem shuffle_never_plays_a_track_twice_in_a_row (s : State) :
  playMode s = shuffle ->
  2 <= JS.len (playlist s) ->
  (forall u1 u2,
      currentTrackIndex (playNext u2 (playNext u1 s))
      <> currentTrackIndex (playNext u1 s))
  /\ (forall i u,
         0 <= i < JS.len (playlist s) ->
         currentTrackIndex (playNext u (selectVideo i s)) <> Some i).
Proof.
  intros Hmode HN.
  assert (Hne : playlist s <> []).
  { intro E. rewrite E in HN. unfold JS.len in HN. simpl in HN. lia. }
  split.
  - intros u1 u2.
    destruct (playNext_shuffle_cells u1 s Hne Hmode) as (i & Hi & _ & E1).
    rewrite E1.
    destruct (playNext_after_one u2 (mkState (playlist s) (Some i) true shuffle
                                             (error s) [i]) i)
      as (j & Hji & E2); [reflexivity | reflexivity | exact HN |].
    rewrite E2. cbn. congruence.
  - intros i u Hi. rewrite selectVideo_in_range by exact Hi.
    rewrite Hmode. cbn [PlayMode_eqb].
    destruct (playNext_after_one u (mkState (playlist s) (Some i) true shuffle
                                            (error s) [i]) i)
      as (j & Hji & E2); [reflexivity | reflexivity | exact HN |].
    rewrite E2. cbn. congruence.
Qed.

Lemma shuffle_never_plays_a_track_twice_in_a_row_witness :
  let a := mkItem 1 "aaaaaaaaaaa" "A" "a" in
  let b := mkItem 2 "bbbbbbbbbbb" "B" "b" in
  let s := mkState [a; b] None false shuffle None [] in
  let u := JS.mkDraw 0 0 in
  currentTrackIndex (playNext u (playNext u s))
  <> currentTrackIndex (playNext u s).
Proof.
  intros a b s u.
  destruct (shuffle_never_plays_a_track_twice_in_a_row s) as [H _];
    [reflexivity | unfold JS.len; simpl; lia |].
  apply H.
Defined.

(** X12.  In shuffle mode every index of the playlist that is not in
    the history can be the one [playNext] selects, and when the history
    covers the whole playlist every index can: for each there is a value
    of [Math.random()] that picks it.  The history afterwards holds that
    index alone, since [selectVideo] resets it. *)
Theorem shuffle_can_draw_every_candidate (s : State) (j : Z) :
  playMode s = shuffle ->
  In j (availableIndices s)
  \/ (availableIndices s = [] /\ 0 <= j < JS.len (playlist s)) ->
  exists u,
    currentTrackIndex (playNext u s) = Some j
    /\ playedIndices (playNext u s) = [j].
Proof.
  intros Hmode Hj.
  assert (Hr : 0 <= j < JS.len (playlist s)).
  { destruct Hj as [Hin|[_ Hr]]; [apply availableIndices_range; exact Hin | exact Hr]. }
  assert (E0 : (JS.len (playlist s) =? 0) = false) by (apply Z.eqb_neq; lia).
  destruct Hj as [Hin|[Hnil _]].
  - destruct (In_nth _ _ 0 Hin) as (k & Hk & Enth).
    exists (JS.mkDraw k (List.length (availableIndices s) - k - 1)).
    unfold playNext. rewrite E0, Hmode.
    replace (JS.len (availableIndices s) =? 0) with false
      by (symmetry; apply Z.eqb_neq; unfold JS.len; lia).
    cbv zeta. rewrite random_floor_onto by exact Hk. rewrite Enth.
    rewrite selectVideo_in_range by exact Hr. cbn. rewrite Hmode. auto.
  - exists (JS.mkDraw (Z.to_nat j) (List.length (playlist s) - Z.to_nat j - 1)).
    unfold playNext. rewrite E0, Hmode, Hnil. cbn [JS.len List.length Z.of_nat Z.eqb].
    cbv zeta. rewrite random_floor_onto by (unfold JS.len in Hr; lia).
    rewrite Z2Nat.id by lia.
    rewrite selectVideo_in_range by exact Hr. cbn. rewrite Hmode. auto.
Qed.

Lemma shuffle_can_draw_every_candidate_witness :
  let a := mkItem 1 "aaaaaaaaaaa" "A" "a" in
  let b := mkItem 2 "bbbbbbbbbbb" "B" "b" in
  let c := mkItem 3 "ccccccccccc" "C" "c" in
  let s := mkState [a; b; c] (Some 0) true shuffle None [0] in
  exists u, currentTrackIndex (playNext u s) = Some 2
            /\ playedIndices (playNext u s) = [2].
Proof.
  intros a b c s.
  apply (shuffle_can_draw_every_candidate s 2); [reflexivity|].
  left. simpl. auto.
Defined.

(** ** A playlist of one track *)

(** X13.  With exactly one track, [playNext] in every mode and
    [playPrevious] select that track and switch playback on; mode [none]
    does not halt here. *)
Theorem single_track_stays_selected (u : JS.draw) (s : State) :
  List.length (playlist s) = 1%nat ->
  positionValid s ->
  currentTrackIndex (playNext u s) = Some 0
  /\ isPlaying (playNext u s) = true
  /\ currentTrackIndex (playPrevious s) = Some 0
  /\ isPlaying (playPrevious s) = true.
Proof.
  intros Hlen Hvalid.
  assert (HN : JS.len (playlist s) = 1) by (unfold JS.len; lia).
  assert (Hne : playlist s <> []) by (intro E; rewrite E in Hlen; discriminate).
  unfold positionValid in Hvalid. rewrite HN in Hvalid.
  assert (Hprev : playPrevious s = selectVideo 0 s).
  { unfold playPrevious. rewrite HN. cbn [Z.eqb].
    destruct (currentTrackIndex s) as [c|]; [|reflexivity].
    assert (c = 0) by lia. subst c. reflexivity. }
  rewrite Hprev, selectVideo_in_range by lia.
  split; [|split; [|split; reflexivity]].
  - destruct (playMode s) eqn:Em.
    + unfold playNext. rewrite HN, Em. cbn [Z.eqb Z.gtb Z.compare].
      rewrite andb_false_r.
      replace (JS.rem _ 1) with 0
        by (unfold JS.rem; symmetry; apply Z.rem_1_r).
      rewrite selectVideo_in_range by lia. reflexivity.
    + unfold playNext. rewrite HN, Em. cbn [Z.eqb PlayMode_eqb andb].
      replace (JS.rem _ 1) with 0
        by (unfold JS.rem; symmetry; apply Z.rem_1_r).
      rewrite selectVideo_in_range by lia. reflexivity.
    + destruct (playNext_shuffle_cells u s Hne Em) as (i & Hi & _ & E).
      rewrite E. cbn. f_equal. lia.
  - destruct (playMode s) eqn:Em.
    + unfold playNext. rewrite HN, Em. cbn [Z.eqb Z.gtb Z.compare].
      rewrite andb_false_r.
      replace (JS.rem _ 1) with 0
        by (unfold JS.rem; symmetry; apply Z.rem_1_r).
      rewrite selectVideo_in_range by lia. reflexivity.
    + unfold playNext. rewrite HN, Em. cbn [Z.eqb PlayMode_eqb andb].
      replace (JS.rem _ 1) with 0
        by (unfold JS.rem; symmetry; apply Z.rem_1_r).
      rewrite selectVideo_in_range by lia. reflexivity.
    + destruct (playNext_shuffle_cells u s Hne Em) as (i & Hi & _ & E).
      rewrite E. reflexivity.
Qed.

Lemma single_track_stays_selected_witness :
  let a := mkItem 1 "aaaaaaaaaaa" "A" "a" in
  let s := mkState [a] (Some 0) false none None [] in
  let u := JS.mkDraw 0 0 in
  currentTrackIndex (playNext u s) = Some 0 /\ isPlaying (playNext u s) = true.
Proof.
  intros a s u.
  destruct (single_track_stays_selected u s) as (H1 & H2 & _);
    [reflexivity | unfold positionValid, s, JS.len; simpl; lia |].
  split; [exact H1 | exact H2].
Defined.

(** ** Mode [none] after the halt *)

Lemma playNext_playMode (u : JS.draw) (s : State) :
  playMode (playNext u s) = playMode s.
Proof.
  unfold playNext.
  destruct (JS.len (playlist s) =? 0); [reflexivity|].
  assert (Hsel : forall i t, playMode (selectVideo i t) = playMode t).
  { intros i t. unfold selectVideo.
    repeat match goal with |- context [if ?b then _ else _] => destruct b end;
      reflexivity. }
  destruct (playMode s) eqn:Em; cbv zeta.
  - destruct (_ && _); [cbn; exact Em | rewrite Hsel; exact Em].
  - destruct (_ && _); [cbn; exact Em | rewrite Hsel; exact Em].
  - destruct (_ =? 0); rewrite Hsel; cbn; exact Em.
Qed.

Lemma playNextMany_frame (us : list JS.draw) :
  forall s,
    playlist (playNextMany us s) = playlist s
    /\ playMode (playNextMany us s) = playMode s.
Proof.
  induction us as [|u us IH]; intros s; simpl; [auto|].
  destruct (IH (playNext u s)) as [Hp Hm].
  rewrite Hp, Hm, playNext_playlist, playNext_playMode. auto.
Qed.

Lemma playNextMany_app (us vs : list JS.draw) (s : State) :
  playNextMany (us ++ vs) s = playNextMany vs (playNextMany us s).
Proof.
  revert s. induction us as [|u us IH]; intros s; simpl; [reflexivity | apply IH].
Qed.

(** X14.  In mode [none] with N > 1 tracks, the call of [playNext] that
    follows the halt starts over: N + 1 calls from position 0 end at
    position 0 with playback on. *)
Theorem off_mode_starts_over_after_halt (us : list JS.draw) (u : JS.draw)
        (s : State) :
  playMode s = none ->
  (1 < List.length (playlist s))%nat ->
  currentTrackIndex s = Some 0 ->
  List.length us = List.length (playlist s) ->
  currentTrackIndex (playNextMany (us ++ [u]) s) = Some 0
  /\ isPlaying (playNextMany (us ++ [u]) s) = true.
Proof.
  intros Hmode HN Hc Hlen.
  destruct (off_run us s 0) as (_ & Hnone & _); auto; try lia.
  { intro E. subst us. simpl in Hlen. lia. }
  destruct (playNextMany_frame us s) as [Hp Hm].
  rewrite playNextMany_app. cbn [playNextMany].
  rewrite playNext_from_no_selection;
    [split; reflexivity | rewrite Hm, Hmode; discriminate | | exact Hnone].
  rewrite Hp. intro E. rewrite E in HN. simpl in HN. lia.
Qed.

Lemma off_mode_starts_over_after_halt_witness :
  let a := mkItem 1 "aaaaaaaaaaa" "A" "a" in
  let b := mkItem 2 "bbbbbbbbbbb" "B" "b" in
  let s := mkState [a; b] (Some 0) true none None [] in
  let u := JS.mkDraw 0 0 in
  currentTrackIndex (playNextMany ([u; u] ++ [u]) s) = Some 0
  /\ isPlaying (playNextMany ([u; u] ++ [u]) s) = true.
Proof.
  intros a b s u.
  apply (off_mode_starts_over_after_halt [u; u] u s);
    [reflexivity | simpl; lia | reflexivity | reflexivity].
Defined.

(** ** Adding a track and removing it again *)

Lemma findIndex_from_app_absent {A} (p : A -> bool) (l r : list A) :
  forall k,
    (forall x, In x l -> p x = false) ->
    JS.findIndex_from p (l ++ r) k = JS.findIndex_from p r (k + JS.len l).
Proof.
  induction l as [|a l IH]; intros k Hnone; simpl.
  - unfold JS.len. simpl. f_equal. lia.
  - rewrite (Hnone a (or_introl eq_refl)).
    rewrite IH by (intros x Hx; apply Hnone; right; exact Hx).
    f_equal. unfold JS.len. simpl List.length. lia.
Qed.

(** X15.  Adding a track under an id the playlist does not have and
    removing that id again gives back playlist, position, mode and shuffle
    history, from every state with a valid position and a history inside
    the playlist; this holds too when the track was rejected. *)
Theorem addVideo_then_removeVideo_restores
        (newVideoTitle newVideoUrl : string) (now : Z) (s : State) :
  ~ In now (map id (playlist s)) ->
  positionValid s ->
  historyValid s ->
  let s' := removeVideo now (addVideo newVideoTitle newVideoUrl now s) in
  playlist s' = playlist s
  /\ currentTrackIndex s' = currentTrackIndex s
  /\ playMode s' = playMode s
  /\ playedIndices s' = playedIndices s.
Proof.
  intros Hfresh Hvalid Hhist s'. subst s'.
  assert (Hnone : forall x, In x (playlist s) -> (id x =? now) = false).
  { intros x Hx. apply Z.eqb_neq. intro E. apply Hfresh.
    rewrite <- E. apply in_map. exact Hx. }
  unfold addVideo.
  destruct (_ || _).
  { unfold removeVideo, JS.findIndex. cbn [setError playlist].
    rewrite findIndex_from_absent by exact Hnone. cbn. auto. }
  destruct (extractVideoId newVideoUrl) as [y|].
  2:{ unfold removeVideo, JS.findIndex. cbn [setError playlist].
      rewrite findIndex_from_absent by exact Hnone. cbn. auto. }
  set (v := mkItem now y _ _).
  assert (Hfilter : filter (fun video => negb (id video =? now))
                           (playlist s ++ [v]) = playlist s).
  { rewrite filter_app. cbn [filter id v]. rewrite Z.eqb_refl. cbn [negb].
    rewrite app_nil_r. apply filter_negb_all.
    apply forallb_forall. intros x Hx. rewrite (Hnone x Hx). reflexivity. }
  assert (Hindex : JS.findIndex (fun video => id video =? now)
                                (playlist s ++ [v]) = JS.len (playlist s)).
  { unfold JS.findIndex. rewrite findIndex_from_app_absent by exact Hnone.
    cbn. rewrite Z.eqb_refl. reflexivity. }
  pose proof (len_nonneg (playlist s)) as Hlen.
  assert (Hhistory :
    map (fun idx => if idx >? JS.len (playlist s) then idx - 1 else idx)
        (filter (fun idx => negb (idx =? JS.len (playlist s)))
                (playedIndices s))
    = playedIndices s).
  { unfold historyValid in Hhist.
    induction (playedIndices s) as [|h t IH]; [reflexivity|].
    inversion Hhist as [|? ? Hh Ht]; subst. cbn [filter].
    replace (h =? JS.len (playlist s)) with false
      by (symmetry; apply Z.eqb_neq; lia).
    cbn [negb map]. rewrite IH by exact Ht.
    destruct (Z.gtb_spec h (JS.len (playlist s))); [lia | reflexivity]. }
  set (s1 := setPlaylist _ _).
  set (first := (JS.len (playlist (setError None s)) =? 0)
                && match currentTrackIndex (setError None s) with
                   | None => true
                   | Some _ => false
                   end) in *.
  assert (Hs1 : playlist s1 = playlist s ++ [v]
                /\ playedIndices s1 = playedIndices s
                /\ playMode s1 = playMode s
                /\ currentTrackIndex s1
                   = if first then Some 0 else currentTrackIndex s).
  { subst s1. destruct first; cbn; auto. }
  destruct Hs1 as (Hp1 & Hh1 & Hm1 & Hc1).
  clearbody s1.
  unfold removeVideo. rewrite Hp1, Hindex, Hfilter, Hh1, Hhistory, Hc1.
  replace (JS.len (playlist s) =? -1) with false
    by (symmetry; apply Z.eqb_neq; lia).
  unfold positionValid in Hvalid.
  destruct first eqn:Efirst.
  - subst first. cbn [setError playlist currentTrackIndex] in Efirst.
    apply andb_true_iff in Efirst. destruct Efirst as [E0 Enone].
    apply Z.eqb_eq in E0. rewrite E0. cbn.
    destruct (currentTrackIndex s); [discriminate|]. auto.
  - destruct (currentTrackIndex s) as [c|] eqn:Ec.
    + replace (c =? JS.len (playlist s)) with false
        by (symmetry; apply Z.eqb_neq; lia).
      replace (JS.len (playlist s) <? c) with false
        by (symmetry; apply Z.ltb_ge; lia).
      cbn. auto.
    + cbn. auto.
Qed.

Lemma addVideo_then_removeVideo_restores_witness :
  let a := mkItem 1 "aaaaaaaaaaa" "A" "a" in
  let s := mkState [a] (Some 0) true shuffle None [0] in
  let s' := removeVideo 9 (addVideo "B" "https://youtu.be/dQw4w9WgXcQ" 9 s) in
  playlist s' = [a] /\ currentTrackIndex s' = Some 0.
Proof.
  intros a s s'.
  destruct (addVideo_then_removeVideo_restores
              "B" "https://youtu.be/dQw4w9WgXcQ" 9 s) as (Hp & Hc & _).
  - simpl. intros [E|[]]. discriminate.
  - unfold positionValid, s, JS.len. simpl. lia.
  - unfold historyValid, s, JS.len. simpl. repeat constructor; lia.
  - split; [exact Hp | exact Hc].
Defined.

(** ** The shuffle history stays inside the playlist *)

Lemma historyValid_frame (s s' : State) :
  playlist s' = playlist s ->
  playedIndices s' = playedIndices s ->
  historyValid s -> historyValid s'.
Proof. unfold historyValid. intros -> ->. auto. Qed.

Lemma selectVideo_historyValid (i : Z) (s : State) :
  historyValid s -> historyValid (selectVideo i s).
Proof.
  intros Hh.
  destruct (Z_le_dec 0 i) as [H0|H0];
    [destruct (Z_lt_dec i (JS.len (playlist s))) as [H1|H1]|].
  - rewrite selectVideo_in_range by lia. unfold historyValid. cbn.
    destruct (PlayMode_eqb (playMode s) shuffle); [|exact Hh].
    constructor; [lia | constructor].
  - rewrite selectVideo_out_of_range by lia. exact Hh.
  - rewrite selectVideo_out_of_range by lia. exact Hh.
Qed.

Lemma playNext_historyValid (u : JS.draw) (s : State) :
  historyValid s -> historyValid (playNext u s).
Proof.
  intros Hh.
  destruct (playMode s) eqn:Em.
  - unfold playNext. rewrite Em.
    destruct (JS.len (playlist s) =? 0); [exact Hh|]. cbv zeta.
    destruct (_ && _);
      [eapply historyValid_frame; [| |exact Hh]; reflexivity
      |apply selectVideo_historyValid; exact Hh].
  - unfold playNext. rewrite Em.
    destruct (JS.len (playlist s) =? 0); [exact Hh|]. cbv zeta.
    destruct (_ && _);
      [eapply historyValid_frame; [| |exact Hh]; reflexivity
      |apply selectVideo_historyValid; exact Hh].
  - destruct (playlist s) as [|x l] eqn:Ep.
    + rewrite playNext_empty by exact Ep. exact Hh.
    + destruct (playNext_shuffle_cells u s) as (i & Hi & _ & E);
        [congruence | exact Em |].
      rewrite E. unfold historyValid. cbn.
      constructor; [exact Hi | constructor].
Qed.

Lemma removeVideo_historyValid (idToRemove : Z) (s : State) :
  uniqueIds (playlist s) ->
  historyValid s -> historyValid (removeVideo idToRemove s).
Proof.
  intros Hu Hh.
  destruct (Z.eq_dec
              (JS.findIndex (fun video => id video =? idToRemove) (playlist s))
              (-1)) as [Eabs|Hfound].
  - unfold removeVideo. rewrite Eabs. exact Hh.
  - destruct (removeVideo_found idToRemove s Hu Hfound)
      as (before & x & after & El & _ & _ & Hp & Hhist & _ & _).
    unfold historyValid in *. rewrite Hp, Hhist. rewrite El in Hh.
    rewrite Forall_forall in *. intros j Hj.
    apply in_map_iff in Hj. destruct Hj as (idx & <- & Hin).
    apply filter_In in Hin. destruct Hin as [Hin Hne].
    apply negb_true_iff, Z.eqb_neq in Hne.
    specialize (Hh idx Hin). unfold JS.len in *.
    rewrite length_app in *. simpl List.length in Hh.
    destruct (Z.gtb_spec idx (Z.of_nat (List.length before))); lia.
Qed.

Lemma handle_historyValid (e : event) (s : State) :
  uniqueIds (playlist s) -> historyValid s -> historyValid (handle e s).
Proof.
  intros Hu Hh. destruct e; cbn [handle].
  - unfold addVideo.
    destruct (_ || _); [exact Hh|].
    destruct (extractVideoId newVideoUrl); [|exact Hh].
    unfold historyValid in *.
    replace (playedIndices _) with (playedIndices s)
      by (destruct (_ && _); reflexivity).
    replace (playlist _) with (playlist s ++ [mkItem now s0 (JS.trim newVideoTitle)
                                                     (JS.trim newVideoUrl)])
      by (destruct (_ && _); reflexivity).
    eapply Forall_impl; [|exact Hh]. cbn beta. intros i Hi.
    unfold JS.len in *. rewrite length_app. lia.
  - apply removeVideo_historyValid; assumption.
  - apply selectVideo_historyValid; exact Hh.
  - apply playNext_historyValid; exact Hh.
  - unfold playPrevious. destruct (_ =? 0); [exact Hh|].
    apply selectVideo_historyValid; exact Hh.
  - unfold togglePlayMode. destruct (playMode s);
      try (eapply historyValid_frame; [| |exact Hh]; reflexivity).
    unfold historyValid. cbn. constructor.
  - exact Hh.
  - exact Hh.
  - unfold onPlayerEnd.
    destruct (playMode s); try (apply playNext_historyValid; exact Hh).
    destruct (_ <? _); [apply playNext_historyValid; exact Hh | exact Hh].
Qed.

Section MountedHistory.
Context `{JSON}.

(** X16.  In every state reached from a mount by events that keep ids
    distinct, each index of the shuffle history lies in the playlist, and
    every handler keeps it so. *)
Theorem history_stays_inside_playlist (s : State) :
  reachableUnique s ->
  historyValid s /\ forall e, historyValid (handle e s).
Proof.
  intros Hr.
  assert (Hinv : historyValid s /\ uniqueIds (playlist s)).
  { induction Hr as [st s Hm Hu | e s Hr [Hh Hu] Hk].
    - split; [|exact Hu].
      destruct (mounted_other_cells st s Hm) as (_ & _ & Hp).
      unfold historyValid. rewrite Hp. constructor.
    - split; [apply handle_historyValid | apply handle_uniqueIds]; assumption. }
  destruct Hinv as [Hh Hu]. split; [exact Hh|].
  intros e. apply handle_historyValid; assumption.
Qed.

(** ** The selected position shows a track *)

(** X17.  In every state reached from a mount by events that keep ids
    distinct, [currentVideo] is a track exactly when a position is
    selected: the render never meets a selected position without a
    track. *)
Theorem reachable_selection_is_a_track (s : State) :
  reachableUnique s ->
  (currentVideo s = None <-> currentTrackIndex s = None).
Proof.
  intros Hr. destruct (reachableUnique_invariant s Hr) as [Hv _].
  unfold currentVideo, positionValid in *.
  destruct (currentTrackIndex s) as [c|]; [|tauto].
  split; [|discriminate].
  intros E. exfalso. exact (trackAt_in_range _ _ Hv E).
Qed.

End MountedHistory.

Lemma history_stays_inside_playlist_witness :
  let url := "https://youtu.be/dQw4w9WgXcQ" in
  let u := JS.mkDraw 1 0 in
  let s0 := initialState in
  let s1 := handle (AddVideo "a" url 1) s0 in
  let s2 := handle (AddVideo "b" url 2) s1 in
  let s3 := handle TogglePlayMode (handle TogglePlayMode s2) in
  let s4 := handle (PlayNext u) s3 in
  historyValid s4 /\ historyValid (handle (RemoveVideo 1) s4).
Proof.
  intros url u s0 s1 s2 s3 s4.
  destruct (@history_stays_inside_playlist CanonicalJSON.codec s4) as [Hh He].
  - apply reachableUnique_handle; [|exact I].
    apply reachableUnique_handle; [|exact I].
    apply reachableUnique_handle; [|exact I].
    apply reachableUnique_handle;
      [|vm_compute; intros [E|[]]; discriminate].
    apply reachableUnique_handle; [|vm_compute; intros []].
    apply (reachableUnique_mounted (mkStorage None None None));
      [reflexivity | constructor].
  - split; [exact Hh | apply He].
Defined.

Lemma reachable_selection_is_a_track_witness :
  let url := "https://youtu.be/dQw4w9WgXcQ" in
  let s0 := initialState in
  let s1 := handle (AddVideo "a" url 1) s0 in
  currentVideo s1 = None <-> currentTrackIndex s1 = None.
Proof.
  intros url s0 s1.
  apply (@reachable_selection_is_a_track CanonicalJSON.codec s1).
  apply reachableUnique_handle; [|vm_compute; intros []].
  apply (reachableUnique_mounted (mkStorage None None None));
      [reflexivity | constructor].
Defined.

(** ** Tracks keep the shape [addVideo] gives them *)

(** X18.  Every handler keeps the shape of the tracks: if each track of
    the playlist has a video id of 11 characters and a title and a link
    that are not empty and have no white space at either end, the same
    holds after the event. *)
Theorem tracks_keep_added_shape (e : event) (s : State) :
  Forall trackAsAdded (playlist s) ->
  Forall trackAsAdded (playlist (handle e s)).
Proof.
  intros Hall. destruct e; cbn [handle].
  - unfold addVideo.
    destruct (allWhiteSpace newVideoUrl || allWhiteSpace newVideoTitle) eqn:Ews.
    { rewrite !truthy_trim, !negb_involutive, Ews. exact Hall. }
    rewrite !truthy_trim, !negb_involutive, Ews.
    apply orb_false_iff in Ews. destruct Ews as [Eu Et].
    destruct (extractVideoId newVideoUrl) as [y|] eqn:Ey; [|exact Hall].
    replace (playlist _)
      with (playlist s ++ [mkItem now y (JS.trim newVideoTitle)
                                  (JS.trim newVideoUrl)])
      by (destruct (_ && _); reflexivity).
    apply Forall_app. split; [exact Hall|].
    constructor; [|constructor].
    apply added_track_shape; assumption.
  - destruct (removeVideo_playlist idToRemove s) as [E|E]; rewrite E;
      [exact Hall|].
    rewrite Forall_forall in *. intros v Hv. apply filter_In in Hv.
    apply Hall. tauto.
  - rewrite selectVideo_playlist. exact Hall.
  - rewrite playNext_playlist. exact Hall.
  - rewrite playPrevious_playlist. exact Hall.
  - rewrite togglePlayMode_playlist. exact Hall.
  - exact Hall.
  - exact Hall.
  - rewrite onPlayerEnd_playlist. exact Hall.
Qed.

Lemma tracks_keep_added_shape_witness :
  let s1 := handle (AddVideo " a " "https://youtu.be/dQw4w9WgXcQ" 1) initialState in
  Forall trackAsAdded (playlist s1).
Proof.
  intros s1. apply tracks_keep_added_shape. constructor.
Defined.

(** ** What each handler leaves alone *)

Lemma selectVideo_playMode (i : Z) (s : State) :
  playMode (selectVideo i s) = playMode s.
Proof.
  unfold selectVideo.
  repeat match goal with |- context [if ?b then _ else _] => destruct b end;
    reflexivity.
Qed.

Lemma selectVideo_error (i : Z) (s : State) :
  error (selectVideo i s) = error s.
Proof.
  unfold selectVideo.
  repeat match goal with |- context [if ?b then _ else _] => destruct b end;
    reflexivity.
Qed.

Lemma playNext_error (u : JS.draw) (s : State) :
  error (playNext u s) = error s.
Proof.
  unfold playNext.
  destruct (JS.len (playlist s) =? 0); [reflexivity|].
  destruct (playMode s); cbv zeta.
  - destruct (_ && _); [reflexivity | apply selectVideo_error].
  - destruct (_ && _); [reflexivity | apply selectVideo_error].
  - destruct (_ =? 0); rewrite selectVideo_error; reflexivity.
Qed.

Lemma removeVideo_playMode_error (idToRemove : Z) (s : State) :
  playMode (removeVideo idToRemove s) = playMode s
  /\ error (removeVideo idToRemove s) = error s.
Proof.
  unfold removeVideo.
  destruct (_ =? -1); [auto|].
  destruct (currentTrackIndex s);
    repeat match goal with |- context [if ?b then _ else _] => destruct b end;
    auto.
Qed.

(** X19.  The playlist is changed by [addVideo] and [removeVideo] only,
    the mode by [togglePlayMode] only, and the error cell by [addVideo]
    only. *)
Theorem handlers_leave_other_cells (e : event) (s : State) :
  match e with
  | AddVideo _ _ _ | RemoveVideo _ => True
  | _ => playlist (handle e s) = playlist s
  end
  /\ match e with
     | TogglePlayMode => True
     | _ => playMode (handle e s) = playMode s
     end
  /\ match e with
     | AddVideo _ _ _ => True
     | _ => error (handle e s) = error s
     end.
Proof.
  destruct e; cbn [handle].
  - split; [exact I|]. split; [|exact I].
    unfold addVideo. destruct (_ || _); [reflexivity|].
    destruct (extractVideoId newVideoUrl); [|reflexivity].
    destruct (_ && _); reflexivity.
  - split; [exact I|]. apply removeVideo_playMode_error.
  - split; [apply selectVideo_playlist|].
    split; [apply selectVideo_playMode | apply selectVideo_error].
  - split; [apply playNext_playlist|].
    split; [apply playNext_playMode | apply playNext_error].
  - split; [apply playPrevious_playlist|].
    unfold playPrevious. destruct (_ =? 0); [auto|].
    split; [apply selectVideo_playMode | apply selectVideo_error].
  - split; [apply togglePlayMode_playlist|]. split; [exact I|].
    unfold togglePlayMode. destruct (playMode s); reflexivity.
  - auto.
  - auto.
  - split; [apply onPlayerEnd_playlist|].
    unfold onPlayerEnd.
    destruct (playMode s) eqn:Em;
      try (split; [rewrite playNext_playMode; exact Em | apply playNext_error]).
    destruct (_ <? _);
      [split; [rewrite playNext_playMode; exact Em | apply playNext_error]
      |split; [exact Em | reflexivity]].
Qed.

(** ** The state callback of the player *)

(** X20.  [onPlayerStateChange] keeps a valid position valid and a
    history inside the playlist, never changes the playlist, and for every
    state code other than 0 leaves position and history as they are. *)
Theorem onPlayerStateChange_keeps_invariants (state : Z) (u : JS.draw)
        (s : State) :
  positionValid s ->
  historyValid s ->
  positionValid (onPlayerStateChange state u s)
  /\ historyValid (onPlayerStateChange state u s)
  /\ playlist (onPlayerStateChange state u s) = playlist s
  /\ (state <> 0 ->
      currentTrackIndex (onPlayerStateChange state u s) = currentTrackIndex s
      /\ playedIndices (onPlayerStateChange state u s) = playedIndices s).
Proof.
  intros Hv Hh. unfold onPlayerStateChange.
  destruct (state =? 0) eqn:E0.
  - apply Z.eqb_eq in E0.
    assert (Hnext : positionValid (playNext u s) /\ historyValid (playNext u s)
                    /\ playlist (playNext u s) = playlist s).
    { split; [apply playNext_valid; exact Hv|].
      split; [apply playNext_historyValid; exact Hh | apply playNext_playlist]. }
    destruct Hnext as (H1 & H2 & H3).
    destruct (playMode s); cbv zeta;
      try (split; [exact H1|]; split; [exact H2|]; split; [exact H3|]; lia).
    destruct (_ <? _);
      [split; [exact H1|]; split; [exact H2|]; split; [exact H3|]; lia|].
    split; [exact Hv|]. split; [exact Hh|]. split; [reflexivity|]. lia.
  - destruct (state =? 1); [|destruct (state =? 2)];
      (split; [exact Hv|]; split; [exact Hh|]; split; [reflexivity|]; auto).
Qed.

Lemma onPlayerStateChange_keeps_invariants_witness :
  let a := mkItem 1 "aaaaaaaaaaa" "A" "a" in
  let b := mkItem 2 "bbbbbbbbbbb" "B" "b" in
  let s := mkState [a; b] (Some 1) true shuffle None [1] in
  let u := JS.mkDraw 0 0 in
  positionValid (onPlayerStateChange 0 u s)
  /\ historyValid (onPlayerStateChange 0 u s).
Proof.
  intros a b s u.
  destruct (onPlayerStateChange_keeps_invariants 0 u s) as (H1 & H2 & _).
  - unfold positionValid, s, JS.len. simpl. lia.
  - unfold historyValid, s, JS.len. simpl. repeat constructor; lia.
  - split; [exact H1 | exact H2].
Defined.
